(** * Hydrostatic column integration of an input sounding

    A shallow embedding of [erftools/input_sounding.py]: the two routines
    [InputSounding.integrate_column_wrf] and [InputSounding.integrate_column]
    that turn a sounding (a surface record and a table of levels) into
    profiles of density [rho], moist potential temperature [thm], moist
    pressure [pm] and dry pressure [p].

    The Python source is written against whatever numbers its attributes
    hold; the embedding keeps that: the routines are defined over a class
    [Number] of the operations of numpy's [float64] and a class [Python]
    of the two operations of Python's own [float] that can raise, and what
    is proved of them over the classes holds of every instance.  The
    instance [B64] is IEEE 754 double precision on Rocq's primitive
    floats, with the platform's [pow] as an argument: this is the program
    as it runs. *)

From Stdlib Require Import ZArith List String Floats Lia.
From stdpp Require Import base list.

Set Warnings "-inexact-float".

(** ** Numbers *)

(** The operations the routines use: the literals [0.] (the fill of
    [np.zeros]), [0.5], [1.] and [2.], the four operations, the power [**]
    and the comparison [>] of the assertion. *)
Class Number (F : Type) : Type := {
  zero : F;
  half : F;
  one : F;
  two : F;
  add : F -> F -> F;
  sub : F -> F -> F;
  mul : F -> F -> F;
  div : F -> F -> F;
  pow : F -> F -> F;
  gt : F -> F -> bool
}.

Declare Scope num_scope.
Delimit Scope num_scope with num.
Infix "+" := add : num_scope.
Infix "-" := sub : num_scope.
Infix "*" := mul : num_scope.
Infix "/" := div : num_scope.
Infix "**" := pow (at level 30, right associativity) : num_scope.

#[export] Instance Number_inhabited {F : Type} `{Number F} : Inhabited F :=
  populate zero.

(** ** Data *)

(** One row of the table read by [np.loadtxt]: the attributes [z], [th],
    [qv], [u] and [v] of the object are the columns of that one array, so
    they have the same length by construction and the table is kept as a
    list of rows. *)
Record Level (F : Type) : Type := mkLevel {
  z : F;
  th : F;
  qv : F;
  u : F;
  v : F
}.
Arguments mkLevel {F}.
Arguments z {F}.
Arguments th {F}.
Arguments qv {F}.
Arguments u {F}.
Arguments v {F}.

(** The four arrays the routines allocate with [np.zeros(N)] and fill. *)
Record Profile (F : Type) : Type := mkProfile {
  rho : list F;
  thm : list F;
  pm : list F;
  p : list F
}.
Arguments mkProfile {F}.
Arguments rho {F}.
Arguments thm {F}.
Arguments pm {F}.
Arguments p {F}.

(** The object: the surface record, the table, and the derived arrays,
    which do not exist ([None]) until a routine has assigned them. *)
Record InputSounding (F : Type) : Type := mkSounding {
  p_surf : F;
  th_surf : F;
  qv_surf : F;
  levels : list (Level F);
  derived : option (Profile F)
}.
Arguments mkSounding {F}.
Arguments p_surf {F}.
Arguments th_surf {F}.
Arguments qv_surf {F}.
Arguments levels {F}.
Arguments derived {F}.

(** What the routines can raise.  [ZeroDivisionError] and [OverflowError]
    are the two subclasses of Python's [ArithmeticError] that float
    arithmetic raises. *)
Inductive arithmetic : Type :=
| ZeroDivisionError
| OverflowError.

Inductive exn : Type :=
| IndexError
| AssertionError (msg : string)
| ArithmeticError (e : arithmetic).

(** How a call ends: it returns, or it raises; or, [WentComplex], one of
    the powers of lines 46-47 and 109-110 had a negative base and an
    exponent that is not an integer, which Python evaluates to a complex
    number.  What numpy and Python then do with that number is not
    embedded: the model of such a call ends there, and nothing below is
    said of a call that ends so. *)
Inductive outcome : Type :=
| Returned
| Raised (e : exn)
| WentComplex.

(** ** Python's own floats *)

(** The surface record holds Python floats (the constructor makes them
    with [float()]), and so does the module [constants]; the columns of
    the table are numpy arrays.  An operation with a numpy operand is
    numpy's and never raises; one between two Python floats is Python's,
    and two of those can end otherwise than in a float: [/] raises
    [ZeroDivisionError] on a divisor equal to zero, and [**] raises
    [ZeroDivisionError] or [OverflowError], or gives a complex number. *)
Inductive py (A : Type) : Type :=
| PyFloat (x : A)
| PyRaise (e : arithmetic)
| PyComplex.
Arguments PyFloat {A}.
Arguments PyRaise {A}.
Arguments PyComplex {A}.

Definition bind {A B : Type} (x : py A) (k : A -> py B) : py B :=
  match x with
  | PyFloat a => k a
  | PyRaise e => PyRaise e
  | PyComplex => PyComplex
  end.

Notation "'let*' x ':=' e 'in' k" := (bind e (fun x => k))
  (at level 10, x name, e at level 100, k at level 200, only parsing).

(** The comparison [y == 0] that decides whether [x / y] raises, and
    [x ** y] on two Python floats. *)
Class Python (F : Type) : Type := {
  is_zero : F -> bool;
  float_pow : F -> F -> py F
}.

(** [x / y] on two Python floats. *)
Definition truediv {F : Type} `{Number F} `{Python F} (x y : F) : py F :=
  if is_zero y then PyRaise ZeroDivisionError else PyFloat (div x y).

#[export] Instance Level_inhabited {F : Type} `{Number F} : Inhabited (Level F) :=
  populate (mkLevel zero zero zero zero zero).

(** ** The routines *)

(** Both routines take [verbose] and [Niter].  [verbose] only prints and
    is not modelled; [pi_surf] (lines 47, 110) is computed to be printed
    and for nothing else, but its evaluation can raise, and is modelled
    for that.  A call mutates the object: it assigns the four arrays and
    fills them in place, so the routines are functions from the object
    before the call to the object after it and the way the call ended. *)

Section Integrator.
Context {F : Type} `{Number F} `{Python F}.

(** [from .constants import R_d, c_p, g, p0, rvovrd, cvpm]: the values of
    the module [constants] are parameters of the routines.  [c_p] only
    enters [pi_surf]. *)
Variables R_d c_p g p0 rvovrd cvpm : F.

Local Open Scope num_scope.

Definition zeros (N : nat) : list F := replicate N zero.

(** [self.z[k]], [self.th[k]], [self.qv[k]] are [z (lev s k)] etc.  Every
    index the routines read or write is in range once level 0 exists (the
    loops run over [range(1,N)] and [range(N-2,-1,-1)]), so the total
    lookups never meet their default and the updates never fall outside
    the arrays; the one read that can fail is [self.qv[0]] on an empty
    table. *)
Definition lev (s : InputSounding F) (k : nat) : Level F := levels s !!! k.

Definition set_rho (k : nat) (x : F) (d : Profile F) : Profile F :=
  mkProfile (<[k:=x]> (rho d)) (thm d) (pm d) (p d).
Definition set_thm (k : nat) (x : F) (d : Profile F) : Profile F :=
  mkProfile (rho d) (<[k:=x]> (thm d)) (pm d) (p d).
Definition set_pm (k : nat) (x : F) (d : Profile F) : Profile F :=
  mkProfile (rho d) (thm d) (<[k:=x]> (pm d)) (p d).
Definition set_p (k : nat) (x : F) (d : Profile F) : Profile F :=
  mkProfile (rho d) (thm d) (pm d) (<[k:=x]> (p d)).

Definition with_derived (s : InputSounding F) (d : Profile F) : InputSounding F :=
  mkSounding (p_surf s) (th_surf s) (qv_surf s) (levels s) (Some d).

(** The two moisture factors: [1. + rvovrd*qv] (lines 45, 60, 74) and
    [1. + (rvovrd-1)*qv] (lines 108, 123, 139). *)
Definition qvf_wrf (q : F) : F := one + rvovrd * q.
Definition qvf_vpt (q : F) : F := one + (rvovrd - one) * q.

(** The density of the equation of state,
    [1./((R_d/p0)*th*qvf*((P/p0)**cvpm))] (lines 46, 66, 79). *)
Definition eos (th_ qvf P : F) : F :=
  one / ((R_d / p0) * th_ * qvf * ((P / p0) ** cvpm)).

(** *** 1. From the surface to the lowest level (lines 60-67) *)

(** One pass of the loop body, lines 65-66. *)
Definition relax0 (s : InputSounding F) (rho_surf dz qvf qvf1 : F)
    (d : Profile F) : Profile F :=
  let d1 := set_pm 0 (p_surf s - half * dz * (rho_surf + rho d !!! 0) * g * qvf1) d in
  set_rho 0 (eos (th (lev s 0)) qvf (pm d1 !!! 0)) d1.

Definition stage1 (qvf_of : F -> F) (rho_surf : F) (s : InputSounding F)
    (n : nat) (d : Profile F) : Profile F :=
  let qvf := qvf_of (qv (lev s 0)) in
  let qvf1 := one + qv (lev s 0) in
  let d := set_rho 0 rho_surf d in
  let dz := z (lev s 0) in
  let d := Nat.iter n (relax0 s rho_surf dz qvf qvf1) d in
  set_thm 0 (th (lev s 0) * qvf) d.

(** *** 2. Up the column (lines 70-80) *)

Definition too_cold : string := "too cold for chosen height".

(** The inner loop, lines 75-79: [n] passes are left to run. *)
Fixpoint relax (s : InputSounding F) (k : nat) (dz qvf qvf1 : F) (n : nat)
    (d : Profile F) : Profile F * outcome :=
  match n with
  | O => (d, Returned)
  | S n' =>
      let d1 := set_pm k (pm d !!! (k - 1)%nat
                          - half * dz * (rho d !!! k + rho d !!! (k - 1)%nat) * g * qvf1) d in
      if gt (pm d1 !!! k) zero
      then relax s k dz qvf qvf1 n'
             (set_rho k (eos (th (lev s k)) qvf (pm d1 !!! k)) d1)
      else (d1, Raised (AssertionError too_cold))
  end.

(** The body of the outer loop for one level [k], lines 71-80. *)
Definition level_step (qvf_of : F -> F) (s : InputSounding F) (n : nat)
    (k : nat) (d : Profile F) : Profile F * outcome :=
  let d := set_rho k (rho d !!! (k - 1)%nat) d in
  let dz := z (lev s k) - z (lev s (k - 1)%nat) in
  let qvf1 := half * (two + (qv (lev s (k - 1)%nat) + qv (lev s k))) in
  let qvf := qvf_of (qv (lev s k)) in
  match relax s k dz qvf qvf1 n d with
  | (d, Returned) => (set_thm k (th (lev s k) * qvf) d, Returned)
  | failed => failed
  end.

(** [for k in ks]: the first level that raises ends the loop. *)
Fixpoint column (qvf_of : F -> F) (s : InputSounding F) (n : nat)
    (ks : list nat) (d : Profile F) : Profile F * outcome :=
  match ks with
  | [] => (d, Returned)
  | k :: ks' =>
      match level_step qvf_of s n k d with
      | (d, Returned) => column qvf_of s n ks' d
      | failed => failed
      end
  end.

(** *** 3. Down the column (lines 85-88) *)

Definition dry_step (s : InputSounding F) (d : Profile F) (k : nat) : Profile F :=
  let dz := z (lev s (k + 1)%nat) - z (lev s k) in
  set_p k (p d !!! (k + 1)%nat + half * dz * (rho d !!! k + rho d !!! (k + 1)%nat) * g) d.

(** [range(N-2,-1,-1)] is [N-2, ..., 0]. *)
Definition stage3 (s : InputSounding F) (N : nat) (d : Profile F) : Profile F :=
  fold_left (dry_step s) (rev (seq 0 (N - 1)%nat))
    (set_p (N - 1)%nat (pm d !!! (N - 1)%nat) d).

(** *** The two entry points *)

(** The divisor of the surface density,
    [(R_d/p0)*self.th_surf*qvf*((self.p_surf/p0)**cvpm)] (lines 46, 109),
    in the order Python evaluates it: the two quotients and the power
    have Python floats on both sides. *)
Definition surface_divisor (s : InputSounding F) (qvf : F) : py F :=
  let* a := truediv R_d p0 in
  let* b := truediv (p_surf s) p0 in
  let* e := float_pow b cvpm in
  PyFloat (a * th_surf s * qvf * e).

(** [pi_surf = (self.p_surf/p0)**(R_d/c_p)] (lines 47, 110). *)
Definition pi_surf (s : InputSounding F) : py F :=
  let* b := truediv (p_surf s) p0 in
  let* x := truediv R_d c_p in
  float_pow b x.

(** Lines 46-47.  [qvf] comes from [self.qv[0]] and is a numpy number, so
    the divisor is one and [1. / divisor] is numpy's division, which
    gives an infinity or a NaN where Python's would raise. *)
Definition surface_wrf (s : InputSounding F) (qvf : F) : py F :=
  let* d := surface_divisor s qvf in
  let* pi := pi_surf s in
  PyFloat (one / d).

(** Lines 109-110.  [qvf] comes from [self.qv_surf]: every operand is a
    Python float, and [1. / divisor] raises on a divisor equal to zero. *)
Definition surface_vpt (s : InputSounding F) (qvf : F) : py F :=
  let* d := surface_divisor s qvf in
  let* r := truediv one d in
  let* pi := pi_surf s in
  PyFloat r.

(** Lines 53-88 and 116-155, which the two routines share but for the
    moisture factor: the arrays are assigned afresh, then filled in place;
    a raise leaves the object with the arrays as they are at that point.
    The first statement of stage 1 reads [self.qv[0]], an [IndexError] on
    an empty table. *)
Definition integrate (qvf_of : F -> F) (rho_surf : F) (s : InputSounding F)
    (n : nat) : InputSounding F * outcome :=
  let N := length (levels s) in
  let d := mkProfile (zeros N) (zeros N) (zeros N) (zeros N) in
  match levels s with
  | [] => (with_derived s d, Raised IndexError)
  | _ :: _ =>
      let d := stage1 qvf_of rho_surf s n d in
      match column qvf_of s n (seq 1 (N - 1)%nat) d with
      | (d, Returned) => (with_derived s (stage3 s N d), Returned)
      | (d, failed) => (with_derived s d, failed)
      end
  end.

(** The lines before [N = len(self.th)], then the shared part: a raise in
    those lines leaves the object as it was. *)
Definition start (qvf_of : F -> F) (surface : py F) (s : InputSounding F)
    (n : nat) : InputSounding F * outcome :=
  match surface with
  | PyFloat rho_surf => integrate qvf_of rho_surf s n
  | PyRaise e => (s, Raised (ArithmeticError e))
  | PyComplex => (s, WentComplex)
  end.

(** [integrate_column_wrf(self, Niter)]: line 45 reads [self.qv[0]] before
    anything is assigned.  [range(Niter)] is empty for [Niter <= 0]. *)
Definition integrate_column_wrf (s : InputSounding F) (Niter : Z)
    : InputSounding F * outcome :=
  match levels s with
  | [] => (s, Raised IndexError)
  | l0 :: _ =>
      start qvf_wrf (surface_wrf s (qvf_wrf (qv l0))) s (Z.to_nat Niter)
  end.

(** [integrate_column(self, Niter)]: line 108 takes the factor of the
    surface density from [self.qv_surf]. *)
Definition integrate_column (s : InputSounding F) (Niter : Z)
    : InputSounding F * outcome :=
  start qvf_vpt (surface_vpt s (qvf_vpt (qv_surf s))) s (Z.to_nat Niter).

End Integrator.

(** ** What the loops compute *)

(** The two moisture conventions of the specification:
    [integrate_column_wrf] is [LEGACY], [integrate_column] is
    [VIRTUAL_POTENTIAL_TEMPERATURE]. *)
Inductive formulation : Type :=
| LEGACY
| VIRTUAL_POTENTIAL_TEMPERATURE.

Section Passes.
Context {F : Type} `{Number F} `{Python F}.
Variables R_d c_p g p0 rvovrd cvpm : F.

Local Open Scope num_scope.

Local Abbreviation eos := (eos R_d p0 cvpm).

(** The pair [(pm[k], rho[k])] of a level. *)
Definition cell (d : Profile F) (k : nat) : F * F := (pm d !!! k, rho d !!! k).

(** One repetition at level 0, on the pair alone:
    [pm[0] = p_surf - 0.5*z[0]*(rho_surf + rho[0])*g*qvf1] with
    [qvf1 = 1 + qv[0]], then [rho[0]] from the equation of state. *)
Definition pass0 (qvf_of : F -> F) (rho_surf : F) (s : InputSounding F)
    (c : F * F) : F * F :=
  let qvf := qvf_of (qv (lev s 0)) in
  let qvf1 := one + qv (lev s 0) in
  let pm0 := p_surf s - half * z (lev s 0) * (rho_surf + snd c) * g * qvf1 in
  (pm0, eos (th (lev s 0)) qvf pm0).

(** One repetition at a level [k >= 1], on the pair alone, from the
    values [pm_prev], [rho_prev] of the level below:
    [pm[k] = pm[k-1] - 0.5*dz*(rho[k]+rho[k-1])*g*qvf1], then
    [rho[k] = 1/((R_d/p0)*th[k]*qvf*(pm[k]/p0)^cvpm)]. *)
Definition pass_with (thk dz qvf qvf1 pm_prev rho_prev : F) (c : F * F) : F * F :=
  let pmk := pm_prev - half * dz * (snd c + rho_prev) * g * qvf1 in
  (pmk, eos thk qvf pmk).

(** With [dz = z[k]-z[k-1]], [qvf1 = 0.5*(2 + qv[k-1] + qv[k])] and [qvf]
    from [qv[k]]. *)
Definition pass (qvf_of : F -> F) (s : InputSounding F) (k : nat)
    (pm_prev rho_prev : F) : F * F -> F * F :=
  pass_with (th (lev s k))
    (z (lev s k) - z (lev s (k - 1)%nat))
    (qvf_of (qv (lev s k)))
    (half * (two + (qv (lev s (k - 1)%nat) + qv (lev s k))))
    pm_prev rho_prev.

(** The pair of level [k] after [i] repetitions, started as the loop
    starts it: [pm[k]] still [0.], [rho[k] = rho[k-1]]. *)
Definition passes (qvf_of : F -> F) (s : InputSounding F) (k : nat)
    (d : Profile F) (i : nat) : F * F :=
  Nat.iter i (pass qvf_of s k (pm d !!! (k - 1)%nat) (rho d !!! (k - 1)%nat))
    (zero, rho d !!! (k - 1)%nat).

(** Level 0 holds what stage 1 leaves. *)
Definition settled0 (qvf_of : F -> F) (rho_surf : F) (s : InputSounding F)
    (n : nat) (d : Profile F) : Prop :=
  cell d 0 = Nat.iter n (pass0 qvf_of rho_surf s) (zero, rho_surf)
  /\ thm d !!! 0 = th (lev s 0) * qvf_of (qv (lev s 0)).

(** Level [k] holds what the [n] repetitions of stage 2 and the final
    assignment of [thm[k]] leave, given the values of level [k-1]. *)
Definition settled (qvf_of : F -> F) (s : InputSounding F) (n : nat)
    (d : Profile F) (k : nat) : Prop :=
  cell d k = passes qvf_of s k d n
  /\ thm d !!! k = th (lev s k) * qvf_of (qv (lev s k)).

(** Every pressure a repetition of level [k] produced passed the
    assertion. *)
Definition all_positive (qvf_of : F -> F) (s : InputSounding F)
    (d : Profile F) (k i : nat) : Prop :=
  forall j, (1 <= j <= i)%nat -> gt (fst (passes qvf_of s k d j)) zero = true.

(** The run stopped at level [k] in repetition [i+1]: [i] repetitions
    passed, the next pressure is stored in [pm[k]] and fails [> 0], and
    [rho[k]] is as repetition [i] left it. *)
Definition stopped (qvf_of : F -> F) (s : InputSounding F)
    (d : Profile F) (k i : nat) : Prop :=
  all_positive qvf_of s d k i
  /\ pm d !!! k = fst (passes qvf_of s k d (S i))
  /\ gt (pm d !!! k) zero = false
  /\ rho d !!! k = snd (passes qvf_of s k d i).

(** The entries from [k] on still hold the [0.] of [np.zeros]. *)
Definition untouched (l : list F) (k : nat) : Prop :=
  forall j, (k <= j < length l)%nat -> l !!! j = zero.

Definition sized (N : nat) (d : Profile F) : Prop :=
  length (rho d) = N /\ length (thm d) = N /\ length (pm d) = N
  /\ length (p d) = N.

(** Two profiles agree on the entries below [k] of [rho], [thm], [pm]. *)
Definition agree_below (k : nat) (d d' : Profile F) : Prop :=
  forall j, (j < k)%nat ->
    rho d' !!! j = rho d !!! j /\ thm d' !!! j = thm d !!! j
    /\ pm d' !!! j = pm d !!! j.

(** The routine of each of the two conventions, the factor it applies at
    the levels, and how its first lines end. *)
Definition integrate_as (f : formulation) (s : InputSounding F) (Niter : Z)
    : InputSounding F * outcome :=
  match f with
  | LEGACY => integrate_column_wrf R_d c_p g p0 rvovrd cvpm s Niter
  | VIRTUAL_POTENTIAL_TEMPERATURE =>
      integrate_column R_d c_p g p0 rvovrd cvpm s Niter
  end.

Definition qvf_for (f : formulation) : F -> F :=
  match f with
  | LEGACY => qvf_wrf rvovrd
  | VIRTUAL_POTENTIAL_TEMPERATURE => qvf_vpt rvovrd
  end.

(** What lines 45-47 and 108-110 end in: the surface density, or a
    raise, or a complex number. *)
Definition surface_for (f : formulation) (s : InputSounding F) : py F :=
  match f with
  | LEGACY => surface_wrf R_d c_p p0 cvpm s (qvf_wrf rvovrd (qv (lev s 0)))
  | VIRTUAL_POTENTIAL_TEMPERATURE =>
      surface_vpt R_d c_p p0 cvpm s (qvf_vpt rvovrd (qv_surf s))
  end.

(** The five ways a call can go: [integrate_column_wrf] finds no level 0
    at line 45; lines 46-47 or 109-110 raise, or leave the floats;
    [integrate_column] finds no level 0 at line 123, the four arrays
    assigned and empty; or the table is not empty and the shared part
    runs from the surface density. *)
Inductive course (f : formulation) (s : InputSounding F) (n : nat)
    : InputSounding F * outcome -> Prop :=
| no_level_0 :
    f = LEGACY -> levels s = [] -> course f s n (s, Raised IndexError)
| surface_raises e :
    (f = LEGACY -> levels s <> []) -> surface_for f s = PyRaise e ->
    course f s n (s, Raised (ArithmeticError e))
| surface_complex :
    (f = LEGACY -> levels s <> []) -> surface_for f s = PyComplex ->
    course f s n (s, WentComplex)
| empty_arrays rho_surf :
    f = VIRTUAL_POTENTIAL_TEMPERATURE -> levels s = [] ->
    surface_for f s = PyFloat rho_surf ->
    course f s n (with_derived s (mkProfile [] [] [] []), Raised IndexError)
| shared_part rho_surf :
    levels s <> [] -> surface_for f s = PyFloat rho_surf ->
    course f s n (integrate R_d g p0 cvpm (qvf_for f) rho_surf s n).

(** The profile a call leaves in the object; [np.zeros(0)] four times when
    it left none. *)
Definition profile_of (r : InputSounding F * outcome) : Profile F :=
  match derived (fst r) with
  | Some d => d
  | None => mkProfile [] [] [] []
  end.

(** The same object with another [qv_surf], and with other derived arrays
    (or none) left by earlier calls. *)
Definition with_qv_surf (s : InputSounding F) (q : F) : InputSounding F :=
  mkSounding (p_surf s) (th_surf s) q (levels s) (derived s).

Definition with_old (s : InputSounding F) (o : option (Profile F))
    : InputSounding F :=
  mkSounding (p_surf s) (th_surf s) (qv_surf s) (levels s) o.

(** Each entry of [l] is less than the next, as the comparison of the
    number type decides it. *)
Fixpoint increasing (l : list F) : bool :=
  match l with
  | x :: (y :: _) as l' => gt y x && increasing l'
  | _ => true
  end.

(** No entry of [l] is greater than the next. *)
Fixpoint non_decreasing (l : list F) : bool :=
  match l with
  | x :: (y :: _) as l' => negb (gt x y) && non_decreasing l'
  | _ => true
  end.

Definition all_gt_zero (l : list F) : bool := forallb (fun x => gt x zero) l.

End Passes.

(** ** The program's arithmetic: binary64 *)

Module B64.
Local Open Scope float_scope.

(** numpy's [**] on [float64] is the platform's [pow], whose last bits
    the platform decides; the instance takes it as an argument. *)
Definition number (power : float -> float -> float) : Number float := {|
  zero := 0;
  half := 0.5;
  one := 1;
  two := 2;
  add := PrimFloat.add;
  sub := PrimFloat.sub;
  mul := PrimFloat.mul;
  div := PrimFloat.div;
  pow := power;
  gt := fun x y => PrimFloat.ltb y x
|}.

(** *** A reference power, to run the routines *)

Definition ln2_hi : float := 0x1.62e42fee00000p-1.
Definition ln2_lo : float := 0x1.a39ef35793c76p-33.
Definition inv_ln2 : float := 0x1.71547652b82fep+0.
Definition sqrt_half : float := 0x1.6a09e667f3bcdp-1.
Definition magic : float := 0x1.8p+52.

Definition float_of_Z (e : Z) : float :=
  if (e <? 0)%Z then - of_uint63 (Uint63.of_Z (- e))
  else of_uint63 (Uint63.of_Z e).

(** The integer that a float of integral value below [2^53] stands for. *)
Definition Z_of_float (x : float) : Z :=
  let (m, e) := Z.frexp (abs x) in
  let n := Z.shiftr (Uint63.to_Z (normfr_mantissa m)) (53 - e) in
  if x <? 0 then (- n)%Z else n.

Fixpoint atanh_series (n : nat) (k t2 : float) : float :=
  match n with
  | O => 1 / k
  | S n' => 1 / k + t2 * atanh_series n' (k + 2) t2
  end.

(** [ln x] for a positive finite [x = m * 2^e], [m] in [sqrt(1/2), sqrt 2):
    [2 atanh ((m-1)/(m+1)) + e ln 2]. *)
Definition ln_ref (x : float) : float :=
  let (m, e) := Z.frexp x in
  let (m, e) := if m <? sqrt_half then (2 * m, (e - 1)%Z) else (m, e) in
  let t := (m - 1) / (m + 1) in
  let ef := float_of_Z e in
  ef * ln2_hi + (2 * t * atanh_series 12 1 (t * t) + ef * ln2_lo).

Fixpoint exp_series (n : nat) (k r : float) : float :=
  match n with
  | O => 1
  | S n' => 1 + r / k * exp_series n' (k + 1) r
  end.

(** [exp y = 2^k * exp r] with [k] the integer nearest to [y / ln 2]. *)
Definition exp_ref (y : float) : float :=
  if 710 <? y then infinity
  else if y <? -746 then 0
  else
    let kf := (y * inv_ln2 + magic) - magic in
    let r := (y - kf * ln2_hi) - kf * ln2_lo in
    Z.ldexp (exp_series 20 1 r) (Z_of_float kf).

Definition is_integral (y : float) : bool :=
  if 0x1p+52 <=? abs y then true
  else ((abs y + 0x1p+52) - 0x1p+52 =? abs y).

Definition is_odd (y : float) : bool :=
  if 0x1p+53 <=? abs y then false else Z.odd (Z_of_float y).

(** [x ** y] with the special cases of IEEE 754 ([1 ** y] and [x ** 0]
    are [1]; a negative base with a fractional exponent gives NaN, a zero
    base with a negative one an infinity) and [exp (y ln x)] otherwise,
    which is within a few units in the last place of the platform's.  The
    power of a positive base is taken in absolute value: the exponential
    is positive, and so the result has its sign bit clear whatever the
    series of [exp_ref] rounds to. *)
Definition pow_ref (x y : float) : float :=
  if y =? 0 then 1
  else if x =? 1 then 1
  else if orb (is_nan x) (is_nan y) then nan
  else if x =? 0 then (if y <? 0 then infinity else 0)
  else if x <? 0 then
    (if is_integral y
     then (let r := exp_ref (y * ln_ref (- x)) in if is_odd y then - r else r)
     else nan)
  else if x =? infinity then (if y <? 0 then 0 else infinity)
  else abs (exp_ref (y * ln_ref x)).

(** Python's [**] on two floats (CPython's [float_pow]).  The special
    cases are decided before the platform's [pow] is called: an exponent
    equal to zero gives 1; NaN operands, infinite operands and a base
    equal to zero follow IEEE 754, except that a zero base with a negative
    exponent raises [ZeroDivisionError]; a negative base with an exponent
    that is not an integer gives a complex number; a negative base with
    an integer exponent is the power of its absolute value, negated for
    an odd exponent.  Otherwise the result is the platform's [pow], and
    an infinite one raises [OverflowError] (as does, on a platform whose
    [pow] reports a range error for it, a result in the subnormal range;
    glibc's and macOS's do not). *)
Definition is_odd_integer (y : float) : bool := is_integral y && is_odd y.

Definition float_pow (power : float -> float -> float) (iv iw : float)
    : py float :=
  if iw =? 0 then PyFloat 1
  else if is_nan iv then PyFloat iv
  else if is_nan iw then PyFloat (if iv =? 1 then 1 else iw)
  else if is_infinity iw then
    if abs iv =? 1 then PyFloat 1
    else if Bool.eqb (0 <? iw) (1 <? abs iv) then PyFloat (abs iw)
    else PyFloat 0
  else if is_infinity iv then
    if 0 <? iw then PyFloat (if is_odd_integer iw then iv else abs iv)
    else PyFloat (if is_odd_integer iw
                  then (if get_sign iv then -0 else 0)
                  else 0)
  else if iv =? 0 then
    if iw <? 0 then PyRaise ZeroDivisionError
    else PyFloat (if is_odd_integer iw then iv else 0)
  else if (iv <? 0) && negb (is_integral iw) then PyComplex
  else
    let negate := (iv <? 0) && is_odd_integer iw in
    let av := if iv <? 0 then - iv else iv in
    if av =? 1 then PyFloat (if negate then -1 else 1)
    else
      let ix := power av iw in
      if is_infinity ix then PyRaise OverflowError
      else PyFloat (if negate then - ix else ix).

(** Python floats in binary64: [y == 0] holds of both zeros. *)
Definition python (power : float -> float -> float) : Python float :=
  Build_Python float (fun y => y =? 0) (float_pow power).

(** Modelled from the spec: the values of [erftools/constants.py], which
    is not among the sources.  The spec names the constants and gives
    [rvovrd = R_v/R_d] and [cvpm = -(1 - R_d/c_p)]; the numbers are those
    of WRF's model constants, which the routines' docstrings refer to. *)
Definition R_d : float := 287.
Definition c_p : float := 7 * R_d / 2.
Definition R_v : float := 461.6.
Definition g : float := 9.81.
Definition p0 : float := 100000.
Definition rvovrd : float := R_v / R_d.
Definition cvpm : float := - (1 - R_d / c_p).

(** Binary64 with the reference power. *)
#[global] Instance ieee : Number float := number pow_ref.
#[global] Instance ieee_python : Python float := python pow_ref.

(** The routines as they run, at these constants and the reference
    power. *)
Definition run (f : formulation) (s : InputSounding float) (Niter : Z)
    : InputSounding float * outcome :=
  integrate_as R_d c_p g p0 rvovrd cvpm f s Niter.

Definition level (z_ th_ qv_ : float) : Level float := mkLevel z_ th_ qv_ 0 0.

(** The end-to-end scenario of the specification. *)
Definition scenario : InputSounding float :=
  mkSounding 100000 300 0.01
    [level 0 300 0.01; level 1000 302 0.008; level 2000 305 0.005] None.

(** The same column with its lowest level 100 m above the surface. *)
Definition raised : InputSounding float :=
  mkSounding 100000 300 0.01
    [level 100 300 0.01; level 1000 302 0.008; level 2000 305 0.005] None.

Definition dry : InputSounding float :=
  mkSounding 100000 300 0
    [level 100 300 0; level 1000 302 0; level 2000 305 0] None.

(** The failure scenario of the specification, 50 K and a first level at
    5000 m: as the only level, and as the second level above one at the
    surface. *)
Definition cold_single : InputSounding float :=
  mkSounding 100000 50 0 [level 5000 50 0] None.
Definition cold : InputSounding float :=
  mkSounding 100000 50 0 [level 0 50 0; level 5000 50 0] None.

(** The scenario with its top level out of reach. *)
Definition cold_top : InputSounding float :=
  mkSounding 100000 300 0.01
    [level 0 300 0.01; level 1000 302 0.008; level 50000 305 0.005] None.

(** The scenario with its top level below the middle one. *)
Definition folded : InputSounding float :=
  mkSounding 100000 300 0.01
    [level 0 300 0.01; level 1000 302 0.008; level 500 305 0.005] None.

(** Thin layers, potential temperature rising and moisture falling with
    height. *)
Definition drying : InputSounding float :=
  mkSounding 100000 300 0.01
    [level 0 300 0.01; level 10 300.02 0.008; level 20 300.05 0.005] None.

(** A layer thinner than the spacing of binary64 numbers near [p_surf]
    can carry. *)
Definition film : InputSounding float :=
  mkSounding 100000 300 0 [level 0 300 0; level 1e-13 300 0] None.

(** The failure scenario with a second level above the first. *)
Definition cold_pair : InputSounding float :=
  mkSounding 100000 50 0 [level 5000 50 0; level 6000 50 0] None.


(** The dry column under a surface temperature of 0 K. *)
Definition dry_no_temperature : InputSounding float :=
  mkSounding 100000 0 0
    [level 100 300 0; level 1000 302 0; level 2000 305 0] None.

(** The scenario with its surface pressure set to 0, in an object that
    holds the arrays of an earlier call. *)
Definition stale : Profile float :=
  mkProfile [1; 1; 1] [300; 300; 300] [100000; 90000; 80000]
    [100000; 90000; 80000].
Definition no_pressure : InputSounding float :=
  mkSounding 0 300 0.01
    [level 0 300 0.01; level 1000 302 0.008; level 2000 305 0.005]
    (Some stale).

(** The surface density of an object, when lines 45-47 or 108-110 give
    one. *)
Definition density (f : formulation) (s : InputSounding float) : float :=
  match surface_for R_d c_p p0 rvovrd cvpm f s with
  | PyFloat rho_surf => rho_surf
  | _ => nan
  end.

End B64.

(** ** The table cut short *)

(** The object with only the lowest [m] levels of its table. *)
Definition truncate {F : Type} (m : nat) (s : InputSounding F) : InputSounding F :=
  mkSounding (p_surf s) (th_surf s) (qv_surf s) (take m (levels s)) (derived s).

(** ** Finite binary64 numbers *)

(** Neither an infinity nor a NaN; and, more, not a zero. *)
Definition float_finite (x : float) : bool :=
  match Prim2SF x with
  | S754_zero _ | S754_finite _ _ _ => true
  | _ => false
  end.

Definition float_nonzero_finite (x : float) : bool :=
  match Prim2SF x with
  | S754_finite _ _ _ => true
  | _ => false
  end.

(** The two sums of densities that stage 1 forms when its lowest level is
    at the surface, the surface density [rs] with itself and with the
    density of the equation of state at [p_surf], are finite. *)
Definition surface_settles (power : float -> float -> float)
    (R_d p0 rvovrd cvpm : float) (f : formulation) (s : InputSounding float)
    (rs : float) : bool :=
  let e := @eos float (B64.number power) R_d p0 cvpm (th (levels s !!! 0%nat))
             (@qvf_for float (B64.number power) rvovrd f
                (qv (levels s !!! 0%nat)))
             (p_surf s) in
  float_finite (rs + rs)%float && float_finite (rs + e)%float.

(** The scenario under another surface temperature and moisture. *)
Definition scenario_other_surface : InputSounding float :=
  mkSounding 100000%float 250%float 0%float
    [B64.level 0 300 0.01; B64.level 1000 302 0.008; B64.level 2000 305 0.005]
    None.

(** ** Rounding in binary64 *)

(** The terms in which the rounding of [+], [-], [*] and [/] is followed
    on the specification of binary64 ([SpecFloat], which the primitive
    floats satisfy). *)
Section RoundingTerms.
Local Open Scope Z_scope.

(** [y] is [x] shifted right by [k] bits: the mantissa is divided by
    [2^k], and the round and sticky bits stay clear when they were and
    the division is exact. *)
Definition halved (k : Z) (x y : shr_record) : Prop :=
  0 <= shr_m x ->
  0 <= shr_m y /\ shr_m y = shr_m x / 2 ^ k
  /\ (shr_r x = false -> shr_s x = false -> shr_m x mod 2 ^ k = 0 ->
      shr_r y = false /\ shr_s y = false).

(** A result of sign [sx] whose magnitude is at most, or at least, the one
    of the number [ma * 2 ^ ea] of the format. *)
Definition below (sx : bool) (ma : positive) (ea : Z) (r : spec_float) : Prop :=
  r = S754_zero sx \/
  exists m2 e2, r = S754_finite sx m2 e2 /\ (e2 < ea \/ (e2 = ea /\ Zpos m2 <= Zpos ma)).

Definition above (sx : bool) (ma : positive) (ea : Z) (r : spec_float) : Prop :=
  r = S754_infinity sx \/
  exists m2 e2, r = S754_finite sx m2 e2 /\ (ea < e2 \/ (e2 = ea /\ Zpos ma <= Zpos m2)).

(** The sign bit of a number is [sx], or the number is NaN, which has
    none. *)
Definition has_sign (sx : bool) (r : spec_float) : Prop :=
  match r with
  | S754_zero s | S754_infinity s | S754_finite s _ _ => s = sx
  | S754_nan => True
  end.

Definition sign_of (r : spec_float) : bool :=
  match r with
  | S754_zero s | S754_infinity s | S754_finite s _ _ => s
  | S754_nan => false
  end.

(** Not negative, as [<] decides it: not below zero, so a zero of either
    sign, a positive number, or NaN. *)
Definition sf_nn (r : spec_float) : Prop := SFltb r (S754_zero false) = false.

Definition not_negative (x : float) : Prop := (x <? 0)%float = false.

End RoundingTerms.

(** ** The input file of [erftools/inputs.py] *)

Module ErfInput.

(** The values the store holds: [None], booleans, integers, floats,
    strings and lists of these. *)
#[warnings="-register-all"] Inductive value : Type :=
| VNone
| VBool (b : bool)
| VInt (n : Z)
| VFloat (x : float)
| VStr (t : string)
| VList (l : list value).

(** Python's truth of a value, as [if self.verbose:] takes it. *)
Definition truthy (v : value) : bool :=
  match v with
  | VNone => false
  | VBool b => b
  | VInt n => negb (n =? 0)%Z
  | VFloat x => negb (x =? 0)%float
  | VStr t => negb (String.eqb t EmptyString)
  | VList l => match l with [] => false | _ :: _ => true end
  end.

(** A Python [dict] with string keys: the items in insertion order, no key
    twice. *)
Definition dict : Type := list (string * value).

Fixpoint dict_get (k : string) (d : dict) : option value :=
  match d with
  | [] => None
  | (k', v) :: d' => if String.eqb k k' then Some v else dict_get k d'
  end.

(** [d[k] = v]: a key already there keeps its place and takes the value,
    a new key goes last. *)
Fixpoint dict_set (k : string) (v : value) (d : dict) : dict :=
  match d with
  | [] => [(k, v)]
  | (k', v') :: d' =>
      if String.eqb k k' then (k, v) :: d' else (k', v') :: dict_set k v d'
  end.

(** [del d[k]], [None] for the [KeyError]. *)
Fixpoint dict_del (k : string) (d : dict) : option dict :=
  match d with
  | [] => None
  | (k', v) :: d' =>
      if String.eqb k k' then Some d'
      else match dict_del k d' with
           | Some d'' => Some ((k', v) :: d'')
           | None => None
           end
  end.

(** [k in d]. *)
Definition dict_has (k : string) (d : dict) : bool :=
  match dict_get k d with Some _ => true | None => false end.

(** [d.update(items)], and [dict(items)]. *)
Definition dict_update (d : dict) (items : list (string * value)) : dict :=
  fold_left (fun acc kv => dict_set (fst kv) (snd kv) acc) items d.

Definition dict_of (items : list (string * value)) : dict := dict_update [] items.

(** [d.pop(k, default)]: the value and the rest. *)
Definition dict_pop (k : string) (default : value) (d : dict) : value * dict :=
  match dict_get k d, dict_del k d with
  | Some v, Some d' => (v, d')
  | _, _ => (default, d)
  end.

Inductive exn : Type :=
| KeyError (key : string)
| TypeError.

Inductive result (A : Type) : Type :=
| Ok (a : A)
| Raise (e : exn).
Arguments Ok {A}.
Arguments Raise {A}.

(** What [__setitem__] prints: [Overriding existing `key` with value]. *)
Inductive message : Type :=
| Overriding (key : string) (v : value).

Record ERFInputFile : Type := mkFile {
  verbose : value;
  store : dict
}.

(** The store of lines 27-36. *)
Definition defaults : dict :=
  [("amr.refinement_indicators"%string, VStr EmptyString);
   ("erf.most.z0"%string, VNone);
   ("erf.most.surf_temp"%string, VNone);
   ("erf.latitude"%string, VNone);
   ("erf.rotational_time_period"%string, VNone);
   ("erf.z_levels"%string, VList [])].

Definition _keytransform (key : string) : string := key.

Definition __getitem__ (f : ERFInputFile) (key : string) : result value :=
  match dict_get (_keytransform key) (store f) with
  | Some v => Ok v
  | None => Raise (KeyError (_keytransform key))
  end.

(** Lines 51-60: the lookup of the old value decides whether anything is
    printed, and the [finally] stores in either case. *)
Definition __setitem__ (f : ERFInputFile) (key : string) (v : value)
    : ERFInputFile * list message :=
  let printed :=
    match __getitem__ f key with
    | Raise _ => []
    | Ok _ => if truthy (verbose f) then [Overriding key v] else []
    end in
  (mkFile (verbose f) (dict_set (_keytransform key) v (store f)), printed).

Definition __delitem__ (f : ERFInputFile) (key : string) : result ERFInputFile :=
  match dict_del (_keytransform key) (store f) with
  | Some d => Ok (mkFile (verbose f) d)
  | None => Raise (KeyError (_keytransform key))
  end.

Definition __iter__ (f : ERFInputFile) : list string := map fst (store f).

Definition __len__ (f : ERFInputFile) : nat := length (store f).

(** [MutableMapping.update] on a [dict]: [self[key] = other[key]] for each
    key of [other] in order, the prints one after the other. *)
Definition update (f : ERFInputFile) (other : dict)
    : ERFInputFile * list message :=
  fold_left
    (fun acc kv =>
       let r := __setitem__ (fst acc) (fst kv) (snd kv) in
       (fst r, snd acc ++ snd r))
    other (f, []).

(** [__init__(self, *args, **kwargs)].  [args] holds the positional
    arguments, each the items of a mapping or a sequence of pairs;
    [kwargs] the keyword arguments in the order of the call.
    The [dict] built from them takes at most one positional argument. *)
Definition __init__ (args : list (list (string * value)))
    (kwargs : list (string * value)) : result (ERFInputFile * list message) :=
  let (vb, kw) := dict_pop "verbose" (VBool true) (dict_of kwargs) in
  let self := mkFile vb defaults in
  match args with
  | [] => Ok (update self (dict_update [] kw))
  | [a] => Ok (update self (dict_update (dict_of a) kw))
  | _ :: _ :: _ => Raise TypeError
  end.

End ErfInput.

(** ** Tactics *)

(** Two binary64 numbers with different representations are different. *)
Ltac float_discriminate H :=
  apply (f_equal Prim2SF) in H; vm_compute in H; discriminate H.

(** ** The loops, one by one *)

Section Loops.
Context {F : Type} `{Number F}.
Variables R_d g p0 rvovrd cvpm : F.

Local Open Scope num_scope.

Local Abbreviation eos := (eos R_d p0 cvpm).
Local Abbreviation relax0 := (relax0 R_d g p0 cvpm).
Local Abbreviation stage1 := (stage1 R_d g p0 cvpm).
Local Abbreviation relax := (relax R_d g p0 cvpm).
Local Abbreviation level_step := (level_step R_d g p0 cvpm).
Local Abbreviation column := (column R_d g p0 cvpm).
Local Abbreviation dry_step := (dry_step g).
Local Abbreviation stage3 := (stage3 g).
Local Abbreviation integrate := (integrate R_d g p0 cvpm).
Local Abbreviation pass0 := (pass0 R_d g p0 cvpm).
Local Abbreviation pass_with := (pass_with R_d g p0 cvpm).
Local Abbreviation pass := (pass R_d g p0 cvpm).
Local Abbreviation passes := (passes R_d g p0 cvpm).
Local Abbreviation settled0 := (settled0 R_d g p0 cvpm).
Local Abbreviation settled := (settled R_d g p0 cvpm).
Local Abbreviation all_positive := (all_positive R_d g p0 cvpm).
Local Abbreviation stopped := (stopped R_d g p0 cvpm).

Lemma zeros_length (N : nat) : length (zeros (F:=F) N) = N.
Proof. apply length_replicate. Qed.

Lemma zeros_lookup (N j : nat) : zeros (F:=F) N !!! j = zero.
Proof.
  unfold zeros. destruct (decide (j < N)%nat) as [Hj|Hj].
  - apply list_lookup_total_correct. now apply lookup_replicate_2.
  - rewrite list_lookup_total_alt, lookup_ge_None_2; [reflexivity|].
    rewrite length_replicate. lia.
Qed.

Lemma sized_zeros (N : nat) :
  sized N (mkProfile (zeros N) (zeros N) (zeros N) (zeros N)).
Proof. unfold sized; simpl. now rewrite zeros_length. Qed.

Lemma insert_eq (l : list F) (k : nat) (x : F) :
  (k < length l)%nat -> <[k:=x]> l !!! k = x.
Proof. apply list_lookup_total_insert_eq. Qed.

Lemma insert_ne (l : list F) (k j : nat) (x : F) :
  k <> j -> <[k:=x]> l !!! j = l !!! j.
Proof. apply list_lookup_total_insert_ne. Qed.

Lemma sized_set_rho N k x (d : Profile F) : sized N d -> sized N (set_rho k x d).
Proof. unfold sized; simpl. now rewrite length_insert. Qed.
Lemma sized_set_thm N k x (d : Profile F) : sized N d -> sized N (set_thm k x d).
Proof. unfold sized; simpl. now rewrite length_insert. Qed.
Lemma sized_set_pm N k x (d : Profile F) : sized N d -> sized N (set_pm k x d).
Proof. unfold sized; simpl. now rewrite length_insert. Qed.
Lemma sized_set_p N k x (d : Profile F) : sized N d -> sized N (set_p k x d).
Proof. unfold sized; simpl. now rewrite length_insert. Qed.

(** *** The inner loop of stage 2 *)

Lemma relax_S s k dz qvf qvf1 n (d : Profile F) :
  relax s k dz qvf qvf1 (S n) d =
  let d1 := set_pm k (pm d !!! (k - 1)%nat
                      - half * dz * (rho d !!! k + rho d !!! (k - 1)%nat) * g * qvf1) d in
  if gt (pm d1 !!! k) zero
  then relax s k dz qvf qvf1 n
         (set_rho k (eos (th (lev s k)) qvf (pm d1 !!! k)) d1)
  else (d1, Raised (AssertionError too_cold)).
Proof. reflexivity. Qed.

(** It writes [pm[k]] and [rho[k]] and nothing else. *)
Lemma relax_frame s k dz qvf qvf1 N n : forall d : Profile F,
  sized N d ->
  let r := relax s k dz qvf qvf1 n d in
  sized N (fst r) /\ thm (fst r) = thm d /\ p (fst r) = p d
  /\ forall j, j <> k ->
       rho (fst r) !!! j = rho d !!! j /\ pm (fst r) !!! j = pm d !!! j.
Proof.
  induction n as [|n IH]; intros d Hd; simpl.
  - split; [exact Hd|]. repeat split.
  - destruct (gt _ zero) eqn:Hgt.
    + match goal with |- context [relax s k dz qvf qvf1 n ?d2] =>
        specialize (IH d2) end.
      destruct IH as (Hs & Ht & Hp & Hj).
      { now apply sized_set_rho, sized_set_pm. }
      split; [exact Hs|]. split; [exact Ht|]. split; [exact Hp|].
      intros j Hjk. destruct (Hj j Hjk) as [-> ->]. simpl.
      split; [now apply insert_ne | now apply insert_ne].
    + simpl. split; [now apply sized_set_pm|]. repeat split.
      now apply insert_ne.
Qed.

(** What it leaves in the pair of level [k], and how it ends. *)
Lemma relax_cell s k dz qvf qvf1 N n : forall d : Profile F,
  sized N d -> (1 <= k < N)%nat ->
  let f := pass_with (th (lev s k)) dz qvf qvf1
             (pm d !!! (k - 1)%nat) (rho d !!! (k - 1)%nat) in
  let c0 := cell d k in
  match relax s k dz qvf qvf1 n d with
  | (d', Returned) =>
      cell d' k = Nat.iter n f c0
      /\ forall j, (1 <= j <= n)%nat -> gt (fst (Nat.iter j f c0)) zero = true
  | (d', Raised e) =>
      e = AssertionError too_cold
      /\ exists i, (i < n)%nat
         /\ (forall j, (1 <= j <= i)%nat -> gt (fst (Nat.iter j f c0)) zero = true)
         /\ pm d' !!! k = fst (Nat.iter (S i) f c0)
         /\ gt (pm d' !!! k) zero = false
         /\ rho d' !!! k = snd (Nat.iter i f c0)
  | (d', WentComplex) => False
  end.
Proof.
  induction n as [|n IH]; intros d Hd Hk f c0.
  - simpl. split; [reflexivity|]. intros j Hj; lia.
  - rewrite relax_S.
    set (x := pm d !!! (k - 1)%nat
              - half * dz * (rho d !!! k + rho d !!! (k - 1)%nat) * g * qvf1).
    assert (Hlen : (k < length (pm d))%nat /\ (k < length (rho d))%nat).
    { destruct Hd as (-> & _ & -> & _). lia. }
    assert (Hx : pm (set_pm k x d) !!! k = x).
    { simpl. apply insert_eq. tauto. }
    assert (Hf : f c0 = (x, eos (th (lev s k)) qvf x)) by reflexivity.
    cbv zeta. rewrite Hx.
    destruct (gt x zero) eqn:Hgt.
    + set (d2 := set_rho k (eos (th (lev s k)) qvf x) (set_pm k x d)).
      specialize (IH d2).
      assert (Hd2 : sized N d2) by now apply sized_set_rho, sized_set_pm.
      assert (Hprev : pm d2 !!! (k - 1)%nat = pm d !!! (k - 1)%nat
                      /\ rho d2 !!! (k - 1)%nat = rho d !!! (k - 1)%nat).
      { simpl. split; apply insert_ne; lia. }
      assert (Hc : cell d2 k = f c0).
      { rewrite Hf. unfold cell; simpl. f_equal; apply insert_eq;
          rewrite ?length_insert; tauto. }
      specialize (IH Hd2 Hk). cbv zeta in IH.
      destruct Hprev as [Hp1 Hp2]. rewrite Hp1, Hp2, Hc in IH.
      fold f in IH.
      assert (Hpos : forall i, (forall j, (1 <= j <= i)%nat ->
                        gt (fst (Nat.iter j f (f c0))) zero = true) ->
                      forall j, (1 <= j <= S i)%nat ->
                        gt (fst (Nat.iter j f c0)) zero = true).
      { intros i Hi j Hj. destruct j as [|j]; [lia|].
        rewrite Nat.iter_succ_r. destruct j as [|j].
        - change (gt (fst (f c0)) zero = true). now rewrite Hf.
        - apply Hi. lia. }
      destruct (relax s k dz qvf qvf1 n d2) as [d' [|e|]].
      * destruct IH as [IH1 IH2]. split.
        -- now rewrite Nat.iter_succ_r.
        -- now apply Hpos.
      * destruct IH as (-> & i & Hi & Hall & Hpm & Hbad & Hrho).
        split; [reflexivity|]. exists (S i). repeat split.
        -- lia.
        -- now apply Hpos.
        -- now rewrite Nat.iter_succ_r.
        -- assumption.
        -- now rewrite Nat.iter_succ_r.
      * exact IH.
    + split; [reflexivity|]. exists 0%nat. repeat split.
      * lia.
      * intros j Hj; lia.
      * rewrite Hx. change (x = fst (f c0)). now rewrite Hf.
      * now rewrite Hx.
Qed.

(** *** One level of stage 2 *)

Lemma passes_agree qvf_of s k (d d' : Profile F) i :
  pm d' !!! (k - 1)%nat = pm d !!! (k - 1)%nat ->
  rho d' !!! (k - 1)%nat = rho d !!! (k - 1)%nat ->
  passes qvf_of s k d' i = passes qvf_of s k d i.
Proof. intros Hp Hr. unfold passes. now rewrite Hp, Hr. Qed.

Lemma level_step_spec qvf_of s n N k (d : Profile F) :
  sized N d -> (1 <= k < N)%nat -> pm d !!! k = zero ->
  let r := level_step qvf_of s n k d in
  sized N (fst r) /\ p (fst r) = p d
  /\ (forall j, j <> k ->
        rho (fst r) !!! j = rho d !!! j /\ thm (fst r) !!! j = thm d !!! j
        /\ pm (fst r) !!! j = pm d !!! j)
  /\ match snd r with
     | Returned =>
         settled qvf_of s n (fst r) k /\ all_positive qvf_of s (fst r) k n
     | Raised e =>
         e = AssertionError too_cold /\ thm (fst r) = thm d
         /\ exists i, (i < n)%nat /\ stopped qvf_of s (fst r) k i
     | WentComplex => False
     end.
Proof.
  intros Hd Hk Hz. unfold level_step.
  set (d0 := set_rho k (rho d !!! (k - 1)%nat) d).
  set (dz := z (lev s k) - z (lev s (k - 1)%nat)).
  set (qvf1 := half * (two + (qv (lev s (k - 1)%nat) + qv (lev s k)))).
  set (qvf := qvf_of (qv (lev s k))).
  assert (Hd0 : sized N d0) by now apply sized_set_rho.
  assert (Hlen : (k < length (rho d))%nat).
  { destruct Hd as (-> & _). lia. }
  assert (Hprev : pm d0 !!! (k - 1)%nat = pm d !!! (k - 1)%nat
                  /\ rho d0 !!! (k - 1)%nat = rho d !!! (k - 1)%nat).
  { simpl. split; [reflexivity|]. apply insert_ne. lia. }
  destruct Hprev as [Hp1 Hp2].
  assert (Hc0 : cell d0 k = (zero, rho d !!! (k - 1)%nat)).
  { unfold cell; simpl. rewrite Hz. f_equal. now apply insert_eq. }
  pose proof (relax_frame s k dz qvf qvf1 N n d0 Hd0) as Hfr.
  pose proof (relax_cell s k dz qvf qvf1 N n d0 Hd0 Hk) as Hce.
  cbv zeta in Hfr, Hce. rewrite Hp1, Hp2, Hc0 in Hce.
  destruct (relax s k dz qvf qvf1 n d0) as [d1 o]. simpl in Hfr.
  destruct Hfr as (Hs1 & Ht1 & Hpp1 & Hj1).
  assert (Hsame : forall j, j <> k ->
            rho d1 !!! j = rho d !!! j /\ pm d1 !!! j = pm d !!! j).
  { intros j Hj. destruct (Hj1 j Hj) as [-> ->]. simpl.
    split; [now apply insert_ne | reflexivity]. }
  assert (Hpass : forall (d' : Profile F) i,
            rho d' !!! (k - 1)%nat = rho d !!! (k - 1)%nat ->
            pm d' !!! (k - 1)%nat = pm d !!! (k - 1)%nat ->
            passes qvf_of s k d' i =
            Nat.iter i (pass_with (th (lev s k)) dz qvf qvf1
                          (pm d !!! (k - 1)%nat) (rho d !!! (k - 1)%nat))
              (zero, rho d !!! (k - 1)%nat)).
  { intros d' i Hr Hp. unfold passes, pass. now rewrite Hr, Hp. }
  assert (Hkm : (k - 1)%nat <> k) by lia.
  destruct (Hsame _ Hkm) as [Hr1 Hq1].
  destruct o as [|e|]; simpl; [| |destruct Hce].
  - split; [now apply sized_set_thm|]. split; [assumption|]. split.
    + intros j Hj. destruct (Hsame j Hj) as [-> ->].
      rewrite Ht1. repeat split. now apply insert_ne.
    + destruct Hce as [Hce1 Hce2]. split; [split|].
      * unfold cell in *. simpl. rewrite Hce1. symmetry. now apply Hpass.
      * simpl. apply insert_eq. rewrite Ht1. destruct Hd as (_ & -> & _). lia.
      * intros j Hj. rewrite Hpass; auto.
  - split; [assumption|]. split; [assumption|]. split.
    + intros j Hj. destruct (Hsame j Hj) as [-> ->]. now rewrite Ht1.
    + destruct Hce as (-> & i & Hi & Hall & Hpm & Hbad & Hrho).
      split; [reflexivity|]. split; [assumption|].
      exists i. split; [assumption|]. unfold stopped. repeat split.
      * intros j Hj. rewrite Hpass; auto.
      * rewrite Hpass; auto.
      * assumption.
      * rewrite Hpass; auto.
Qed.

(** *** The outer loop of stage 2 *)

Lemma settled_agree qvf_of s n k (d d' : Profile F) :
  (1 <= k)%nat -> agree_below (S k) d d' ->
  settled qvf_of s n d k /\ all_positive qvf_of s d k n ->
  settled qvf_of s n d' k /\ all_positive qvf_of s d' k n.
Proof.
  intros Hk Ha [[Hc Ht] Hpos].
  destruct (Ha k ltac:(lia)) as (Hr & Hth & Hpm).
  destruct (Ha (k - 1)%nat ltac:(lia)) as (Hr1 & _ & Hpm1).
  assert (Hp : forall i, passes qvf_of s k d' i = passes qvf_of s k d i).
  { intros i. now apply passes_agree. }
  split; [split|].
  - unfold cell in *. now rewrite Hp, Hr, Hpm.
  - now rewrite Hth.
  - intros j Hj. rewrite Hp. now apply Hpos.
Qed.

Lemma column_cons qvf_of s n k ks (d : Profile F) :
  column qvf_of s n (k :: ks) d =
  match level_step qvf_of s n k d with
  | (d, Returned) => column qvf_of s n ks d
  | failed => failed
  end.
Proof. reflexivity. Qed.

Lemma column_spec qvf_of s n N : forall m a (d : Profile F),
  sized N d -> (1 <= a)%nat -> (a + m <= N)%nat -> untouched (pm d) a ->
  let r := column qvf_of s n (seq a m) d in
  sized N (fst r) /\ p (fst r) = p d /\ agree_below a d (fst r)
  /\ match snd r with
     | Returned =>
         (forall k, (a <= k < a + m)%nat ->
            settled qvf_of s n (fst r) k /\ all_positive qvf_of s (fst r) k n)
         /\ (forall j, (a + m <= j)%nat ->
               rho (fst r) !!! j = rho d !!! j /\ thm (fst r) !!! j = thm d !!! j
               /\ pm (fst r) !!! j = pm d !!! j)
     | Raised e =>
         e = AssertionError too_cold
         /\ exists k i, (a <= k < a + m)%nat /\ (i < n)%nat
            /\ (forall j, (a <= j < k)%nat ->
                  settled qvf_of s n (fst r) j /\ all_positive qvf_of s (fst r) j n)
            /\ stopped qvf_of s (fst r) k i
            /\ (forall j, (k <= j)%nat -> thm (fst r) !!! j = thm d !!! j)
            /\ (forall j, (k < j)%nat ->
                  rho (fst r) !!! j = rho d !!! j /\ pm (fst r) !!! j = pm d !!! j)
     | WentComplex => False
     end.
Proof.
  induction m as [|m IH]; intros a d Hd Ha Hm Hu.
  - simpl. split; [assumption|]. split; [reflexivity|]. split.
    + intros j Hj. auto.
    + split; [intros k Hk; lia | auto].
  - cbn [seq]. rewrite column_cons.
    assert (Hz : pm d !!! a = zero).
    { apply Hu. destruct Hd as (_ & _ & -> & _). lia. }
    pose proof (level_step_spec qvf_of s n N a d Hd ltac:(lia) Hz) as Hl.
    cbv zeta in Hl.
    destruct (level_step qvf_of s n a d) as [d1 o]. simpl in Hl.
    destruct Hl as (Hs1 & Hp1 & Hj1 & Ho).
    destruct o as [|e|]; [| |destruct Ho].
    + assert (Hu1 : untouched (pm d1) (S a)).
      { intros j Hj. destruct (Hj1 j ltac:(lia)) as (_ & _ & ->).
        apply Hu. destruct Hs1 as (_ & _ & H1 & _).
        destruct Hd as (_ & _ & H2 & _). lia. }
      specialize (IH (S a) d1 Hs1 ltac:(lia) ltac:(lia) Hu1).
      cbv zeta in IH.
      destruct (column qvf_of s n (seq (S a) m) d1) as [d2 o2]. simpl in *.
      destruct IH as (Hs2 & Hp2 & Ha2 & Ho2).
      split; [assumption|]. split; [congruence|]. split.
      { intros j Hj. destruct (Ha2 j ltac:(lia)) as (-> & -> & ->).
        apply Hj1. lia. }
      destruct o2 as [|e2|]; [| |destruct Ho2].
      * destruct Ho2 as [Hset Hrest]. split.
        -- intros k Hk. destruct (decide (k = a)) as [->|Hne].
           ++ now apply (settled_agree qvf_of s n a d1 d2).
           ++ apply Hset. lia.
        -- intros j Hj. destruct (Hrest j ltac:(lia)) as (-> & -> & ->).
           apply Hj1. lia.
      * destruct Ho2 as (-> & k & i & Hk & Hi & Hset & Hstop & Hthm & Hrest).
        split; [reflexivity|]. exists k, i.
        split; [lia|]. split; [assumption|]. split; [|split; [assumption|split]].
        -- intros j Hj. destruct (decide (j = a)) as [->|Hne].
           ++ now apply (settled_agree qvf_of s n a d1 d2).
           ++ apply Hset. lia.
        -- intros j Hj. rewrite (Hthm j Hj). apply Hj1. lia.
        -- intros j Hj. destruct (Hrest j Hj) as (-> & ->).
           destruct (Hj1 j ltac:(lia)) as (-> & _ & ->). auto.
    + simpl. destruct Ho as (-> & Hth & i & Hi & Hstop).
      split; [assumption|]. split; [assumption|]. split.
      { intros j Hj. apply Hj1. lia. }
      split; [reflexivity|]. exists a, i.
      split; [lia|]. split; [assumption|]. split; [intros j Hj; lia|].
      split; [assumption|]. split.
      * intros j _. now rewrite Hth.
      * intros j Hj. destruct (Hj1 j ltac:(lia)) as (-> & _ & ->). auto.
Qed.

(** *** Stage 1 *)

Lemma relax0_iter qvf_of rho_surf s N n : forall d : Profile F,
  sized N d -> (1 <= N)%nat ->
  let d' := Nat.iter n (relax0 s rho_surf (z (lev s 0))
                          (qvf_of (qv (lev s 0))) (one + qv (lev s 0))) d in
  sized N d' /\ thm d' = thm d /\ p d' = p d
  /\ (forall j, j <> 0%nat ->
        rho d' !!! j = rho d !!! j /\ pm d' !!! j = pm d !!! j)
  /\ cell d' 0 = Nat.iter n (pass0 qvf_of rho_surf s) (cell d 0).
Proof.
  induction n as [|n IH]; intros d Hd HN.
  - simpl. split; [assumption|]. repeat split.
  - specialize (IH d Hd HN). cbv zeta in IH |- *.
    rewrite !Nat.iter_succ.
    set (d1 := Nat.iter n _ d) in *.
    destruct IH as (Hs & Ht & Hp & Hj & Hc).
    assert (Hlen : (0 < length (pm d1))%nat /\ (0 < length (rho d1))%nat).
    { destruct Hs as (-> & _ & -> & _). lia. }
    unfold relax0 at 1 3 4 5 6. simpl.
    split; [now apply sized_set_rho, sized_set_pm|].
    split; [assumption|]. split; [assumption|]. split.
    + intros j Hj0. destruct (Hj j Hj0) as [<- <-].
      split; now apply insert_ne.
    + rewrite <- Hc. unfold cell, pass0. simpl.
      rewrite !insert_eq; rewrite ?length_insert; tauto.
Qed.

Lemma stage1_spec qvf_of rho_surf s N n (d : Profile F) :
  sized N d -> (1 <= N)%nat -> pm d !!! 0 = zero ->
  let d' := stage1 qvf_of rho_surf s n d in
  sized N d' /\ p d' = p d /\ settled0 qvf_of rho_surf s n d'
  /\ forall j, j <> 0%nat ->
       rho d' !!! j = rho d !!! j /\ thm d' !!! j = thm d !!! j
       /\ pm d' !!! j = pm d !!! j.
Proof.
  intros Hd HN Hz. unfold stage1.
  set (d0 := set_rho 0 rho_surf d).
  assert (Hd0 : sized N d0) by now apply sized_set_rho.
  pose proof (relax0_iter qvf_of rho_surf s N n d0 Hd0 HN) as Hit.
  cbv zeta in Hit |- *.
  set (d1 := Nat.iter n _ d0) in *.
  destruct Hit as (Hs & Ht & Hp & Hj & Hc).
  assert (Hc0 : cell d0 0 = (zero, rho_surf)).
  { unfold cell; simpl. rewrite Hz. f_equal. apply insert_eq.
    destruct Hd as (-> & _). lia. }
  rewrite Hc0 in Hc. simpl.
  split; [now apply sized_set_thm|]. split; [assumption|]. split; [split|].
  - exact Hc.
  - simpl. apply insert_eq. rewrite Ht. destruct Hd0 as (_ & -> & _). lia.
  - intros j Hj0. destruct (Hj j Hj0) as [-> ->]. rewrite Ht. simpl.
    split; [now apply insert_ne|]. split; [now apply insert_ne|reflexivity].
Qed.

(** *** Stage 3 *)

Lemma dry_fold s N : forall m (d : Profile F),
  sized N d -> (m < N)%nat ->
  let d' := fold_left (dry_step s) (rev (seq 0 m)) d in
  sized N d' /\ rho d' = rho d /\ thm d' = thm d /\ pm d' = pm d
  /\ (forall j, (m <= j)%nat -> p d' !!! j = p d !!! j)
  /\ forall k, (k < m)%nat ->
       p d' !!! k =
       p d' !!! (k + 1)%nat
       + half * (z (lev s (k + 1)%nat) - z (lev s k))
         * (rho d !!! k + rho d !!! (k + 1)%nat) * g.
Proof.
  induction m as [|m IH]; intros d Hd Hm.
  - simpl. split; [assumption|]. repeat split. intros k Hk; lia.
  - rewrite seq_S, rev_unit. cbn [fold_left Nat.add].
    set (d1 := dry_step s d m).
    assert (Hd1 : sized N d1) by now apply sized_set_p.
    specialize (IH d1 Hd1 ltac:(lia)). cbv zeta in IH |- *.
    set (d2 := fold_left _ _ d1) in *.
    destruct IH as (Hs & Hr & Ht & Hpm & Hge & Hlt).
    split; [assumption|]. split; [now rewrite Hr|]. split; [now rewrite Ht|].
    split; [now rewrite Hpm|]. split.
    + intros j Hj. rewrite Hge by lia. simpl. apply insert_ne. lia.
    + intros k Hk. destruct (decide (k = m)) as [->|Hne].
      * rewrite !Hge by lia. unfold d1, dry_step. simpl.
        rewrite insert_eq by (destruct Hd as (_ & _ & _ & ->); lia).
        rewrite insert_ne by lia. reflexivity.
      * rewrite Hlt by lia. reflexivity.
Qed.

Lemma stage3_spec s N (d : Profile F) :
  sized N d -> (1 <= N)%nat ->
  let d' := stage3 s N d in
  sized N d' /\ rho d' = rho d /\ thm d' = thm d /\ pm d' = pm d
  /\ p d' !!! (N - 1)%nat = pm d !!! (N - 1)%nat
  /\ forall k, (k + 1 < N)%nat ->
       p d' !!! k =
       p d' !!! (k + 1)%nat
       + half * (z (lev s (k + 1)%nat) - z (lev s k))
         * (rho d !!! k + rho d !!! (k + 1)%nat) * g.
Proof.
  intros Hd HN. unfold stage3.
  set (d0 := set_p (N - 1)%nat (pm d !!! (N - 1)%nat) d).
  assert (Hd0 : sized N d0) by now apply sized_set_p.
  pose proof (dry_fold s N (N - 1)%nat d0 Hd0 ltac:(lia)) as Hf.
  cbv zeta in Hf |- *. set (d1 := fold_left _ _ d0) in *.
  destruct Hf as (Hs & Hr & Ht & Hpm & Hge & Hlt).
  split; [assumption|]. repeat split; try assumption.
  - rewrite Hge by lia. simpl. apply insert_eq.
    destruct Hd as (_ & _ & _ & ->). lia.
  - intros k Hk. apply Hlt. lia.
Qed.

(** *** The whole routine *)

Lemma agree_same (d d' : Profile F) k :
  rho d' = rho d -> thm d' = thm d -> pm d' = pm d -> agree_below k d d'.
Proof. intros Hr Ht Hp j _. now rewrite Hr, Ht, Hp. Qed.

Lemma settled0_agree qvf_of rho_surf s n (d d' : Profile F) :
  agree_below 1 d d' ->
  settled0 qvf_of rho_surf s n d -> settled0 qvf_of rho_surf s n d'.
Proof.
  intros Ha [Hc Ht]. destruct (Ha 0%nat ltac:(lia)) as (Hr & Hth & Hpm).
  split; [unfold cell in *; now rewrite Hr, Hpm | now rewrite Hth].
Qed.

Lemma stopped_same qvf_of s k i (d d' : Profile F) :
  rho d' = rho d -> pm d' = pm d ->
  stopped qvf_of s d k i -> stopped qvf_of s d' k i.
Proof.
  unfold stopped, all_positive, passes. intros -> ->. auto.
Qed.

(** The object a call of the shared part leaves, and how the call ends,
    on a table that is not empty. *)
Lemma integrate_spec qvf_of rho_surf (s : InputSounding F) n :
  levels s <> [] ->
  let N := length (levels s) in
  let r := integrate qvf_of rho_surf s n in
  exists d, fst r = with_derived s d /\ sized N d
    /\ settled0 qvf_of rho_surf s n d
    /\ match snd r with
       | Returned =>
           (forall k, (1 <= k < N)%nat ->
              settled qvf_of s n d k /\ all_positive qvf_of s d k n)
           /\ p d !!! (N - 1)%nat = pm d !!! (N - 1)%nat
           /\ forall k, (k + 1 < N)%nat ->
                p d !!! k =
                p d !!! (k + 1)%nat
                + half * (z (lev s (k + 1)%nat) - z (lev s k))
                  * (rho d !!! k + rho d !!! (k + 1)%nat) * g
       | Raised e =>
           e = AssertionError too_cold
           /\ exists k i, (1 <= k < N)%nat /\ (i < n)%nat
              /\ (forall j, (1 <= j < k)%nat ->
                    settled qvf_of s n d j /\ all_positive qvf_of s d j n)
              /\ stopped qvf_of s d k i
              /\ (forall j, (k <= j)%nat -> thm d !!! j = zero)
              /\ (forall j, (k < j)%nat ->
                    rho d !!! j = zero /\ pm d !!! j = zero)
              /\ p d = zeros N
       | WentComplex => False
       end.
Proof.
  intros Hne N r. subst r. unfold integrate. fold N.
  assert (HN : (1 <= N)%nat).
  { subst N. destruct (levels s); [congruence | simpl; lia]. }
  clearbody N.
  destruct (levels s) as [|l0 ls] eqn:Hl; [congruence|].
  set (dz0 := mkProfile (zeros N) (zeros N) (zeros N) (zeros N)).
  pose proof (sized_zeros N) as Hz0. fold dz0 in Hz0.
  pose proof (stage1_spec qvf_of rho_surf s N n dz0 Hz0 HN (zeros_lookup N 0))
    as H1.
  cbv zeta in H1. set (d1 := stage1 qvf_of rho_surf s n dz0) in *.
  destruct H1 as (Hs1 & Hp1 & Hset0 & Hj1). clearbody d1.
  assert (Hu1 : untouched (pm d1) 1).
  { intros j Hj. destruct (Hj1 j ltac:(lia)) as (_ & _ & ->).
    apply zeros_lookup. }
  pose proof (column_spec qvf_of s n N (N - 1)%nat 1 d1 Hs1 ltac:(lia)
                ltac:(lia) Hu1) as H2.
  cbv zeta in H2.
  destruct (column qvf_of s n (seq 1 (N - 1)%nat) d1) as [d2 o]. simpl in H2.
  destruct H2 as (Hs2 & Hp2 & Ha2 & Ho).
  destruct o as [|e|]; simpl; [| |destruct Ho].
  - pose proof (stage3_spec s N d2 Hs2 HN) as H3. cbv zeta in H3.
    set (d3 := stage3 s N d2) in *.
    destruct H3 as (Hs3 & Hr3 & Ht3 & Hpm3 & Htop & Hdown).
    exists d3. split; [reflexivity|]. split; [assumption|]. split.
    { apply (settled0_agree _ _ _ _ d2); [now apply agree_same|].
      now apply (settled0_agree _ _ _ _ d1). }
    destruct Ho as [Hset _]. split; [|split].
    + intros k Hk. apply (settled_agree _ _ _ _ d2); [lia| |].
      * now apply agree_same.
      * apply Hset. lia.
    + now rewrite Hpm3.
    + intros k Hk. rewrite Hr3. now apply Hdown.
  - exists d2. split; [reflexivity|]. split; [assumption|]. split.
    { now apply (settled0_agree _ _ _ _ d1). }
    destruct Ho as (-> & k & i & Hk & Hi & Hset & Hstop & Hthm & Hrest).
    split; [reflexivity|]. exists k, i.
    split; [lia|]. split; [assumption|]. split; [|split; [assumption|split; [|split]]].
    + intros j Hj. apply Hset. lia.
    + intros j Hj. rewrite (Hthm j Hj).
      destruct (Hj1 j ltac:(lia)) as (_ & -> & _). apply zeros_lookup.
    + intros j Hj. destruct (Hrest j Hj) as [-> ->].
      destruct (Hj1 j ltac:(lia)) as (-> & _ & ->).
      split; apply zeros_lookup.
    + now rewrite Hp2, Hp1.
Qed.

End Loops.

(** ** The two routines *)

Section Routines.
Context {F : Type} `{Number F} `{Python F}.
Variables R_d c_p g p0 rvovrd cvpm : F.

Local Open Scope num_scope.

Local Abbreviation integrate := (integrate R_d g p0 cvpm).
Local Abbreviation start := (start R_d g p0 cvpm).
Local Abbreviation integrate_column_wrf := (integrate_column_wrf R_d c_p g p0 rvovrd cvpm).
Local Abbreviation integrate_column := (integrate_column R_d c_p g p0 rvovrd cvpm).
Local Abbreviation integrate_as := (integrate_as R_d c_p g p0 rvovrd cvpm).
Local Abbreviation qvf_for := (qvf_for rvovrd).
Local Abbreviation surface_for := (surface_for R_d c_p p0 rvovrd cvpm).
Local Abbreviation surface_divisor := (surface_divisor R_d p0 cvpm).
Local Abbreviation pi_surf := (pi_surf R_d c_p p0).
Local Abbreviation surface_wrf := (surface_wrf R_d c_p p0 cvpm).
Local Abbreviation surface_vpt := (surface_vpt R_d c_p p0 cvpm).
Local Abbreviation course := (course R_d c_p g p0 rvovrd cvpm).
Local Abbreviation settled0 := (settled0 R_d g p0 cvpm).
Local Abbreviation settled := (settled R_d g p0 cvpm).
Local Abbreviation all_positive := (all_positive R_d g p0 cvpm).
Local Abbreviation stopped := (stopped R_d g p0 cvpm).
Local Abbreviation passes := (passes R_d g p0 cvpm).

(** On a table that is not empty both routines are their first lines and
    then the shared part, at their factor. *)
Lemma integrate_as_start f (s : InputSounding F) Niter :
  levels s <> [] ->
  integrate_as f s Niter =
  start (qvf_for f) (surface_for f s) s (Z.to_nat Niter).
Proof.
  intros Hne. destruct f; simpl; [|reflexivity].
  unfold integrate_column_wrf, lev.
  destruct (levels s) as [|l0 ls] eqn:Hl; [congruence|reflexivity].
Qed.

Lemma integrate_as_shared f (s : InputSounding F) Niter rho_surf :
  levels s <> [] -> surface_for f s = PyFloat rho_surf ->
  integrate_as f s Niter = integrate (qvf_for f) rho_surf s (Z.to_nat Niter).
Proof.
  intros Hne Hs. rewrite (integrate_as_start f s Niter Hne), Hs. reflexivity.
Qed.

(** On an empty one [integrate_column_wrf] raises [IndexError] before it
    has assigned anything; [integrate_column] first runs lines 108-110,
    and raises [IndexError] with the four arrays assigned, and empty, if
    those lines have not raised. *)
Lemma integrate_as_empty f (s : InputSounding F) Niter :
  levels s = [] ->
  integrate_as f s Niter =
  match f with
  | LEGACY => (s, Raised IndexError)
  | VIRTUAL_POTENTIAL_TEMPERATURE =>
      match surface_for VIRTUAL_POTENTIAL_TEMPERATURE s with
      | PyFloat _ => (with_derived s (mkProfile [] [] [] []), Raised IndexError)
      | PyRaise e => (s, Raised (ArithmeticError e))
      | PyComplex => (s, WentComplex)
      end
  end.
Proof.
  intros He. destruct f; simpl.
  - unfold integrate_column_wrf. now rewrite He.
  - unfold integrate_column, start.
    destruct (surface_vpt s _) as [r|e|]; [|reflexivity|reflexivity].
    unfold integrate. now rewrite He.
Qed.

Lemma call_course f (s : InputSounding F) Niter :
  course f s (Z.to_nat Niter) (integrate_as f s Niter).
Proof.
  destruct (levels s) as [|l0 ls] eqn:Hl.
  - rewrite (integrate_as_empty f s Niter Hl). destruct f.
    + now apply no_level_0.
    + destruct (surface_for VIRTUAL_POTENTIAL_TEMPERATURE s) as [r|e|] eqn:Hs.
      * now apply (empty_arrays _ _ _ _ _ _ _ _ _ r).
      * apply surface_raises; [discriminate|exact Hs].
      * apply surface_complex; [discriminate|exact Hs].
  - assert (Hne : levels s <> []) by congruence.
    rewrite (integrate_as_start f s Niter Hne).
    destruct (surface_for f s) as [r|e|] eqn:Hs; simpl.
    + now apply shared_part.
    + apply surface_raises; [intros _; exact Hne|exact Hs].
    + apply surface_complex; [intros _; exact Hne|exact Hs].
Qed.

(** A call that returns or fails the assertion has found a level 0 and a
    surface density. *)
Lemma passed_surface f (s : InputSounding F) Niter :
  snd (integrate_as f s Niter) = Returned
  \/ (exists msg, snd (integrate_as f s Niter) = Raised (AssertionError msg)) ->
  levels s <> [] /\ exists rho_surf, surface_for f s = PyFloat rho_surf.
Proof.
  intros Hend.
  destruct (call_course f s Niter) as [| | | |rho_surf Hne Hs]; simpl in Hend;
    try (exfalso; destruct Hend as [Hend|[msg Hend]]; discriminate).
  split; [exact Hne|]. now exists rho_surf.
Qed.

(** What a call leaves in the object and how it ends, when the table is
    not empty and lines 45-47 or 108-110 gave a surface density. *)
Lemma run_spec f (s : InputSounding F) Niter rho_surf :
  levels s <> [] -> surface_for f s = PyFloat rho_surf ->
  let N := length (levels s) in
  let n := Z.to_nat Niter in
  let r := integrate_as f s Niter in
  let d := profile_of r in
  derived (fst r) = Some d /\ sized N d
  /\ settled0 (qvf_for f) rho_surf s n d
  /\ match snd r with
     | Returned =>
         (forall k, (1 <= k < N)%nat ->
            settled (qvf_for f) s n d k /\ all_positive (qvf_for f) s d k n)
         /\ p d !!! (N - 1)%nat = pm d !!! (N - 1)%nat
         /\ forall k, (k + 1 < N)%nat ->
              p d !!! k =
              p d !!! (k + 1)%nat
              + half * (z (lev s (k + 1)%nat) - z (lev s k))
                * (rho d !!! k + rho d !!! (k + 1)%nat) * g
     | Raised e =>
         e = AssertionError too_cold
         /\ exists k i, (1 <= k < N)%nat /\ (i < n)%nat
            /\ (forall j, (1 <= j < k)%nat ->
                  settled (qvf_for f) s n d j
                  /\ all_positive (qvf_for f) s d j n)
            /\ stopped (qvf_for f) s d k i
            /\ (forall j, (k <= j)%nat -> thm d !!! j = zero)
            /\ (forall j, (k < j)%nat -> rho d !!! j = zero /\ pm d !!! j = zero)
            /\ p d = zeros N
     | WentComplex => False
     end.
Proof.
  intros Hne Hs N n r d. subst d r.
  rewrite (integrate_as_shared f s Niter rho_surf Hne Hs). fold n.
  destruct (integrate_spec R_d g p0 cvpm (qvf_for f) rho_surf s n Hne)
    as (d & Hfst & Hrest).
  unfold profile_of. rewrite Hfst. simpl. split; [reflexivity|]. exact Hrest.
Qed.

(** *** The repetitions of stage 2 *)

(** C1, as amended.  For every input with [N >= 2] levels and either
    formulation on which the call returns, stage 2 has left at each level
    [k] from 1 to [N-1]: in [(pm[k], rho[k])] the result of exactly [Niter]
    repetitions of [pm[k] = pm[k-1] - 0.5*dz*(rho[k]+rho[k-1])*g*qvf1]
    followed by [rho[k] = 1/((R_d/p0)*th[k]*qvf*(pm[k]/p0)^cvpm)], started
    from [rho[k] = rho[k-1]], with [dz = z[k]-z[k-1]],
    [qvf1 = 0.5*(2 + qv[k-1] + qv[k])], [qvf] of the formulation at
    [qv[k]] and the final values of level [k-1]; and in [thm[k]] the
    product [th[k]*qvf].  No test of convergence shortens the loop. *)
Theorem stage2_repetitions f (s : InputSounding F) Niter :
  snd (integrate_as f s Niter) = Returned ->
  forall k, (1 <= k < length (levels s))%nat ->
    let d := profile_of (integrate_as f s Niter) in
    cell d k =
      Nat.iter (Z.to_nat Niter)
        (pass R_d g p0 cvpm (qvf_for f) s k
           (pm d !!! (k - 1)%nat) (rho d !!! (k - 1)%nat))
        (zero, rho d !!! (k - 1)%nat)
    /\ thm d !!! k = th (lev s k) * qvf_for f (qv (lev s k)).
Proof.
  intros Hret k Hk.
  destruct (passed_surface f s Niter (or_introl Hret)) as (Hne & rho_surf & Hs).
  destruct (run_spec f s Niter rho_surf Hne Hs) as (_ & _ & _ & Ho).
  rewrite Hret in Ho. destruct Ho as (Hset & _).
  destruct (Hset k Hk) as [[Hc Ht] _]. split; assumption.
Qed.

(** *** The assertion of stage 2 *)


(** *** The dry pressure of stage 3 *)

(** C5.  For every input on which the call returns, either formulation:
    [p[N-1]] is [pm[N-1]], and for each [k] below, [p[k]] is
    [p[k+1] + 0.5*(z[k+1]-z[k])*(rho[k]+rho[k+1])*g] on the final densities
    of stage 2. *)
Theorem dry_pressure f (s : InputSounding F) Niter :
  snd (integrate_as f s Niter) = Returned ->
  let N := length (levels s) in
  let d := profile_of (integrate_as f s Niter) in
  p d !!! (N - 1)%nat = pm d !!! (N - 1)%nat
  /\ forall k, (k + 1 < N)%nat ->
       p d !!! k =
       p d !!! (k + 1)%nat
       + half * (z (lev s (k + 1)%nat) - z (lev s k))
         * (rho d !!! k + rho d !!! (k + 1)%nat) * g.
Proof.
  intros Hret N d. subst d.
  destruct (passed_surface f s Niter (or_introl Hret)) as (Hne & rho_surf & Hs).
  destruct (run_spec f s Niter rho_surf Hne Hs) as (_ & _ & _ & Ho).
  rewrite Hret in Ho. fold N in Ho. destruct Ho as (_ & Htop & Hdown).
  split; assumption.
Qed.

(** *** Level 0 is not checked *)

(** C9.  Stage 1 tests nothing.  On a table that is not empty, from the
    surface density that lines 45-47 or 108-110 gave: [(pm[0], rho[0])]
    are the [Niter] repetitions of the level-0 step whatever their signs,
    the equation of state applied to each [pm[0]] as it comes; a table of
    one level returns; and stage 2 starts on level 1 whatever [pm[0]] is:
    either the call returns, and every level from 1 on holds its [Niter]
    repetitions from the level below, or it has stopped at a level
    [k >= 1], on the value that repetition [i+1] of that level computed
    from the level below ([pm[0]] for [k = 1]) and left in [pm[k]], which
    fails [pm[k] > 0], the levels from 1 to [k-1] being complete. *)
Theorem stage1_unchecked f (s : InputSounding F) Niter rho_surf :
  levels s <> [] -> surface_for f s = PyFloat rho_surf ->
  let N := length (levels s) in
  let n := Z.to_nat Niter in
  let r := integrate_as f s Niter in
  let d := profile_of r in
  cell d 0 =
    Nat.iter n (pass0 R_d g p0 cvpm (qvf_for f) rho_surf s) (zero, rho_surf)
  /\ (N = 1%nat -> snd r = Returned)
  /\ match snd r with
     | Returned =>
         forall k, (1 <= k < N)%nat -> cell d k = passes (qvf_for f) s k d n
     | _ =>
         exists k i, (1 <= k < N)%nat /\ (i < n)%nat
           /\ (forall j, (1 <= j < k)%nat ->
                 cell d j = passes (qvf_for f) s j d n)
           /\ pm d !!! k = fst (passes (qvf_for f) s k d (S i))
           /\ gt (pm d !!! k) zero = false
     end.
Proof.
  intros Hne Hs N n r d. subst d r.
  destruct (run_spec f s Niter rho_surf Hne Hs) as (_ & _ & [Hc _] & Ho).
  fold N n in Ho. split; [exact Hc|].
  destruct (snd (integrate_as f s Niter)) as [|e|]; [| |destruct Ho].
  - split; [reflexivity|]. destruct Ho as (Hset & _).
    intros k Hk. apply (Hset k Hk).
  - destruct Ho as (_ & k & i & Hk & Hi & Hset & Hstop & _). split.
    + intros H1. lia.
    + exists k, i. split; [assumption|]. split; [assumption|]. split.
      * intros j Hj. apply (Hset j Hj).
      * split; apply Hstop.
Qed.

(** *** What a failed call leaves *)


(** *** The shape of the input *)

(** Lines 45-47 and 108-110 read the surface record and [qv[0]], nothing
    else of the table. *)
Lemma surface_for_reads f (s s' : InputSounding F) :
  p_surf s' = p_surf s -> th_surf s' = th_surf s -> qv_surf s' = qv_surf s ->
  qv (lev s' 0) = qv (lev s 0) ->
  surface_for f s' = surface_for f s.
Proof.
  intros Hp Ht Hq Hq0. destruct f; simpl.
  - unfold surface_wrf, surface_divisor, pi_surf. now rewrite Hp, Ht, Hq0.
  - unfold surface_vpt, surface_divisor, pi_surf. now rewrite Hp, Ht, Hq.
Qed.

(** C6, as amended.  Nothing checks the input before the integration.  An
    empty table makes [integrate_column_wrf] raise [IndexError] at its
    first line, with nothing assigned; [integrate_column] runs lines
    108-110 first, raises their arithmetic error if they have one, and
    raises [IndexError] at its first read of level 0 otherwise, the four
    arrays assigned and empty.  On a table that is not empty, whatever
    its heights, the lines before the loops end as the surface record and
    [qv[0]] alone decide, and a call that has its surface density
    returns or fails the assertion of stage 2: no error of the input's
    shape is raised. *)
Theorem no_shape_check f (s : InputSounding F) Niter :
  match levels s, f with
  | [], LEGACY => integrate_as f s Niter = (s, Raised IndexError)
  | [], VIRTUAL_POTENTIAL_TEMPERATURE =>
      match surface_for f s with
      | PyFloat _ =>
          integrate_as f s Niter
          = (with_derived s (mkProfile [] [] [] []), Raised IndexError)
      | PyRaise e => integrate_as f s Niter = (s, Raised (ArithmeticError e))
      | PyComplex => snd (integrate_as f s Niter) = WentComplex
      end
  | _ :: _, _ =>
      match surface_for f s with
      | PyFloat _ =>
          snd (integrate_as f s Niter) = Returned
          \/ snd (integrate_as f s Niter) = Raised (AssertionError too_cold)
      | PyRaise e => integrate_as f s Niter = (s, Raised (ArithmeticError e))
      | PyComplex => snd (integrate_as f s Niter) = WentComplex
      end
  end
  /\ forall s' : InputSounding F,
       p_surf s' = p_surf s -> th_surf s' = th_surf s ->
       qv_surf s' = qv_surf s -> qv (lev s' 0) = qv (lev s 0) ->
       surface_for f s' = surface_for f s.
Proof.
  split; [|intros s'; apply surface_for_reads].
  destruct (levels s) as [|l0 ls] eqn:Hl.
  - rewrite (integrate_as_empty f s Niter Hl). destruct f; [reflexivity|].
    destruct (surface_for VIRTUAL_POTENTIAL_TEMPERATURE s); reflexivity.
  - assert (Hne : levels s <> []) by congruence.
    destruct (surface_for f s) as [r|e|] eqn:Hs.
    + destruct (run_spec f s Niter r Hne Hs) as (_ & _ & _ & Ho).
      destruct (snd (integrate_as f s Niter)) as [|e|];
        [now left| |destruct Ho].
      right. now destruct Ho as (-> & _).
    + rewrite (integrate_as_start f s Niter Hne), Hs. reflexivity.
    + rewrite (integrate_as_start f s Niter Hne), Hs. reflexivity.
Qed.

(** *** What a call reads *)

(** The loops read the surface pressure and the table, and nothing else
    of the object. *)
Lemma lev_reads (s s' : InputSounding F) k :
  levels s' = levels s -> lev s' k = lev s k.
Proof. unfold lev. now intros ->. Qed.

Lemma relax_reads (s s' : InputSounding F) k dz qvf qvf1 n :
  levels s' = levels s ->
  forall d, relax R_d g p0 cvpm s' k dz qvf qvf1 n d
            = relax R_d g p0 cvpm s k dz qvf qvf1 n d.
Proof.
  intros Hl. induction n as [|n IH]; intros d; [reflexivity|].
  rewrite !relax_S. cbv zeta. rewrite (lev_reads s s' k Hl).
  destruct (gt _ zero); [apply IH | reflexivity].
Qed.

Lemma column_reads qvf_of (s s' : InputSounding F) n ks :
  levels s' = levels s ->
  forall d, column R_d g p0 cvpm qvf_of s' n ks d
            = column R_d g p0 cvpm qvf_of s n ks d.
Proof.
  intros Hl. induction ks as [|k ks IH]; intros d; [reflexivity|].
  rewrite !column_cons. unfold level_step.
  rewrite !(lev_reads s s' _ Hl), (relax_reads s s' _ _ _ _ _ Hl).
  destruct (relax _ _ _ _ _ _ _ _ _ _ _) as [d1 [|e|]];
    [apply IH | reflexivity | reflexivity].
Qed.

Lemma stage1_reads qvf_of rho_surf (s s' : InputSounding F) n d :
  p_surf s' = p_surf s -> levels s' = levels s ->
  stage1 R_d g p0 cvpm qvf_of rho_surf s' n d
  = stage1 R_d g p0 cvpm qvf_of rho_surf s n d.
Proof.
  intros Hp Hl. unfold stage1. rewrite !(lev_reads s s' _ Hl). f_equal.
  generalize (set_rho 0 rho_surf d). intros d0.
  induction n as [|n IH]; [reflexivity|].
  rewrite !Nat.iter_succ, IH. unfold relax0.
  now rewrite Hp, (lev_reads s s' _ Hl).
Qed.

Lemma stage3_reads (s s' : InputSounding F) N d :
  levels s' = levels s -> stage3 g s' N d = stage3 g s N d.
Proof.
  intros Hl. unfold stage3.
  generalize (set_p (N - 1)%nat (pm d !!! (N - 1)%nat) d).
  induction (rev (seq 0 (N - 1)%nat)) as [|k ks IH]; intros d0; [reflexivity|].
  simpl. rewrite IH. unfold dry_step. now rewrite !(lev_reads s s' _ Hl).
Qed.

Lemma integrate_reads qvf_of rho_surf (s s' : InputSounding F) n :
  p_surf s' = p_surf s -> levels s' = levels s ->
  snd (integrate qvf_of rho_surf s' n) = snd (integrate qvf_of rho_surf s n)
  /\ derived (fst (integrate qvf_of rho_surf s' n))
     = derived (fst (integrate qvf_of rho_surf s n)).
Proof.
  intros Hp Hl. unfold integrate.
  rewrite Hl, (stage1_reads _ _ s s' _ _ Hp Hl), (column_reads _ s s' _ _ Hl).
  pose proof (stage3_reads s s') as H3.
  destruct (levels s) as [|l0 ls]; [split; reflexivity|].
  destruct (column _ _ _ _ _ _ _ _ _) as [d [|e|]]; simpl;
    [|split; reflexivity|split; reflexivity].
  rewrite (H3 _ _ Hl). split; reflexivity.
Qed.

Lemma integrate_shape qvf_of rho_surf (s : InputSounding F) n :
  exists d, fst (integrate qvf_of rho_surf s n) = with_derived s d.
Proof.
  unfold integrate. destruct (levels s); [eexists; reflexivity|].
  destruct (column _ _ _ _ _ _ _ _ _) as [d [|e|]]; eexists; reflexivity.
Qed.

(** Calling the shared part on the object a first call left gives that
    object again, and the same ending. *)
Lemma integrate_twice qvf_of rho_surf (s : InputSounding F) n :
  integrate qvf_of rho_surf (fst (integrate qvf_of rho_surf s n)) n
  = integrate qvf_of rho_surf s n.
Proof.
  destruct (integrate_shape qvf_of rho_surf s n) as [d Hd].
  destruct (integrate_shape qvf_of rho_surf (with_derived s d) n) as [d' Hd'].
  destruct (integrate_reads qvf_of rho_surf s (with_derived s d) n
              eq_refl eq_refl) as [Hsnd Hder].
  rewrite Hd. rewrite Hd', Hd in Hder. simpl in Hder.
  destruct (integrate qvf_of rho_surf (with_derived s d) n) as [s1 o1].
  destruct (integrate qvf_of rho_surf s n) as [s2 o2].
  simpl in *. subst. now inversion Hder.
Qed.

(** The first lines, then the shared part, on an object that differs in
    what the call does not read. *)
Lemma start_reads qvf_of surface (s s' : InputSounding F) n :
  p_surf s' = p_surf s -> levels s' = levels s ->
  snd (start qvf_of surface s' n) = snd (start qvf_of surface s n)
  /\ match surface with
     | PyFloat _ =>
         derived (fst (start qvf_of surface s' n))
         = derived (fst (start qvf_of surface s n))
     | _ => fst (start qvf_of surface s' n) = s'
     end.
Proof.
  intros Hp Hl. destruct surface as [r|e|]; simpl.
  - now apply integrate_reads.
  - split; reflexivity.
  - split; reflexivity.
Qed.

(** *** Purity *)

(** C8, as amended.  A call is a function of the surface record, the
    table and [Niter]: calling again on the object a call left gives the
    same object and the same ending, bit for bit; and whatever arrays an
    earlier call left in the object ([o]), the ending is the same.  A
    call that returns or fails the assertion has allocated its arrays
    anew, and they are the same whatever [o] was; so has
    [integrate_column] when it raises [IndexError].  A call that raises
    before line 53 or 116, [integrate_column_wrf] with [IndexError] and
    either routine with an arithmetic error of lines 46-47 or 109-110,
    allocates nothing, and the object keeps the arrays [o] of the earlier
    call. *)
Theorem pure_function f (s : InputSounding F) o Niter :
  let r := integrate_as f s Niter in
  let r' := integrate_as f (with_old s o) Niter in
  integrate_as f (fst r) Niter = r
  /\ snd r' = snd r
  /\ match snd r with
     | Returned | Raised (AssertionError _) =>
         derived (fst r') = derived (fst r)
     | Raised IndexError =>
         match f with
         | LEGACY => derived (fst r') = o
         | VIRTUAL_POTENTIAL_TEMPERATURE => derived (fst r') = derived (fst r)
         end
     | Raised (ArithmeticError _) => derived (fst r') = o
     | WentComplex => True
     end.
Proof.
  intros r r'. subst r r'.
  assert (Hso : surface_for f (with_old s o) = surface_for f s)
    by (destruct f; reflexivity).
  destruct (levels s) as [|l0 ls] eqn:Hl.
  - assert (Hlo : levels (with_old s o) = []) by exact Hl.
    rewrite (integrate_as_empty f (with_old s o) Niter Hlo).
    rewrite (integrate_as_empty f s Niter Hl).
    destruct f.
    + split; [exact (integrate_as_empty LEGACY s Niter Hl)|].
      split; reflexivity.
    + rewrite Hso.
      destruct (surface_for VIRTUAL_POTENTIAL_TEMPERATURE s) as [rs|e|] eqn:Hs;
        cbn [fst snd].
      * split; [|split; reflexivity].
        rewrite (integrate_as_empty VIRTUAL_POTENTIAL_TEMPERATURE
                   (with_derived s (mkProfile [] [] [] [])) Niter Hl).
        change (surface_for VIRTUAL_POTENTIAL_TEMPERATURE
                  (with_derived s (mkProfile [] [] [] [])))
          with (surface_for VIRTUAL_POTENTIAL_TEMPERATURE s).
        rewrite Hs. reflexivity.
      * split; [|split; reflexivity].
        rewrite (integrate_as_empty VIRTUAL_POTENTIAL_TEMPERATURE s Niter Hl).
        rewrite Hs. reflexivity.
      * split; [|split; [reflexivity|exact I]].
        rewrite (integrate_as_empty VIRTUAL_POTENTIAL_TEMPERATURE s Niter Hl).
        rewrite Hs. reflexivity.
  - assert (Hne : levels s <> []) by congruence.
    assert (Hneo : levels (with_old s o) <> []) by exact Hne.
    rewrite (integrate_as_start f (with_old s o) Niter Hneo), Hso.
    rewrite (integrate_as_start f s Niter Hne).
    destruct (surface_for f s) as [rs|e|] eqn:Hs; unfold start; cbn [fst snd].
    + destruct (integrate_reads (qvf_for f) rs s (with_old s o)
                  (Z.to_nat Niter) eq_refl eq_refl) as [Hsnd Hder].
      destruct (integrate_shape (qvf_for f) rs s (Z.to_nat Niter)) as [d Hd].
      split; [|split; [exact Hsnd|]].
      * assert (Hne' : levels (fst (integrate (qvf_for f) rs s (Z.to_nat Niter)))
                       <> []) by (rewrite Hd; exact Hne).
        rewrite (integrate_as_start f _ Niter Hne').
        rewrite Hd at 1.
        change (surface_for f (with_derived s d)) with (surface_for f s).
        rewrite Hs. apply integrate_twice.
      * destruct (integrate_spec R_d g p0 cvpm (qvf_for f) rs s (Z.to_nat Niter) Hne)
          as (d' & _ & _ & _ & Ho).
        destruct (snd (integrate (qvf_for f) rs s (Z.to_nat Niter))) as [|e|];
          [exact Hder| |exact I].
        destruct Ho as (He & _). rewrite He. exact Hder.
    + split; [|split; reflexivity].
      rewrite (integrate_as_start f s Niter Hne), Hs. reflexivity.
    + split; [|split; [reflexivity|exact I]].
      rewrite (integrate_as_start f s Niter Hne), Hs. reflexivity.
Qed.

(** *** The surface moisture *)

(** C3, as amended.  Both routines take the factor of stage 1 from
    [qv[0]], so that a call that gets through stage 1 leaves
    [thm[0] = th[0]*qvf(qv[0])].  [integrate_column_wrf] reads [qv_surf]
    nowhere: its ending and its arrays are the same whatever [qv_surf]
    is.  [integrate_column] reads it once, for the factor
    [1 + (rvovrd-1)*qv_surf] of the surface density of line 109, and is
    otherwise its first lines and the shared part. *)
Theorem qv_surf_use (s : InputSounding F) q Niter :
  let n := Z.to_nat Niter in
  (forall f,
     snd (integrate_as f s Niter) = Returned
     \/ (exists msg, snd (integrate_as f s Niter) = Raised (AssertionError msg)) ->
     thm (profile_of (integrate_as f s Niter)) !!! 0
     = th (lev s 0) * qvf_for f (qv (lev s 0)))
  /\ snd (integrate_column_wrf (with_qv_surf s q) Niter)
     = snd (integrate_column_wrf s Niter)
  /\ derived (fst (integrate_column_wrf (with_qv_surf s q) Niter))
     = derived (fst (integrate_column_wrf s Niter))
  /\ snd (integrate_column (with_qv_surf s q) Niter)
     = snd (start (qvf_vpt rvovrd) (surface_vpt s (qvf_vpt rvovrd q)) s n)
  /\ derived (fst (integrate_column (with_qv_surf s q) Niter))
     = derived (fst (start (qvf_vpt rvovrd)
                       (surface_vpt s (qvf_vpt rvovrd q)) s n)).
Proof.
  intros n. split; [|split; [|split]].
  - intros f Hend.
    destruct (passed_surface f s Niter Hend) as (Hne & rho_surf & Hs).
    destruct (run_spec f s Niter rho_surf Hne Hs) as (_ & _ & [_ Ht] & _).
    exact Ht.
  - unfold integrate_column_wrf. cbn [with_qv_surf levels].
    destruct (levels s) as [|l0 ls] eqn:Hl; [reflexivity|].
    change (surface_wrf (with_qv_surf s q) (qvf_wrf rvovrd (qv l0)))
      with (surface_wrf s (qvf_wrf rvovrd (qv l0))).
    destruct (surface_wrf s (qvf_wrf rvovrd (qv l0))) as [r|e|]; simpl;
      [|reflexivity|reflexivity].
    apply integrate_reads; reflexivity.
  - unfold integrate_column_wrf. cbn [with_qv_surf levels].
    destruct (levels s) as [|l0 ls] eqn:Hl; [reflexivity|].
    change (surface_wrf (with_qv_surf s q) (qvf_wrf rvovrd (qv l0)))
      with (surface_wrf s (qvf_wrf rvovrd (qv l0))).
    destruct (surface_wrf s (qvf_wrf rvovrd (qv l0))) as [r|e|]; simpl;
      [|reflexivity|reflexivity].
    apply integrate_reads; reflexivity.
  - unfold integrate_column.
    change (surface_vpt (with_qv_surf s q)
              (qvf_vpt rvovrd (qv_surf (with_qv_surf s q))))
      with (surface_vpt s (qvf_vpt rvovrd q)).
    destruct (surface_vpt s (qvf_vpt rvovrd q)) as [r|e|]; simpl;
      [|split; reflexivity|split; reflexivity].
    split; apply integrate_reads; reflexivity.
Qed.

(** *** The two formulations *)




End Routines.

(** ** Rounding in binary64: the order it keeps *)

Section Rounding.
Local Open Scope Z_scope.

Local Abbreviation D m := (Zpos (digits2_pos m)).
Local Abbreviation fexp := (SpecFloat.fexp prec emax).

Lemma digits2_pos_spec (m : positive) : 2 ^ (D m - 1) <= Zpos m < 2 ^ D m.
Proof.
  induction m as [m IH|m IH|]; cbn [digits2_pos].
  - rewrite Pos2Z.inj_succ, Z.pow_succ_r by lia.
    replace (Z.succ (D m) - 1) with (Z.succ (D m - 1)) by lia.
    rewrite Z.pow_succ_r by lia. lia.
  - rewrite Pos2Z.inj_succ, Z.pow_succ_r by lia.
    replace (Z.succ (D m) - 1) with (Z.succ (D m - 1)) by lia.
    rewrite Z.pow_succ_r by lia. lia.
  - simpl. lia.
Qed.

Lemma digits_le (m m' : positive) (k : Z) :
  0 <= k -> Zpos m <= Zpos m' * 2 ^ k -> D m <= D m' + k.
Proof.
  intros Hk Hm.
  pose proof (digits2_pos_spec m) as [Hlo _].
  pose proof (digits2_pos_spec m') as [_ Hhi].
  assert (Hlt : 2 ^ (D m - 1) < 2 ^ (D m' + k)).
  { rewrite Z.pow_add_r by lia.
    assert (0 < 2 ^ k) by (apply Z.pow_pos_nonneg; lia). nia. }
  apply Z.pow_lt_mono_r_iff in Hlt; lia.
Qed.

Lemma fexp_mono (x y : Z) : x <= y -> fexp x <= fexp y.
Proof. unfold SpecFloat.fexp. lia. Qed.

Lemma fexp_emin (x : Z) : -1074 <= fexp x.
Proof. unfold SpecFloat.fexp, SpecFloat.emin, prec, emax. lia. Qed.

Lemma fexp_cases (x : Z) :
  (fexp x = x - 53 /\ -1074 <= x - 53) \/ (fexp x = -1074 /\ x - 53 <= -1074).
Proof. unfold SpecFloat.fexp, SpecFloat.emin, prec, emax. lia. Qed.

(** *** Shifting to the right *)

Lemma halved_1 (x : shr_record) : halved 1 x (shr_1 x).
Proof.
  destruct x as [m r s]. unfold halved. cbn [shr_m shr_r shr_s]. intros Hm.
  change (2 ^ 1) with 2.
  destruct m as [|[m|m|]|m]; cbn [shr_1 shr_m shr_r shr_s]; try lia.
  - split; [lia|]. split; [reflexivity|]. intros -> ->. now split.
  - rewrite Pos2Z.inj_xI. split; [lia|]. split.
    + apply Z.div_unique with (r := 1); lia.
    + intros _ _ Hmod. exfalso.
      rewrite (Z.mul_comm 2), Z.add_comm, Z.mod_add in Hmod by lia.
      discriminate.
  - rewrite Pos2Z.inj_xO. split; [lia|]. split.
    + apply Z.div_unique with (r := 0); lia.
    + intros -> ->. now split.
  - split; [lia|]. split; [reflexivity|].
    intros _ _ Hmod. discriminate.
Qed.

Lemma halved_trans (j k : Z) (x y z : shr_record) :
  0 <= j -> 0 <= k -> halved j x y -> halved k y z -> halved (j + k) x z.
Proof.
  intros Hj Hk Hxy Hyz. unfold halved in *. intros Hx.
  destruct (Hxy Hx) as (Hy & Hym & Hyf).
  destruct (Hyz Hy) as (Hz & Hzm & Hzf).
  assert (Hpj : 0 < 2 ^ j) by (apply Z.pow_pos_nonneg; lia).
  assert (Hpk : 0 < 2 ^ k) by (apply Z.pow_pos_nonneg; lia).
  split; [exact Hz|]. split.
  - rewrite Hzm, Hym, Z.pow_add_r by lia. apply Z.div_div; lia.
  - intros Hr Hs Hmod. rewrite Z.pow_add_r in Hmod by lia.
    assert (Hmj : shr_m x mod 2 ^ j = 0).
    { apply Z.mod_divide; [lia|]. apply Z.mod_divide in Hmod; [|nia].
      destruct Hmod as [c Hc]. exists (c * 2 ^ k). lia. }
    destruct (Hyf Hr Hs Hmj) as [Hyr Hys].
    apply Hzf; [exact Hyr|exact Hys|].
    rewrite Hym. apply Z.mod_divide; [lia|].
    apply Z.mod_divide in Hmod; [|nia]. destruct Hmod as [c Hc].
    exists c. rewrite Hc.
    replace (c * (2 ^ j * 2 ^ k)) with (c * 2 ^ k * 2 ^ j) by lia.
    now rewrite Z.div_mul by lia.
Qed.

Lemma halved_iter (n : positive) : forall x, halved (Zpos n) x (SpecFloat.iter_pos shr_1 n x).
Proof.
  induction n as [n IH|n IH|]; intros x; cbn [SpecFloat.iter_pos].
  - rewrite Pos2Z.inj_xI.
    replace (2 * Zpos n + 1) with (1 + (Zpos n + Zpos n)) by lia.
    apply (halved_trans _ _ _ (shr_1 x)); [lia|lia|apply halved_1|].
    apply (halved_trans _ _ _ (SpecFloat.iter_pos shr_1 n (shr_1 x))); try lia; apply IH.
  - rewrite Pos2Z.inj_xO.
    replace (2 * Zpos n) with (Zpos n + Zpos n) by lia.
    apply (halved_trans _ _ _ (SpecFloat.iter_pos shr_1 n x)); try lia; apply IH.
  - apply halved_1.
Qed.

Lemma pow2_pos (k : Z) : 0 <= k -> 0 < 2 ^ k.
Proof. intros. apply Z.pow_pos_nonneg; lia. Qed.

Lemma digits_ge (m m' : positive) (k : Z) :
  0 <= k -> Zpos m' * 2 ^ k <= Zpos m -> D m' + k <= D m.
Proof.
  intros Hk Hm.
  pose proof (digits2_pos_spec m) as [_ Hhi].
  pose proof (digits2_pos_spec m') as [Hlo _].
  assert (Hlt : 2 ^ (D m' - 1 + k) < 2 ^ D m).
  { rewrite Z.pow_add_r by lia. pose proof (pow2_pos k Hk). nia. }
  apply Z.pow_lt_mono_r_iff in Hlt; lia.
Qed.

(** [shr_fexp] on an exact number: the mantissa is divided, and nothing is
    left over when the division is exact. *)
Lemma shr_fexp_exact (m e : Z) :
  0 <= m ->
  let E := Z.max e (fexp (Zdigits2 m + e)) in
  exists y, shr_fexp prec emax m e loc_Exact = (y, E)
    /\ 0 <= shr_m y /\ shr_m y = m / 2 ^ (E - e)
    /\ (m mod 2 ^ (E - e) = 0 -> shr_r y = false /\ shr_s y = false).
Proof.
  intros Hm E. unfold shr_fexp. cbn [shr_record_of_loc].
  unfold shr. destruct (fexp (Zdigits2 m + e) - e) as [|n|n] eqn:Hn.
  - exists {| shr_m := m; shr_r := false; shr_s := false |}.
    replace E with e by lia. cbn [shr_m shr_r shr_s].
    rewrite Z.sub_diag. change (2 ^ 0) with 1. rewrite Z.div_1_r. repeat split; auto.
  - exists (SpecFloat.iter_pos shr_1 n {| shr_m := m; shr_r := false; shr_s := false |}).
    replace (e + Zpos n) with E by lia. split; [reflexivity|].
    pose proof (halved_iter n {| shr_m := m; shr_r := false; shr_s := false |}) as Hh.
    unfold halved in Hh. destruct (Hh Hm) as (H1 & H2 & H3).
    cbn [shr_m shr_r shr_s] in *. replace (E - e) with (Zpos n) by lia.
    split; [exact H1|]. split; [exact H2|].
    intros Hmod. now apply H3.
  - exists {| shr_m := m; shr_r := false; shr_s := false |}.
    replace E with e by lia. cbn [shr_m shr_r shr_s].
    rewrite Z.sub_diag. change (2 ^ 0) with 1. rewrite Z.div_1_r. repeat split; auto.
Qed.

Lemma round_nearest_even_bounds (y : shr_record) :
  let m1 := round_nearest_even (shr_m y) (loc_of_shr_record y) in
  shr_m y <= m1 <= shr_m y + 1
  /\ (shr_r y = false /\ shr_s y = false -> m1 = shr_m y).
Proof.
  destruct y as [m [|] [|]]; cbn [shr_m shr_r shr_s loc_of_shr_record round_nearest_even];
    try destruct (Z.even m); split; try lia; intros [? ?]; try discriminate; reflexivity.
Qed.

(** What [binary_round_aux] does to an exact number whose exponent is not
    above the one of its format. *)
Lemma binary_round_aux_exact (sx : bool) (m : positive) (e : Z) :
  e <= fexp (D m + e) ->
  let E := fexp (D m + e) in
  let q := Zpos m / 2 ^ (E - e) in
  exists m1, q <= m1 <= q + 1 /\ (Zpos m mod 2 ^ (E - e) = 0 -> m1 = q) /\
    let E2 := Z.max E (fexp (Zdigits2 m1 + E)) in
    binary_round_aux prec emax sx (Zpos m) e loc_Exact =
      match m1 / 2 ^ (E2 - E) with
      | Z0 => S754_zero sx
      | Zpos m2 => if E2 <=? 971 then S754_finite sx m2 E2 else S754_infinity sx
      | Zneg _ => S754_nan
      end.
Proof.
  intros He E q. unfold binary_round_aux.
  destruct (shr_fexp_exact (Zpos m) e ltac:(lia)) as (y & Hy & Hy0 & Hym & Hyf).
  cbn [Zdigits2] in Hy, Hym, Hyf. fold E in Hy, Hym, Hyf.
  replace (Z.max e E) with E in * by lia. rewrite Hy.
  pose proof (round_nearest_even_bounds y) as [Hb Hx].
  set (m1 := round_nearest_even (shr_m y) (loc_of_shr_record y)) in *.
  exists m1. fold q in Hym. rewrite Hym in Hb, Hx. split; [exact Hb|]. split.
  { intros Hmod. apply Hx. now apply Hyf. }
  set (E2 := Z.max E (fexp (Zdigits2 m1 + E))).
  destruct (shr_fexp_exact m1 E ltac:(lia)) as (y2 & Hy2 & _ & Hy2m & _).
  fold E2 in Hy2, Hy2m. rewrite Hy2, Hy2m. reflexivity.
Qed.

Lemma kept_mantissa (p1 : positive) (E : Z) :
  -1074 <= E ->
  let E2 := Z.max E (fexp (D p1 + E)) in
  0 < Zpos p1 / 2 ^ (E2 - E).
Proof.
  intros HE E2.
  destruct (fexp_cases (D p1 + E)) as [[Hf Hlo]|[Hf Hlo]].
  - destruct (Z.le_gt_cases (D p1) 53) as [Hd|Hd].
    + replace (E2 - E) with 0 by lia. change (2 ^ 0) with 1. rewrite Z.div_1_r. lia.
    + replace (E2 - E) with (D p1 - 53) by lia.
      pose proof (digits2_pos_spec p1) as [Hp _].
      pose proof (pow2_pos (D p1 - 53) ltac:(lia)).
      apply Z.lt_le_trans with (2 ^ 52); [reflexivity|].
      apply Z.div_le_lower_bound; [lia|].
      rewrite <- Z.pow_add_r by lia.
      now replace (D p1 - 53 + 52) with (D p1 - 1) by lia.
  - replace (E2 - E) with 0 by lia. change (2 ^ 0) with 1. rewrite Z.div_1_r. lia.
Qed.

(** *** Bounds on the result of rounding *)

Lemma bounded_spec (ma : positive) (ea : Z) :
  bounded prec emax ma ea = true -> fexp (D ma + ea) = ea /\ ea <= 971.
Proof.
  unfold bounded, canonical_mantissa. intros H.
  apply andb_prop in H as [H1 H2].
  apply Z.eqb_eq in H1. apply Z.leb_le in H2. split; [exact H1|exact H2].
Qed.

Lemma binary_round_aux_below (sx : bool) (m ma : positive) (e ea : Z) :
  bounded prec emax ma ea = true ->
  e <= fexp (D m + e) -> e <= ea ->
  Zpos m <= Zpos ma * 2 ^ (ea - e) ->
  below sx ma ea (binary_round_aux prec emax sx (Zpos m) e loc_Exact).
Proof.
  intros Hv He Hea Hm. apply bounded_spec in Hv as [Hc Hmax].
  destruct (binary_round_aux_exact sx m e He) as (m1 & Hb & Hx & ->).
  set (E := fexp (D m + e)) in *.
  assert (HE : E <= ea).
  { rewrite <- Hc. apply fexp_mono.
    pose proof (digits_le m ma (ea - e) ltac:(lia) Hm). lia. }
  pose proof (fexp_emin (D m + e)) as Hmin. fold E in Hmin.
  set (s := E - e) in *.
  pose proof (pow2_pos s ltac:(lia)) as Hs.
  pose proof (pow2_pos (ea - E) ltac:(lia)) as Ht.
  set (K := Zpos ma * 2 ^ (ea - E)).
  assert (HK : Zpos ma * 2 ^ (ea - e) = K * 2 ^ s).
  { unfold K, s. rewrite <- Z.mul_assoc, <- Z.pow_add_r by lia.
    f_equal. f_equal. lia. }
  rewrite HK in Hm.
  assert (Hm1 : m1 <= K).
  { pose proof (Z.div_mod (Zpos m) (2 ^ s) ltac:(lia)) as Hdm.
    pose proof (Z.mod_pos_bound (Zpos m) (2 ^ s) Hs) as Hr.
    destruct (Z.eq_dec (Zpos m mod 2 ^ s) 0) as [H0|H0].
    - rewrite (Hx H0). nia.
    - nia. }
  assert (Hq0 : 0 <= Zpos m / 2 ^ s) by (apply Z.div_pos; lia).
  destruct m1 as [|p1|p1]; [| |lia].
  - rewrite Z.div_0_l by (apply Z.pow_nonzero; lia). now left.
  - cbn [Zdigits2].
    assert (HE2 : fexp (D p1 + E) <= ea).
    { rewrite <- Hc. apply fexp_mono.
      pose proof (digits_le p1 ma (ea - E) ltac:(lia) Hm1). lia. }
    set (E2 := Z.max E (fexp (D p1 + E))) in *.
    pose proof (pow2_pos (E2 - E) ltac:(lia)) as Hu.
    pose proof (Z.div_pos (Zpos p1) (2 ^ (E2 - E)) ltac:(lia) Hu) as Hd.
    destruct (Zpos p1 / 2 ^ (E2 - E)) as [|m2|m2] eqn:Hm2; [now left| |lia].
    replace (E2 <=? 971) with true by (symmetry; apply Z.leb_le; lia).
    right. exists m2, E2. split; [reflexivity|].
    destruct (Z.eq_dec E2 ea) as [Heq|Hne]; [right|left; lia].
    split; [exact Heq|]. rewrite <- Hm2, Heq.
    apply Z.div_le_upper_bound; [lia|]. unfold K in Hm1. lia.
Qed.

Lemma binary_round_aux_above (sx : bool) (m ma : positive) (e ea : Z) :
  bounded prec emax ma ea = true ->
  e <= fexp (D m + e) -> e <= ea ->
  Zpos ma * 2 ^ (ea - e) <= Zpos m ->
  above sx ma ea (binary_round_aux prec emax sx (Zpos m) e loc_Exact).
Proof.
  intros Hv He Hea Hm. apply bounded_spec in Hv as [Hc Hmax].
  destruct (binary_round_aux_exact sx m e He) as (m1 & Hb & Hx & ->).
  set (E := fexp (D m + e)) in *.
  assert (HE : ea <= E).
  { rewrite <- Hc. apply fexp_mono.
    pose proof (digits_ge m ma (ea - e) ltac:(lia) Hm). lia. }
  pose proof (fexp_emin (D ma + ea)) as Hmin. rewrite Hc in Hmin.
  set (s := E - e) in *.
  pose proof (pow2_pos s ltac:(lia)) as Hs.
  assert (Hq : 0 < Zpos m / 2 ^ s /\ (E = ea -> Zpos ma <= Zpos m / 2 ^ s)).
  { split.
    - destruct (Z.eq_dec E ea) as [Heq|Hne].
      + apply Z.lt_le_trans with (Zpos ma); [lia|].
        apply Z.div_le_lower_bound; [lia|]. unfold s. rewrite Heq. lia.
      + destruct (fexp_cases (D m + e)) as [[Hf Hlo]|[Hf Hlo]]; fold E in Hf; [|lia].
        replace s with (D m - 53) in * by (unfold s; lia).
        pose proof (digits2_pos_spec m) as [Hp _].
        apply Z.lt_le_trans with (2 ^ 52); [reflexivity|].
        apply Z.div_le_lower_bound; [lia|].
        rewrite <- Z.pow_add_r by lia.
        now replace (D m - 53 + 52) with (D m - 1) by lia.
    - intros Heq. apply Z.div_le_lower_bound; [lia|]. unfold s. rewrite Heq. lia. }
  destruct Hq as [Hq0 Hqa].
  destruct m1 as [|p1|p1]; [lia| |lia].
  cbn [Zdigits2].
  pose proof (kept_mantissa p1 E ltac:(lia)) as Hk. cbn zeta in Hk.
  set (E2 := Z.max E (fexp (D p1 + E))) in *.
  destruct (Zpos p1 / 2 ^ (E2 - E)) as [|m2|m2] eqn:Hm2; [lia| |lia].
  destruct (E2 <=? 971); [|now left].
  right. exists m2, E2. split; [reflexivity|].
  destruct (Z.eq_dec E2 ea) as [Heq|Hne]; [right|left; lia].
  split; [exact Heq|]. rewrite <- Hm2.
  replace (E2 - E) with 0 by lia. change (2 ^ 0) with 1. rewrite Z.div_1_r.
  specialize (Hqa ltac:(lia)). lia.
Qed.

(** *** [binary_round], which first aligns the number *)

Lemma iter_xO_spec (m d : positive) :
  Zpos (Pos.iter xO m d) = Zpos m * 2 ^ Zpos d /\ D (Pos.iter xO m d) = D m + Zpos d.
Proof.
  induction d as [|d IH] using Pos.peano_ind.
  - cbn [Pos.iter digits2_pos]. rewrite Pos2Z.inj_succ. change (2 ^ 1) with 2. lia.
  - rewrite Pos.iter_succ. cbn [digits2_pos].
    rewrite !Pos2Z.inj_succ, Pos2Z.inj_xO, Z.pow_succ_r by lia.
    destruct IH as [-> ->]. lia.
Qed.

Lemma shl_align_fst (m : positive) (e ez : Z) :
  ez <= e -> Zpos (fst (shl_align m e ez)) = Zpos m * 2 ^ (e - ez).
Proof.
  intros He. unfold shl_align. destruct (ez - e) as [|d|d] eqn:Hd; cbn [fst]; try lia.
  - replace (e - ez) with 0 by lia. change (2 ^ 0) with 1. lia.
  - destruct (iter_xO_spec m d) as [-> _]. f_equal. f_equal. lia.
Qed.

Lemma binary_round_aligned (sx : bool) (M : positive) (ez : Z) :
  exists m e, binary_round prec emax sx M ez = binary_round_aux prec emax sx (Zpos m) e loc_Exact
    /\ e <= fexp (D m + e) /\ e <= ez /\ Zpos m = Zpos M * 2 ^ (ez - e).
Proof.
  unfold binary_round, shl_align.
  destruct (fexp (D M + ez) - ez) as [|d|d] eqn:Hd.
  - exists M, ez. split; [reflexivity|]. rewrite Z.sub_diag. change (2 ^ 0) with 1. lia.
  - exists M, ez. split; [reflexivity|]. rewrite Z.sub_diag. change (2 ^ 0) with 1. lia.
  - destruct (iter_xO_spec M d) as [Hm Hdg].
    exists (Pos.iter xO M d), (fexp (D M + ez)). split; [reflexivity|].
    rewrite Hdg, Hm.
    replace (D M + Zpos d + fexp (D M + ez)) with (D M + ez) by lia.
    split; [lia|]. split; [lia|]. f_equal. f_equal. lia.
Qed.

Lemma binary_round_below (sx : bool) (M ma : positive) (ez ea : Z) :
  bounded prec emax ma ea = true -> ez <= ea ->
  Zpos M <= Zpos ma * 2 ^ (ea - ez) ->
  below sx ma ea (binary_round prec emax sx M ez).
Proof.
  intros Hv Hez HM.
  destruct (binary_round_aligned sx M ez) as (m & e & -> & He & Hle & Hm).
  apply binary_round_aux_below; [exact Hv|exact He|lia|].
  rewrite Hm. replace (ea - e) with (ea - ez + (ez - e)) by lia.
  rewrite Z.pow_add_r by lia.
  pose proof (pow2_pos (ez - e) ltac:(lia)). nia.
Qed.

Lemma binary_round_above (sx : bool) (M ma : positive) (ez ea : Z) :
  bounded prec emax ma ea = true -> ez <= ea ->
  Zpos ma * 2 ^ (ea - ez) <= Zpos M ->
  above sx ma ea (binary_round prec emax sx M ez).
Proof.
  intros Hv Hez HM.
  destruct (binary_round_aligned sx M ez) as (m & e & -> & He & Hle & Hm).
  apply binary_round_aux_above; [exact Hv|exact He|lia|].
  rewrite Hm. replace (ea - e) with (ea - ez + (ez - e)) by lia.
  rewrite Z.pow_add_r by lia.
  pose proof (pow2_pos (ez - e) ltac:(lia)). nia.
Qed.

(** *** Signs *)

Lemma binary_round_aux_sign (sx : bool) (m e : Z) (l : location) :
  has_sign sx (binary_round_aux prec emax sx m e l).
Proof.
  unfold binary_round_aux.
  destruct (shr_fexp prec emax m e l) as [y e'].
  destruct (shr_fexp prec emax _ e' loc_Exact) as [y2 e2].
  destruct (shr_m y2); [reflexivity| |exact I].
  destruct (e2 <=? emax - prec); reflexivity.
Qed.

Lemma binary_round_sign (sx : bool) (M : positive) (ez : Z) :
  has_sign sx (binary_round prec emax sx M ez).
Proof.
  unfold binary_round. destruct (shl_align M ez _) as [m e].
  apply binary_round_aux_sign.
Qed.

Lemma has_sign_nn (r : spec_float) : has_sign false r -> sf_nn r.
Proof. destruct r as [s|s| |s m e]; cbn; intros; subst; reflexivity. Qed.

Lemma SFcompare_refl (x : spec_float) : x <> S754_nan -> SFcompare x x = Some Eq.
Proof.
  destruct x as [s|s| |s m e]; intros Hx; try congruence.
  - reflexivity.
  - destruct s; reflexivity.
  - cbn [SFcompare]. rewrite Z.compare_refl.
    change (Pos.compare_cont Eq m m) with (Pos.compare m m).
    rewrite Pos.compare_refl. destruct s; reflexivity.
Qed.

Lemma SFcompare_None (x y : spec_float) :
  SFcompare x y = None -> x = S754_nan \/ y = S754_nan.
Proof.
  destruct x as [s|s| |s m e], y as [s'|s'| |s' m' e']; cbn; intros H;
    try discriminate; auto.
Qed.

(** *** Subtraction and addition of a number that is not negative *)

(** The cases of an operation of [SpecFloat] other than the one of two
    finite numbers, by computation. *)
Ltac sf_small Ht :=
  unfold sf_nn in Ht;
  repeat match goal with s : bool |- _ => destruct s end;
  try discriminate Ht;
  first [ cbn; discriminate
        | cbn [SFsub SFadd]; rewrite SFcompare_refl; discriminate ].

Lemma SFsub_not_above (a t : spec_float) :
  SpecFloat.valid_binary prec emax a = true -> sf_nn t ->
  SFcompare (SFsub prec emax a t) a <> Some Gt.
Proof.
  intros Ha Ht.
  destruct a as [sa|sa| |sa ma ea], t as [st|st| |st mt et];
    lazymatch goal with
    | |- context [SFsub _ _ (S754_finite _ _ _) (S754_finite _ _ _)] => idtac
    | _ => sf_small Ht
    end.
  - unfold sf_nn in Ht. destruct st; [discriminate|]. clear Ht.
    cbn [SpecFloat.valid_binary] in Ha. cbn [SFsub].
    set (ez := Z.min ea et).
    pose proof (shl_align_fst ma ea ez ltac:(lia)) as HX.
    pose proof (shl_align_fst mt et ez ltac:(lia)) as HY.
    set (X := fst (shl_align ma ea ez)) in *.
    set (Y := fst (shl_align mt et ez)) in *.
    destruct sa; cbn [cond_Zopp].
    + replace (- Z.pos X - Z.pos Y) with (Z.neg (X + Y)) by reflexivity. cbn [binary_normalize].
      destruct (binary_round_above true (X + Y) ma ez ea Ha ltac:(lia) ltac:(lia))
        as [->|(m2 & e2 & -> & Hb)]; [discriminate|].
      cbn [SFcompare].
      destruct Hb as [Hb|[-> Hb]].
      * apply Z.compare_gt_iff in Hb. rewrite Hb. discriminate.
      * rewrite Z.compare_refl.
        change (Pos.compare_cont Eq m2 ma) with (Pos.compare m2 ma).
        destruct (Pos.compare_spec m2 ma); try discriminate. lia.
    + destruct (Z.pos X - Z.pos Y) as [|M|M] eqn:HM; cbn [binary_normalize].
      * discriminate.
      * destruct (binary_round_below false M ma ez ea Ha ltac:(lia) ltac:(lia))
          as [->|(m2 & e2 & -> & Hb)]; [discriminate|].
        cbn [SFcompare].
        destruct Hb as [Hb|[-> Hb]].
        -- apply Z.compare_lt_iff in Hb. rewrite Hb. discriminate.
        -- rewrite Z.compare_refl.
           change (Pos.compare_cont Eq m2 ma) with (Pos.compare m2 ma).
           destruct (Pos.compare_spec m2 ma); try discriminate. lia.
      * pose proof (binary_round_sign true M ez) as Hs.
        destruct (binary_round prec emax true M ez) as [s|s| |s m2 e2];
          cbn in Hs; subst; discriminate.
Qed.

Lemma SFadd_not_below (a t : spec_float) :
  SpecFloat.valid_binary prec emax a = true -> sf_nn t ->
  SFcompare (SFadd prec emax a t) a <> Some Lt.
Proof.
  intros Ha Ht.
  destruct a as [sa|sa| |sa ma ea], t as [st|st| |st mt et];
    lazymatch goal with
    | |- context [SFadd _ _ (S754_finite _ _ _) (S754_finite _ _ _)] => idtac
    | _ => sf_small Ht
    end.
  - unfold sf_nn in Ht. destruct st; [discriminate|]. clear Ht.
    cbn [SpecFloat.valid_binary] in Ha. cbn [SFadd].
    set (ez := Z.min ea et).
    pose proof (shl_align_fst ma ea ez ltac:(lia)) as HX.
    pose proof (shl_align_fst mt et ez ltac:(lia)) as HY.
    set (X := fst (shl_align ma ea ez)) in *.
    set (Y := fst (shl_align mt et ez)) in *.
    destruct sa; cbn [cond_Zopp].
    + destruct (- Z.pos X + Z.pos Y) as [|M|M] eqn:HM; cbn [binary_normalize].
      * discriminate.
      * pose proof (binary_round_sign false M ez) as Hs.
        destruct (binary_round prec emax false M ez) as [s|s| |s m2 e2];
          cbn in Hs; subst; discriminate.
      * destruct (binary_round_below true M ma ez ea Ha ltac:(lia) ltac:(lia))
          as [->|(m2 & e2 & -> & Hb)]; [discriminate|].
        cbn [SFcompare].
        destruct Hb as [Hb|[-> Hb]].
        -- apply Z.compare_lt_iff in Hb. rewrite Hb. discriminate.
        -- rewrite Z.compare_refl.
           change (Pos.compare_cont Eq m2 ma) with (Pos.compare m2 ma).
           destruct (Pos.compare_spec m2 ma); try discriminate. lia.
    + replace (Z.pos X + Z.pos Y) with (Z.pos (X + Y)) by reflexivity. cbn [binary_normalize].
      destruct (binary_round_above false (X + Y) ma ez ea Ha ltac:(lia) ltac:(lia))
        as [->|(m2 & e2 & -> & Hb)]; [discriminate|].
      cbn [SFcompare].
      destruct Hb as [Hb|[-> Hb]].
      * apply Z.compare_gt_iff in Hb. rewrite Hb. discriminate.
      * rewrite Z.compare_refl.
        change (Pos.compare_cont Eq m2 ma) with (Pos.compare m2 ma).
        destruct (Pos.compare_spec m2 ma); try discriminate. lia.
Qed.

(** *** What stays not negative *)

Lemma SFmul_nn (a b : spec_float) :
  sf_nn a -> sf_nn b -> sf_nn (SFmul prec emax a b).
Proof.
  intros Ha Hb. unfold sf_nn in Ha, Hb.
  destruct a as [sa|sa| |sa ma ea], b as [sb|sb| |sb mb eb];
    lazymatch goal with
    | |- context [SFmul _ _ (S754_finite _ _ _) (S754_finite _ _ _)] => idtac
    | _ => repeat match goal with s : bool |- _ => destruct s end;
           try discriminate Ha; try discriminate Hb; reflexivity
    end.
  destruct sa; [discriminate Ha|]. destruct sb; [discriminate Hb|].
  cbn [SFmul xorb]. apply has_sign_nn, binary_round_aux_sign.
Qed.

Lemma SFadd_nn (a b : spec_float) :
  sf_nn a -> sf_nn b -> sf_nn (SFadd prec emax a b).
Proof.
  intros Ha Hb. unfold sf_nn in Ha, Hb.
  destruct a as [sa|sa| |sa ma ea], b as [sb|sb| |sb mb eb];
    lazymatch goal with
    | |- context [SFadd _ _ (S754_finite _ _ _) (S754_finite _ _ _)] => idtac
    | _ => repeat match goal with s : bool |- _ => destruct s end;
           try discriminate Ha; try discriminate Hb; reflexivity
    end.
  destruct sa; [discriminate Ha|]. destruct sb; [discriminate Hb|].
  cbn [SFadd cond_Zopp].
  match goal with |- context [binary_normalize _ _ (Z.pos ?x + Z.pos ?y)] =>
    replace (Z.pos x + Z.pos y) with (Z.pos (x + y)) by reflexivity end.
  cbn [binary_normalize]. apply has_sign_nn, binary_round_sign.
Qed.

Lemma canonical_order (m1 m2 : positive) (e1 e2 : Z) :
  bounded prec emax m1 e1 = true -> bounded prec emax m2 e2 = true ->
  e1 < e2 \/ (e1 = e2 /\ Zpos m1 <= Zpos m2) ->
  Zpos m1 * 2 ^ (e1 - Z.min e1 e2) <= Zpos m2 * 2 ^ (e2 - Z.min e1 e2).
Proof.
  intros H1 H2 [Hlt|[-> Hle]].
  - apply bounded_spec in H1 as [H1 _]. apply bounded_spec in H2 as [H2 _].
    replace (Z.min e1 e2) with e1 by lia. rewrite Z.sub_diag.
    change (2 ^ 0) with 1. rewrite Z.mul_1_r.
    pose proof (fexp_emin (D m1 + e1)) as Hmin. rewrite H1 in Hmin.
    destruct (fexp_cases (D m1 + e1)) as [[Hf1 _]|[Hf1 Hlo1]];
      destruct (fexp_cases (D m2 + e2)) as [[Hf2 _]|[Hf2 _]]; try lia.
    + pose proof (digits2_pos_spec m1) as [_ Hhi].
      pose proof (digits2_pos_spec m2) as [Hlo _].
      replace (D m1) with 53 in Hhi by lia. replace (D m2 - 1) with 52 in Hlo by lia.
      replace (e2 - e1) with (1 + (e2 - e1 - 1)) by lia.
      rewrite Z.pow_add_r by lia. pose proof (pow2_pos (e2 - e1 - 1) ltac:(lia)).
      change (2 ^ 1) with 2. change (2 ^ 53) with (2 * 2 ^ 52) in Hhi. nia.
    + pose proof (digits2_pos_spec m1) as [_ Hhi].
      pose proof (digits2_pos_spec m2) as [Hlo _].
      replace (D m2 - 1) with 52 in Hlo by lia.
      assert (Hd : 2 ^ D m1 <= 2 ^ 53) by (apply Z.pow_le_mono_r; lia).
      replace (e2 - e1) with (1 + (e2 - e1 - 1)) by lia.
      rewrite Z.pow_add_r by lia. pose proof (pow2_pos (e2 - e1 - 1) ltac:(lia)).
      change (2 ^ 1) with 2. change (2 ^ 53) with (2 * 2 ^ 52) in Hd. nia.
  - rewrite Z.min_id, Z.sub_diag. change (2 ^ 0) with 1. lia.
Qed.

Lemma SFsub_nn_of_lt (a b : spec_float) :
  SpecFloat.valid_binary prec emax a = true ->
  SpecFloat.valid_binary prec emax b = true ->
  SFltb a b = true -> sf_nn (SFsub prec emax b a).
Proof.
  intros Ha Hb Hlt. unfold SFltb in Hlt.
  destruct a as [sa|sa| |sa ma ea], b as [sb|sb| |sb mb eb];
    lazymatch goal with
    | |- context [SFsub _ _ (S754_finite _ _ _) (S754_finite _ _ _)] => idtac
    | _ => repeat match goal with s : bool |- _ => destruct s end;
           try discriminate Hlt; reflexivity
    end.
  cbn [SpecFloat.valid_binary] in Ha, Hb. cbn [SFsub].
  rewrite (Z.min_comm eb ea).
  set (ez := Z.min ea eb).
  pose proof (shl_align_fst ma ea ez ltac:(lia)) as HX.
  pose proof (shl_align_fst mb eb ez ltac:(lia)) as HY.
  set (X := fst (shl_align ma ea ez)) in *.
  set (Y := fst (shl_align mb eb ez)) in *.
  assert (Hpos : forall M, has_sign false (binary_normalize prec emax (Z.pos M) ez false)).
  { intros M. apply binary_round_sign. }
  destruct sa, sb; cbn [cond_Zopp]; cbn [SFcompare] in Hlt.
  - (* both negative: the magnitude of a is the larger one *)
    assert (Hord : eb < ea \/ (eb = ea /\ Zpos mb <= Zpos ma)).
    { destruct (Z.compare_spec ea eb) as [Heq|Hl|Hg]; try discriminate; [|lia].
      right. split; [lia|].
      change (Pos.compare_cont Eq ma mb) with (Pos.compare ma mb) in Hlt.
      destruct (Pos.compare_spec ma mb); try discriminate; lia. }
    pose proof (canonical_order mb ma eb ea Hb Ha Hord) as Hc.
    rewrite (Z.min_comm eb ea) in Hc. fold ez in Hc.
    destruct (- Z.pos Y - - Z.pos X) as [|M|M] eqn:HM; try lia.
    + reflexivity.
    + apply has_sign_nn, Hpos.
  - replace (Z.pos Y - - Z.pos X) with (Z.pos (Y + X)) by reflexivity.
    apply has_sign_nn, Hpos.
  - discriminate.
  - assert (Hord : ea < eb \/ (ea = eb /\ Zpos ma <= Zpos mb)).
    { destruct (Z.compare_spec ea eb) as [Heq|Hl|Hg]; try discriminate; [|lia].
      right. split; [lia|].
      change (Pos.compare_cont Eq ma mb) with (Pos.compare ma mb) in Hlt.
      destruct (Pos.compare_spec ma mb); try discriminate; lia. }
    pose proof (canonical_order ma mb ea eb Ha Hb Hord) as Hc. fold ez in Hc.
    destruct (Z.pos Y - Z.pos X) as [|M|M] eqn:HM; try lia.
    + reflexivity.
    + apply has_sign_nn, Hpos.
Qed.

(** *** The sign of a product and of a quotient *)

Lemma has_sign_cases (sx : bool) (r : spec_float) :
  has_sign sx r -> r = S754_nan \/ sign_of r = sx.
Proof. destruct r; cbn; auto. Qed.

Lemma SFmul_sign (a b : spec_float) :
  SFmul prec emax a b = S754_nan
  \/ (a <> S754_nan /\ b <> S754_nan
      /\ sign_of (SFmul prec emax a b) = xorb (sign_of a) (sign_of b)).
Proof.
  destruct a as [sa|sa| |sa ma ea], b as [sb|sb| |sb mb eb];
    try (left; reflexivity);
    try (right; repeat split; try discriminate; reflexivity).
  cbn [SFmul sign_of].
  destruct (has_sign_cases _ _ (binary_round_aux_sign (xorb sa sb)
              (Zpos (ma * mb)) (ea + eb) loc_Exact)) as [Hn|Hs]; [now left|].
  right. repeat split; try discriminate. exact Hs.
Qed.

Lemma SFdiv_sign (a b : spec_float) :
  SFdiv prec emax a b = S754_nan
  \/ (a <> S754_nan /\ b <> S754_nan
      /\ sign_of (SFdiv prec emax a b) = xorb (sign_of a) (sign_of b)).
Proof.
  destruct a as [sa|sa| |sa ma ea], b as [sb|sb| |sb mb eb];
    try (left; reflexivity);
    try (right; repeat split; try discriminate; reflexivity).
  cbn [SFdiv sign_of].
  destruct (SFdiv_core_binary prec emax (Zpos ma) ea (Zpos mb) eb) as [[mz ez] lz].
  destruct (has_sign_cases _ _ (binary_round_aux_sign (xorb sa sb) mz ez lz))
    as [Hn|Hs]; [now left|].
  right. repeat split; try discriminate. exact Hs.
Qed.

Lemma sf_nn_sign (r : spec_float) : r = S754_nan \/ sign_of r = false -> sf_nn r.
Proof. intros [->|Hs]; [reflexivity|]. destruct r; cbn in Hs; subst; reflexivity. Qed.

Lemma SFltb_zero_sign (r : spec_float) :
  SFltb (S754_zero false) r = true -> r <> S754_nan /\ sign_of r = false.
Proof.
  destruct r as [s|s| |s m e]; cbn; try discriminate; destruct s; try discriminate;
    split; try discriminate; reflexivity.
Qed.

End Rounding.

(** *** The same facts on the floats of the program *)

Section FloatOrder.
Local Open Scope float_scope.

Lemma not_negative_spec (x : float) : not_negative x <-> sf_nn (Prim2SF x).
Proof. unfold not_negative, sf_nn. rewrite ltb_spec. reflexivity. Qed.

Lemma mul_nn (x y : float) : not_negative x -> not_negative y -> not_negative (x * y).
Proof. rewrite !not_negative_spec, mul_spec. apply SFmul_nn. Qed.

Lemma add_nn (x y : float) : not_negative x -> not_negative y -> not_negative (x + y).
Proof. rewrite !not_negative_spec, add_spec. apply SFadd_nn. Qed.

Lemma sub_nn_of_lt (x y : float) : (x <? y) = true -> not_negative (y - x).
Proof.
  rewrite not_negative_spec, ltb_spec, sub_spec.
  apply SFsub_nn_of_lt; apply Prim2SF_valid.
Qed.

Lemma add_not_below (a t : float) : not_negative t -> (a + t <? a) = false.
Proof.
  rewrite not_negative_spec, ltb_spec, add_spec. intros Ht. unfold SFltb.
  pose proof (SFadd_not_below (Prim2SF a) (Prim2SF t) (Prim2SF_valid a) Ht) as H.
  unfold SF64add.
  destruct (SFcompare _ _) as [[| |]|]; try reflexivity. congruence.
Qed.

Lemma sub_not_above (a t : float) : not_negative t -> (0 <? a - t) = true -> (a - t <=? a) = true.
Proof.
  rewrite not_negative_spec, ltb_spec, leb_spec, sub_spec. intros Ht Hp. unfold SFleb.
  pose proof (SFsub_not_above (Prim2SF a) (Prim2SF t) (Prim2SF_valid a) Ht) as H.
  unfold SF64sub in *.
  destruct (SFcompare _ (Prim2SF a)) as [[| |]|] eqn:Hc; try reflexivity; [congruence|].
  exfalso. apply SFcompare_None in Hc as [Hc|Hc].
  - rewrite Hc in Hp. discriminate.
  - rewrite Hc in Hp. discriminate.
Qed.

Lemma pos_nn (x : float) : (0 <? x) = true -> not_negative x.
Proof.
  rewrite not_negative_spec, ltb_spec. intros Hx. apply sf_nn_sign. right.
  now apply SFltb_zero_sign.
Qed.

Lemma get_sign_spec (y : float) :
  get_sign y = false -> Prim2SF y = S754_nan \/ sign_of (Prim2SF y) = false.
Proof.
  unfold get_sign, PrimFloat.is_zero. rewrite FloatAxioms.eqb_spec.
  destruct (SFeqb (Prim2SF y) (Prim2SF PrimFloat.zero)) eqn:Hz.
  - rewrite ltb_spec, div_spec.
    destruct (Prim2SF y) as [s|s| |s m e]; try destruct s; vm_compute in Hz;
      try discriminate Hz; vm_compute; [discriminate|]. now right.
  - rewrite ltb_spec.
    destruct (Prim2SF y) as [s|s| |s m e]; [| |now left|]; destruct s;
      vm_compute; try discriminate; now right.
Qed.

(** The quotient [1 / (t * x)] is positive for one [x] whose sign bit is
    clear: it is not negative for any other such [x']. *)
Lemma quotient_sign (t x x' : float) :
  (0 <? 1 / (t * x)) = true -> get_sign x = false -> get_sign x' = false ->
  not_negative (1 / (t * x')).
Proof.
  intros Hpos Hx Hx'. apply get_sign_spec in Hx, Hx'.
  rewrite ltb_spec, div_spec, mul_spec in Hpos.
  apply SFltb_zero_sign in Hpos as [Hnan Hsign].
  rewrite not_negative_spec, div_spec, mul_spec. apply sf_nn_sign.
  unfold SF64div, SF64mul in *.
  destruct (SFdiv_sign (Prim2SF 1) (SFmul prec emax (Prim2SF t) (Prim2SF x)))
    as [Hd|(_ & Hm & Hd)]; [congruence|].
  rewrite Hsign in Hd.
  destruct (SFmul_sign (Prim2SF t) (Prim2SF x)) as [Hm'|(Ht & Hxn & Hm')];
    [congruence|].
  rewrite Hm' in Hd.
  assert (Hst : sign_of (Prim2SF t) = false).
  { destruct Hx as [Hx|Hx]; [congruence|]. rewrite Hx in Hd.
    change (sign_of (Prim2SF 1)) with false in Hd.
    destruct (sign_of (Prim2SF t)); [discriminate|reflexivity]. }
  destruct (SFdiv_sign (Prim2SF 1) (SFmul prec emax (Prim2SF t) (Prim2SF x')))
    as [Hd'|(_ & Hn' & Hd')]; [now left|].
  right. rewrite Hd'.
  destruct (SFmul_sign (Prim2SF t) (Prim2SF x')) as [Hm2|(_ & Hx'n & Hm2)];
    [congruence|].
  rewrite Hm2, Hst. destruct Hx' as [Hx'|Hx']; [congruence|]. rewrite Hx'.
  reflexivity.
Qed.

Lemma get_sign_abs (y : float) : get_sign (abs y) = false.
Proof.
  unfold get_sign, PrimFloat.is_zero.
  destruct (abs y =? PrimFloat.zero) eqn:Hz.
  - rewrite FloatAxioms.eqb_spec, abs_spec in Hz.
    rewrite ltb_spec, div_spec, abs_spec.
    destruct (Prim2SF y) as [s|s| |s m e]; cbn [SFabs] in Hz |- *;
      vm_compute in Hz; try discriminate Hz; vm_compute; reflexivity.
  - rewrite ltb_spec, abs_spec.
    destruct (Prim2SF y) as [s|s| |s m e]; vm_compute; reflexivity.
Qed.

(** The reference power at the exponent [cvpm], which is not an integer:
    its sign bit is clear at every base. *)
Lemma pow_ref_sign (x : float) : get_sign (B64.pow_ref x B64.cvpm) = false.
Proof.
  unfold B64.pow_ref.
  assert (H0 : (B64.cvpm =? 0) = false) by (vm_compute; reflexivity).
  assert (Hi : B64.is_integral B64.cvpm = false) by (vm_compute; reflexivity).
  rewrite H0, Hi.
  repeat match goal with
         | |- context [if ?c then _ else _] => destruct c
         end;
    try (vm_compute; reflexivity).
  apply get_sign_abs.
Qed.

End FloatOrder.

(** ** The pressures along the column *)

Section Levels.
Context {F : Type} `{Number F}.

Lemma increasing_levels (ls : list (Level F)) :
  increasing (map z ls) = true ->
  forall k, (k + 1 < length ls)%nat -> gt (z (ls !!! (k + 1)%nat)) (z (ls !!! k)) = true.
Proof.
  induction ls as [|l0 ls IH]; intros Hinc k Hk; [simpl in Hk; lia|].
  destruct ls as [|l1 ls]; [simpl in Hk; lia|].
  cbn [map increasing] in Hinc. apply andb_prop in Hinc as [H01 Hrest].
  destruct k as [|k].
  - exact H01.
  - apply (IH Hrest k). simpl in Hk |- *. lia.
Qed.

Lemma all_gt_zero_lookup (l : list F) k :
  all_gt_zero l = true -> (k < length l)%nat -> gt (l !!! k) zero = true.
Proof.
  unfold all_gt_zero. revert k. induction l as [|x l IH]; intros k Hall Hk;
    [simpl in Hk; lia|].
  cbn [forallb] in Hall. apply andb_prop in Hall as [Hx Hl].
  destruct k as [|k]; [exact Hx|]. apply IH; [exact Hl|simpl in Hk; lia].
Qed.

End Levels.

Section Pressures.
Variable power : float -> float -> float.
Variables R_d c_p g p0 rvovrd cvpm : float.

Local Abbreviation num := (B64.number power).
Local Abbreviation python := (B64.python power).
Local Abbreviation integrate_as :=
  (@integrate_as float num python R_d c_p g p0 rvovrd cvpm).
Local Abbreviation qvf_for := (@qvf_for float num rvovrd).
Local Abbreviation increasing := (@increasing float num).
Local Abbreviation all_gt_zero := (@all_gt_zero float num).

(** C7, as amended.  In binary64, with any power function whose values
    at the exponent [cvpm] have the sign bit clear (every IEEE 754 [pow]
    at an exponent that is not an integer; a NaN has none), and [g] not
    negative: for every input on which the call returns, under either
    routine, whose heights increase strictly, whose moistures are not
    negative and whose densities [rho[k]] are all positive, the moist
    pressure never increases with height, [pm[k] <= pm[k-1]] for
    [1 <= k < N], and neither does the dry pressure: [p[k] < p[k+1]] holds
    for no [k].  The decrease is not strict, and nothing is said of the
    order of the densities. *)
Theorem pressures_do_not_increase f (s : InputSounding float) Niter :
  let N := length (levels s) in
  let d := profile_of (integrate_as f s Niter) in
  (forall x, get_sign (power x cvpm) = false) ->
  (g <? 0)%float = false ->
  snd (integrate_as f s Niter) = Returned ->
  increasing (map z (levels s)) = true ->
  Forall (fun l => (qv l <? 0)%float = false) (levels s) ->
  all_gt_zero (rho d) = true ->
  (forall k, (1 <= k < N)%nat ->
     (pm d !!! k <=? pm d !!! (k - 1)%nat)%float = true)
  /\ (forall k, (k + 1 < N)%nat ->
        (p d !!! k <? p d !!! (k + 1)%nat)%float = false).
Proof.
  intros N d Hpow Hg Hret Hinc Hqv Hrho.
  destruct (@passed_surface float num python R_d c_p g p0 rvovrd cvpm
              f s Niter (or_introl Hret)) as (Hne & rho_surf & Hs).
  destruct (@run_spec float num python R_d c_p g p0 rvovrd cvpm
              f s Niter rho_surf Hne Hs) as (_ & Hsized & Hset0 & Ho).
  fold d N in Hsized, Hset0, Ho. rewrite Hret in Ho.
  destruct Ho as (Hlev & Htop & Hdown).
  destruct Hsized as (Hlr & _).
  assert (Hz : forall k, (k + 1 < N)%nat ->
            not_negative (z (lev s (k + 1)%nat) - z (lev s k))%float).
  { intros k Hk. apply sub_nn_of_lt.
    exact (@increasing_levels float num (levels s) Hinc k Hk). }
  assert (Hq : forall k, (k < N)%nat -> not_negative (qv (lev s k))).
  { intros k Hk. unfold lev.
    destruct (lookup_lt_is_Some_2 (levels s) k Hk) as [l Hl].
    rewrite (list_lookup_total_correct _ _ _ Hl).
    rewrite Forall_lookup in Hqv. exact (Hqv k l Hl). }
  assert (Hr : forall k, (k < N)%nat -> (0 <? rho d !!! k)%float = true).
  { intros k Hk. apply (@all_gt_zero_lookup float num (rho d) k Hrho). lia. }
  assert (Hhalf : not_negative 0.5%float) by reflexivity.
  split.
  - intros k Hk. destruct (Hlev k Hk) as [[Hc _] Hpos].
    unfold cell in Hc.
    destruct (Z.to_nat Niter) as [|n'] eqn:Hn.
    + (* no repetition: every pressure is still 0. *)
      assert (Hk0 : pm d !!! k = 0%float) by (injection Hc as Hc _; exact Hc).
      assert (Hk1 : pm d !!! (k - 1)%nat = 0%float).
      { destruct (Nat.eq_dec k 1) as [->|Hne1].
        - destruct Hset0 as [Hc0 _]. unfold cell in Hc0.           injection Hc0 as Hc0 _. exact Hc0.
        - destruct (Hlev (k - 1)%nat ltac:(lia)) as [[Hc1 _] _].
          unfold cell in Hc1.
          injection Hc1 as Hc1 _. exact Hc1. }
      rewrite Hk0, Hk1. reflexivity.
    + (* the last repetition subtracts a term that is not negative *)
      set (c := @passes float num R_d g p0 cvpm (qvf_for f) s k d n') in *.
      set (T := (R_d / p0 * th (lev s k) * qvf_for f (qv (lev s k)))%float).
      assert (Hpm : pm d !!! k =
                (pm d !!! (k - 1)%nat
                 - 0.5 * (z (lev s k) - z (lev s (k - 1)%nat))
                   * (snd c + rho d !!! (k - 1)%nat) * g
                   * (0.5 * (2 + (qv (lev s (k - 1)%nat) + qv (lev s k)))))%float)
        by exact (f_equal fst Hc).
      assert (Hrk : rho d !!! k = (1 / (T * power (pm d !!! k / p0) cvpm))%float).
      { rewrite Hpm. exact (f_equal snd Hc). }
      assert (Hpk : (0 <? pm d !!! k)%float = true).
      { rewrite Hpm. exact (Hpos (S n') ltac:(lia)). }
      assert (Hdz : not_negative (z (lev s k) - z (lev s (k - 1)%nat))%float).
      { pose proof (Hz (k - 1)%nat ltac:(lia)) as Hdz.
        now replace (k - 1 + 1)%nat with k in Hdz by lia. }
      assert (Hcn : not_negative (snd c)).
      { destruct n' as [|n''].
        - exact (pos_nn _ (Hr (k - 1)%nat ltac:(lia))).
        - pose proof (Hr k ltac:(lia)) as Hrp. rewrite Hrk in Hrp.
          exact (quotient_sign T _ (power (fst c / p0) cvpm) Hrp (Hpow _) (Hpow _)). }
      rewrite Hpm in Hpk |- * at 1. apply sub_not_above; [|exact Hpk].
      apply mul_nn.
      * apply mul_nn; [|exact Hg]. apply mul_nn.
        -- apply mul_nn; [exact Hhalf|exact Hdz].
        -- apply add_nn; [exact Hcn|]. exact (pos_nn _ (Hr (k - 1)%nat ltac:(lia))).
      * apply mul_nn; [exact Hhalf|]. apply add_nn; [reflexivity|].
        apply add_nn; apply Hq; lia.
  - intros k Hk.
    assert (Hd : p d !!! k =
                 (p d !!! (k + 1)%nat
                  + 0.5 * (z (lev s (k + 1)%nat) - z (lev s k))
                    * (rho d !!! k + rho d !!! (k + 1)%nat) * g)%float)
      by exact (Hdown k Hk).
    rewrite Hd. apply add_not_below.
    apply mul_nn; [|exact Hg]. apply mul_nn.
    + apply mul_nn; [exact Hhalf|]. apply Hz. exact Hk.
    + apply add_nn; apply pos_nn, Hr; lia.
Qed.

End Pressures.

(** ** Runs in binary64 *)


(** The cold column and the film keep [pm/p0] at 1 wherever it is raised
    to [cvpm], so their runs are the same under every power function with
    [1 ** cvpm = 1], which IEEE 754 asks of [pow]. *)
Lemma cold_any_power (power : float -> float -> float) :
  power 1%float B64.cvpm = 1%float ->
  @integrate_as float (B64.number power) (B64.python power)
    B64.R_d B64.c_p B64.g B64.p0 B64.rvovrd B64.cvpm
    LEGACY B64.cold 10
  = B64.run LEGACY B64.cold 10.
Proof.
  intros Hp. cbv in Hp. cbv. repeat (rewrite Hp; cbv). reflexivity.
Qed.

Lemma film_any_power (power : float -> float -> float) :
  power 1%float B64.cvpm = 1%float ->
  @integrate_as float (B64.number power) (B64.python power)
    B64.R_d B64.c_p B64.g B64.p0 B64.rvovrd B64.cvpm
    VIRTUAL_POTENTIAL_TEMPERATURE B64.film 10
  = B64.run VIRTUAL_POTENTIAL_TEMPERATURE B64.film 10.
Proof.
  intros Hp. cbv in Hp. cbv. repeat (rewrite Hp; cbv). reflexivity.
Qed.

(** The end-to-end scenario returns, and its levels 1 and 2 hold the ten
    repetitions. *)
Lemma stage2_repetitions_scenario :
  let d := profile_of (B64.run VIRTUAL_POTENTIAL_TEMPERATURE B64.scenario 10) in
  cell d 2 =
    Nat.iter 10
      (pass B64.R_d B64.g B64.p0 B64.cvpm
         (qvf_for B64.rvovrd VIRTUAL_POTENTIAL_TEMPERATURE) B64.scenario 2
         (pm d !!! 1%nat) (rho d !!! 1%nat))
      (zero, rho d !!! 1%nat)
  /\ thm d !!! 2%nat
     = mul (th (lev B64.scenario 2))
         (qvf_for B64.rvovrd VIRTUAL_POTENTIAL_TEMPERATURE
            (qv (lev B64.scenario 2))).
Proof.
  cbv zeta.
  apply (stage2_repetitions B64.R_d B64.c_p B64.g B64.p0 B64.rvovrd B64.cvpm
           VIRTUAL_POTENTIAL_TEMPERATURE B64.scenario 10).
  - vm_compute. reflexivity.
  - simpl. lia.
Defined.

(** C1 as stated fails on the cold column, which has two levels: the call
    stops in the first repetition of level 1, so that level has not had
    ten repetitions, and [thm[1]] is still [0.], not [th[1]*qvf]. *)
Lemma stage2_repetitions_cold :
  let d := profile_of (B64.run LEGACY B64.cold 10) in
  length (levels B64.cold) = 2%nat
  /\ ~ (cell d 1 =
          Nat.iter 10
            (pass B64.R_d B64.g B64.p0 B64.cvpm (qvf_for B64.rvovrd LEGACY)
               B64.cold 1 (pm d !!! 0%nat) (rho d !!! 0%nat))
            (zero, rho d !!! 0%nat)
        /\ thm d !!! 1%nat
           = mul (th (lev B64.cold 1))
               (qvf_for B64.rvovrd LEGACY (qv (lev B64.cold 1)))).
Proof.
  cbv zeta. split; [reflexivity|].
  intros [_ H]. vm_compute in H. float_discriminate H.
Qed.


(** C3 as stated fails for [integrate_column]: two objects that differ in
    [qv_surf] only, 0.01 and 0, are left with different profiles. *)
Lemma qv_surf_changes_integrate_column :
  let r1 := B64.run VIRTUAL_POTENTIAL_TEMPERATURE B64.raised 10 in
  let r2 := B64.run VIRTUAL_POTENTIAL_TEMPERATURE
              (with_qv_surf B64.raised 0%float) 10 in
  snd r1 = Returned /\ snd r2 = Returned /\ profile_of r1 <> profile_of r2.
Proof.
  cbv zeta. split; [vm_compute; reflexivity|].
  split; [vm_compute; reflexivity|].
  intros H. apply (f_equal (fun d : Profile float => pm d !!! 0%nat)) in H.
  vm_compute in H. float_discriminate H.
Qed.



(** Under a surface temperature of 0 K the divisor of the surface
    density is zero: [integrate_column] raises [ZeroDivisionError] and
    assigns nothing, [integrate_column_wrf] goes on and fails the
    assertion with its arrays assigned. *)
Lemma dry_column_no_temperature :
  let r1 := B64.run LEGACY B64.dry_no_temperature 10 in
  let r2 := B64.run VIRTUAL_POTENTIAL_TEMPERATURE B64.dry_no_temperature 10 in
  Forall (fun l => is_zero (qv l) = true) (levels B64.dry_no_temperature)
  /\ snd r1 = Raised (AssertionError too_cold)
  /\ derived (fst r1) <> None
  /\ r2 = (B64.dry_no_temperature, Raised (ArithmeticError ZeroDivisionError)).
Proof.
  cbv zeta. split; [repeat constructor|].
  split; [vm_compute; reflexivity|]. split; [vm_compute; discriminate|].
  vm_compute. reflexivity.
Qed.

(** The dry pressure of the end-to-end scenario. *)
Lemma dry_pressure_scenario :
  let d := profile_of (B64.run VIRTUAL_POTENTIAL_TEMPERATURE B64.scenario 10) in
  p d !!! 2%nat = pm d !!! 2%nat
  /\ forall k, (k + 1 < 3)%nat ->
       p d !!! k =
       add (p d !!! (k + 1)%nat)
         (mul (mul (mul half (sub (z (lev B64.scenario (k + 1)%nat))
                                   (z (lev B64.scenario k))))
                    (add (rho d !!! k) (rho d !!! (k + 1)%nat)))
              B64.g).
Proof.
  cbv zeta.
  apply (dry_pressure B64.R_d B64.c_p B64.g B64.p0 B64.rvovrd B64.cvpm
           VIRTUAL_POTENTIAL_TEMPERATURE B64.scenario 10).
  vm_compute. reflexivity.
Defined.

(** C6 as stated fails: the heights of the folded column are not
    increasing, and the call returns. *)
Lemma folded_column_returns :
  increasing (map z (levels B64.folded)) = false
  /\ snd (B64.run LEGACY B64.folded 10) = Returned
  /\ snd (B64.run VIRTUAL_POTENTIAL_TEMPERATURE B64.folded 10) = Returned.
Proof. repeat split; vm_compute; reflexivity. Qed.

(** The failure scenario of the specification, as a table of one level
    and with a second level above it: the first repetition already leaves
    [pm[0]] negative; the one-level call returns; with the second level,
    stage 2 takes level 1 from that [pm[0]], and the call stops on the
    [pm[1]] it computed, a NaN, not the [0.] the array was filled with. *)
Lemma stage1_unchecked_cold :
  let s := B64.cold_pair in
  let rho_surf := B64.density LEGACY s in
  let r := B64.run LEGACY s 10 in
  let d := profile_of r in
  gt (fst (pass0 B64.R_d B64.g B64.p0 B64.cvpm (qvf_for B64.rvovrd LEGACY)
             rho_surf s (zero, rho_surf)))
     zero = false
  /\ snd (B64.run LEGACY B64.cold_single 10) = Returned
  /\ snd r = Raised (AssertionError too_cold)
  /\ PrimFloat.is_nan (pm d !!! 1%nat) = true
  /\ cell d 0 =
       Nat.iter 10
         (pass0 B64.R_d B64.g B64.p0 B64.cvpm (qvf_for B64.rvovrd LEGACY)
            rho_surf s)
         (zero, rho_surf)
  /\ (2%nat = 1%nat -> snd r = Returned)
  /\ match snd r with
     | Returned =>
         forall k, (1 <= k < 2)%nat ->
           cell d k
           = passes B64.R_d B64.g B64.p0 B64.cvpm (qvf_for B64.rvovrd LEGACY)
               s k d 10
     | _ =>
         exists k i, (1 <= k < 2)%nat /\ (i < 10)%nat
           /\ (forall j, (1 <= j < k)%nat ->
                 cell d j
                 = passes B64.R_d B64.g B64.p0 B64.cvpm
                     (qvf_for B64.rvovrd LEGACY) s j d 10)
           /\ pm d !!! k
              = fst (passes B64.R_d B64.g B64.p0 B64.cvpm
                       (qvf_for B64.rvovrd LEGACY) s k d (S i))
           /\ gt (pm d !!! k) zero = false
     end.
Proof.
  cbv zeta.
  split; [vm_compute; reflexivity|]. split; [vm_compute; reflexivity|].
  split; [vm_compute; reflexivity|]. split; [vm_compute; reflexivity|].
  apply (stage1_unchecked B64.R_d B64.c_p B64.g B64.p0 B64.rvovrd B64.cvpm
           LEGACY B64.cold_pair 10 (B64.density LEGACY B64.cold_pair)).
  - discriminate.
  - vm_compute. reflexivity.
Defined.


(** C8 as stated fails where it has a fresh profile allocated on every
    call: with a surface pressure of 0 the call raises
    [ZeroDivisionError] at line 109, before line 117, and the object
    still holds the arrays of the earlier call. *)
Lemma stale_arrays_survive :
  let r := B64.run VIRTUAL_POTENTIAL_TEMPERATURE B64.no_pressure 10 in
  snd r = Raised (ArithmeticError ZeroDivisionError)
  /\ derived (fst r) = Some B64.stale
  /\ derived (fst (B64.run VIRTUAL_POTENTIAL_TEMPERATURE
                     (with_old B64.no_pressure None) 10)) = None.
Proof. cbv zeta. repeat split; vm_compute; reflexivity. Qed.

(** The end-to-end scenario: its heights increase, its moistures and [g]
    are not negative, the call returns with positive densities, and the
    pressures of its three levels do not increase with height. *)
Lemma pressures_do_not_increase_scenario :
  let d := profile_of (B64.run VIRTUAL_POTENTIAL_TEMPERATURE B64.scenario 10) in
  (pm d !!! 1%nat <=? pm d !!! 0%nat)%float = true
  /\ (pm d !!! 2%nat <=? pm d !!! 1%nat)%float = true
  /\ (p d !!! 0%nat <? p d !!! 1%nat)%float = false
  /\ (p d !!! 1%nat <? p d !!! 2%nat)%float = false.
Proof.
  cbv zeta.
  pose proof (pressures_do_not_increase B64.pow_ref B64.R_d B64.c_p B64.g
                B64.p0 B64.rvovrd B64.cvpm VIRTUAL_POTENTIAL_TEMPERATURE
                B64.scenario 10) as Hc.
  cbv zeta in Hc.
  specialize (Hc pow_ref_sign).
  specialize (Hc ltac:(vm_compute; reflexivity)).
  specialize (Hc ltac:(vm_compute; reflexivity)).
  specialize (Hc ltac:(vm_compute; reflexivity)).
  specialize (Hc ltac:(repeat constructor)).
  specialize (Hc ltac:(vm_compute; reflexivity)).
  destruct Hc as [Hpm Hp].
  split; [exact (Hpm 1%nat ltac:(simpl; lia))|].
  split; [exact (Hpm 2%nat ltac:(simpl; lia))|].
  split; [exact (Hp 0%nat ltac:(simpl; lia))|].
  exact (Hp 1%nat ltac:(simpl; lia)).
Defined.

(** C7 as stated fails in both of its parts.  On the drying column and
    on the film the call returns, the heights increase strictly, the
    potential temperature does not decrease, the moisture is between 0
    and 0.01 and every density is positive.  Yet on the drying column the
    density grows with height, the moisture falling and the factor [qvf]
    with it; and across the film, a layer thinner than the rounding of
    [pm], the pressures do not decrease: [pm[1] = pm[0]] and
    [p[1] = p[0]]. *)
Lemma stratified_columns_fail :
  let stratified (s : InputSounding float) (r : InputSounding float * outcome) :=
    snd r = Returned
    /\ increasing (map z (levels s)) = true
    /\ non_decreasing (map th (levels s)) = true
    /\ forallb (fun l => (0 <=? qv l)%float && (qv l <=? 0.01)%float) (levels s)
       = true
    /\ all_gt_zero (rho (profile_of r)) = true in
  let r := B64.run VIRTUAL_POTENTIAL_TEMPERATURE B64.drying 10 in
  let r' := B64.run VIRTUAL_POTENTIAL_TEMPERATURE B64.film 10 in
  (stratified B64.drying r
   /\ gt (rho (profile_of r) !!! 1%nat) (rho (profile_of r) !!! 0%nat) = true
   /\ gt (rho (profile_of r) !!! 2%nat) (rho (profile_of r) !!! 1%nat) = true)
  /\ (stratified B64.film r'
      /\ pm (profile_of r') !!! 1%nat = pm (profile_of r') !!! 0%nat
      /\ p (profile_of r') !!! 1%nat = p (profile_of r') !!! 0%nat
      /\ gt (pm (profile_of r') !!! 0%nat) (pm (profile_of r') !!! 1%nat) = false
      /\ gt (p (profile_of r') !!! 0%nat) (p (profile_of r') !!! 1%nat) = false).
Proof. cbv zeta. repeat split; vm_compute; reflexivity. Qed.

(** ** More on the two routines *)

Section Calls.
Context {F : Type} `{Number F} `{Python F}.
Variables R_d c_p g p0 rvovrd cvpm : F.

Local Open Scope num_scope.

Local Abbreviation integrate := (integrate R_d g p0 cvpm).
Local Abbreviation integrate_as := (integrate_as R_d c_p g p0 rvovrd cvpm).
Local Abbreviation qvf_for := (qvf_for rvovrd).
Local Abbreviation surface_for := (surface_for R_d c_p p0 rvovrd cvpm).
Local Abbreviation eos := (eos R_d p0 cvpm).
Local Abbreviation pass0 := (pass0 R_d g p0 cvpm).
Local Abbreviation pass := (pass R_d g p0 cvpm).
Local Abbreviation passes := (passes R_d g p0 cvpm).
Local Abbreviation settled0 := (settled0 R_d g p0 cvpm).
Local Abbreviation settled := (settled R_d g p0 cvpm).
Local Abbreviation all_positive := (all_positive R_d g p0 cvpm).
Local Abbreviation stopped := (stopped R_d g p0 cvpm).
Local Abbreviation run_spec := (run_spec R_d c_p g p0 rvovrd cvpm).
Local Abbreviation passed_surface := (passed_surface R_d c_p g p0 rvovrd cvpm).
Local Abbreviation call_course := (call_course R_d c_p g p0 rvovrd cvpm).

(** *** What a call touches *)

Lemma inputs_kept f (s : InputSounding F) Niter :
  let r := integrate_as f s Niter in
  p_surf (fst r) = p_surf s /\ th_surf (fst r) = th_surf s
  /\ qv_surf (fst r) = qv_surf s /\ levels (fst r) = levels s.
Proof.
  intros r. subst r.
  destruct (call_course f s Niter) as [Hf He|e Hf Hs|Hf Hs|r Hf He Hs|r Hne Hs];
    cbn [fst snd]; try (repeat split; reflexivity).
  destruct (integrate_shape R_d g p0 cvpm (qvf_for f) r s (Z.to_nat Niter))
    as [d0 Hd0].
  rewrite Hd0. repeat split; reflexivity.
Qed.

(** X1.  A call leaves the surface record and the table of the object as
    they were, however it ends.  A call that returns or fails the
    assertion leaves four arrays in the object, each as long as the
    table.  A call that raises [IndexError] had an empty table:
    [integrate_column] has then assigned four empty arrays,
    [integrate_column_wrf] nothing.  A call that raises an arithmetic
    error raised it in lines 46-47 or 109-110 and has assigned nothing:
    the object holds the arrays it held before, or none. *)
Theorem call_keeps_inputs f (s : InputSounding F) Niter :
  let r := integrate_as f s Niter in
  p_surf (fst r) = p_surf s /\ th_surf (fst r) = th_surf s
  /\ qv_surf (fst r) = qv_surf s /\ levels (fst r) = levels s
  /\ match snd r with
     | Returned | Raised (AssertionError _) =>
         exists d, derived (fst r) = Some d /\ sized (length (levels s)) d
     | Raised IndexError =>
         levels s = []
         /\ derived (fst r)
            = match f with
              | LEGACY => derived s
              | VIRTUAL_POTENTIAL_TEMPERATURE => Some (mkProfile [] [] [] [])
              end
     | Raised (ArithmeticError e) =>
         surface_for f s = PyRaise e /\ derived (fst r) = derived s
     | WentComplex => True
     end.
Proof.
  intros r. subst r.
  destruct (call_course f s Niter) as [Hf He|e Hf Hs|Hf Hs|r Hf He Hs|r Hne Hs];
    cbn [fst snd].
  - repeat (split; [reflexivity|]). split; [exact He|]. now rewrite Hf.
  - repeat (split; [reflexivity|]). split; [exact Hs|reflexivity].
  - repeat (split; [reflexivity|]). exact I.
  - repeat (split; [reflexivity|]). split; [exact He|]. now rewrite Hf.
  - rewrite <- (integrate_as_shared R_d c_p g p0 rvovrd cvpm f s Niter r Hne Hs).
    destruct (run_spec f s Niter r Hne Hs) as (Hd & Hsz & _ & Ho).
    rewrite (integrate_as_shared R_d c_p g p0 rvovrd cvpm f s Niter r Hne Hs) at 1 2 3 4.
    destruct (integrate_shape R_d g p0 cvpm (qvf_for f) r s (Z.to_nat Niter))
      as [d0 Hd0].
    rewrite Hd0. cbn [with_derived p_surf th_surf qv_surf levels].
    repeat (split; [reflexivity|]).
    destruct (snd (integrate_as f s Niter)) as [|e|]; [| |exact I].
    + eexists. split; [exact Hd | exact Hsz].
    + destruct Ho as (He & _). rewrite He.
      eexists. split; [exact Hd | exact Hsz].
Qed.

(** *** No repetition at all *)

(** X2.  With [Niter <= 0] no loop body runs and no assertion is ever
    evaluated: on a table that is not empty, a call that has its surface
    density returns, whatever the input, with every [pm[k]] still [0.],
    every [rho[k]] equal to the surface density, and
    [thm[k] = th[k]*qvf]. *)
Theorem no_repetitions f (s : InputSounding F) Niter rho_surf :
  (Niter <= 0)%Z -> levels s <> [] -> surface_for f s = PyFloat rho_surf ->
  let r := integrate_as f s Niter in
  let d := profile_of r in
  snd r = Returned
  /\ forall k, (k < length (levels s))%nat ->
       pm d !!! k = zero /\ rho d !!! k = rho_surf
       /\ thm d !!! k = th (lev s k) * qvf_for f (qv (lev s k)).
Proof.
  intros HN Hne Hs r d. subst d r.
  destruct (run_spec f s Niter rho_surf Hne Hs) as (_ & _ & [Hc0 Ht0] & Ho).
  replace (Z.to_nat Niter) with 0%nat in * by lia.
  destruct (snd (integrate_as f s Niter)) as [|e|]; [| |destruct Ho].
  - split; [reflexivity|]. destruct Ho as (Hset & _).
    set (d := profile_of (integrate_as f s Niter)) in *.
    assert (Hcell : forall k, (k < length (levels s))%nat ->
              cell d k = (zero, rho_surf)).
    { induction k as [|k IH]; intros Hk; [exact Hc0|].
      destruct (Hset (S k) ltac:(lia)) as [[Hc _] _].
      rewrite Hc. unfold passes. cbn [Nat.iter nat_rect].
      replace (S k - 1)%nat with k by lia.
      specialize (IH ltac:(lia)). unfold cell in IH.
      injection IH as _ ->. reflexivity. }
    intros k Hk. specialize (Hcell k Hk). unfold cell in Hcell.
    injection Hcell as -> ->. split; [reflexivity|]. split; [reflexivity|].
    destruct k as [|k]; [exact Ht0|]. apply (Hset (S k)). lia.
  - exfalso. destruct Ho as (_ & k & i & _ & Hi & _). lia.
Qed.

(** *** The profile a call returns *)

(** X3.  When a call with [Niter >= 1] returns, every level holds the
    density of the equation of state at its own final pressure and
    moisture factor, [thm[k] = th[k]*qvf(qv[k])], and every [pm[k]] with
    [k >= 1] passed the test [pm[k] > 0]; [pm[0]] is the one pressure
    that no test has seen. *)
Theorem returned_profile f (s : InputSounding F) Niter :
  (1 <= Niter)%Z ->
  snd (integrate_as f s Niter) = Returned ->
  let d := profile_of (integrate_as f s Niter) in
  forall k, (k < length (levels s))%nat ->
    rho d !!! k = eos (th (lev s k)) (qvf_for f (qv (lev s k))) (pm d !!! k)
    /\ thm d !!! k = th (lev s k) * qvf_for f (qv (lev s k))
    /\ ((1 <= k)%nat -> gt (pm d !!! k) zero = true).
Proof.
  intros HN Hret d k Hk. subst d.
  destruct (passed_surface f s Niter (or_introl Hret)) as (Hne & rho_surf & Hs).
  destruct (run_spec f s Niter rho_surf Hne Hs) as (_ & _ & Hlow & Ho).
  rewrite Hret in Ho. destruct Ho as (Hset & _).
  destruct (Z.to_nat Niter) as [|m] eqn:Hn; [lia|].
  destruct k as [|k].
  - destruct Hlow as [Hc Ht]. rewrite Nat.iter_succ in Hc.
    unfold cell, pass0 in Hc. cbv zeta in Hc.
    injection Hc as Hpm Hrho. split; [|split; [exact Ht | lia]].
    rewrite Hrho, Hpm. reflexivity.
  - destruct (Hset (S k) ltac:(lia)) as [[Hc Ht] Hall].
    pose proof (Hall (S m) ltac:(lia)) as Hpos. rewrite <- Hc in Hpos.
    unfold passes in Hc. rewrite Nat.iter_succ in Hc.
    unfold cell, pass, pass_with in Hc. cbv zeta in Hc.
    injection Hc as Hpm Hrho. split; [|split; [exact Ht | intros _; exact Hpos]].
    rewrite Hrho, Hpm. reflexivity.
Qed.

(** *** One routine after the other *)

(** X4.  The routines overwrite each other.  On a table that is not
    empty, a call made on the object an earlier call left, of either
    routine with any [Niter] and however that one ended, ends as it would
    on the fresh object; if it returns or fails the assertion it leaves
    the same arrays as on the fresh object: nothing of the earlier
    profile survives, and nothing of it is read.  If it raises in lines
    46-47 or 109-110 it leaves the object as the earlier call left it,
    arrays included. *)
Theorem second_call_overwrites f1 f2 (s : InputSounding F) Niter1 Niter2 :
  levels s <> [] ->
  let s1 := fst (integrate_as f1 s Niter1) in
  let r := integrate_as f2 s Niter2 in
  let r2 := integrate_as f2 s1 Niter2 in
  snd r2 = snd r
  /\ match snd r with
     | Returned | Raised (AssertionError _) =>
         derived (fst r2) = derived (fst r)
     | Raised IndexError => False
     | Raised (ArithmeticError _) => fst r2 = s1
     | WentComplex => True
     end.
Proof.
  intros Hne s1 r r2. subst r r2.
  destruct (inputs_kept f1 s Niter1) as (Hp & Ht & Hq & Hl).
  fold s1 in Hp, Ht, Hq, Hl.
  assert (Hne1 : levels s1 <> []) by (rewrite Hl; exact Hne).
  assert (Hs1 : surface_for f2 s1 = surface_for f2 s).
  { apply surface_for_reads; try assumption. unfold lev. now rewrite Hl. }
  rewrite (integrate_as_start R_d c_p g p0 rvovrd cvpm f2 s1 Niter2 Hne1), Hs1.
  rewrite (integrate_as_start R_d c_p g p0 rvovrd cvpm f2 s Niter2 Hne).
  destruct (surface_for f2 s) as [rs|e|]; cbn [start fst snd].
  - destruct (integrate_reads R_d g p0 cvpm (qvf_for f2) rs s s1
                (Z.to_nat Niter2) Hp Hl) as [Hsnd Hder].
    split; [exact Hsnd|].
    destruct (integrate_spec R_d g p0 cvpm (qvf_for f2) rs s (Z.to_nat Niter2) Hne)
      as (d' & _ & _ & _ & Ho).
    destruct (snd (integrate (qvf_for f2) rs s (Z.to_nat Niter2))) as [|e|];
      [exact Hder| |exact I].
    destruct Ho as (He & _). rewrite He. exact Hder.
  - split; reflexivity.
  - split; [reflexivity|exact I].
Qed.

(** *** The table cut short *)

Lemma iter_ext {A : Type} (f h : A -> A) n x :
  (forall y, f y = h y) -> Nat.iter n f x = Nat.iter n h x.
Proof.
  intros Hfh. induction n as [|n IH]; [reflexivity|].
  now rewrite !Nat.iter_succ, IH, Hfh.
Qed.

Lemma lev_truncate m (s : InputSounding F) j :
  (j < m)%nat -> lev (truncate m s) j = lev s j.
Proof. intros Hj. unfold lev, truncate. simpl. now apply lookup_total_take_lt. Qed.

Lemma passes_truncate f m (s : InputSounding F) k (d d' : Profile F) i :
  (1 <= k < m)%nat ->
  pm d' !!! (k - 1)%nat = pm d !!! (k - 1)%nat ->
  rho d' !!! (k - 1)%nat = rho d !!! (k - 1)%nat ->
  passes (qvf_for f) (truncate m s) k d' i = passes (qvf_for f) s k d i.
Proof.
  intros Hk Hp Hr. unfold passes. rewrite Hp, Hr.
  apply iter_ext. intros c. unfold pass.
  now rewrite !lev_truncate by lia.
Qed.

(** The levels below [m] of a run on the table cut to [m] levels, against
    a profile [d] of the whole table whose levels below [m] are settled. *)
Lemma truncate_agrees f (s : InputSounding F) Niter m rho_surf (d : Profile F) :
  (1 <= m <= length (levels s))%nat ->
  surface_for f s = PyFloat rho_surf ->
  settled0 (qvf_for f) rho_surf s (Z.to_nat Niter) d ->
  (forall j, (1 <= j < m)%nat ->
     settled (qvf_for f) s (Z.to_nat Niter) d j
     /\ all_positive (qvf_for f) s d j (Z.to_nat Niter)) ->
  let r' := integrate_as f (truncate m s) Niter in
  snd r' = Returned
  /\ forall j, (j < m)%nat ->
       rho (profile_of r') !!! j = rho d !!! j
       /\ thm (profile_of r') !!! j = thm d !!! j
       /\ pm (profile_of r') !!! j = pm d !!! j.
Proof.
  intros Hm Hs [Hc0 Ht0] Hset r'. subst r'.
  set (s' := truncate m s). set (n := Z.to_nat Niter) in *.
  assert (Hlen : length (levels s') = m).
  { unfold s', truncate. simpl. rewrite length_take. lia. }
  assert (Hne' : levels s' <> []).
  { intros He. rewrite He in Hlen. simpl in Hlen. lia. }
  assert (Hrs : surface_for f s' = PyFloat rho_surf).
  { rewrite <- Hs. apply surface_for_reads; try reflexivity.
    unfold s'. now rewrite lev_truncate by lia. }
  destruct (run_spec f s' Niter rho_surf Hne' Hrs) as (_ & _ & [Hc0' Ht0'] & Ho).
  fold n in Hc0', Ht0', Ho. rewrite Hlen in Ho.
  set (d' := profile_of (integrate_as f s' Niter)) in *.
  (* level 0 *)
  assert (Hlow : rho d' !!! 0%nat = rho d !!! 0%nat
               /\ thm d' !!! 0%nat = thm d !!! 0%nat
               /\ pm d' !!! 0%nat = pm d !!! 0%nat).
  { assert (Hcc : cell d' 0 = cell d 0).
    { rewrite Hc0, Hc0'. apply iter_ext. intros c. unfold pass0.
      unfold s'. now rewrite !lev_truncate by lia. }
    unfold cell in Hcc. injection Hcc as Hpm Hrho.
    split; [exact Hrho|]. split; [|exact Hpm].
    rewrite Ht0, Ht0'. unfold s'. now rewrite !lev_truncate by lia. }
  (* the levels below any level up to which the cut run is settled *)
  assert (Hup : forall K, (K <= m)%nat ->
            (forall j, (1 <= j < K)%nat -> settled (qvf_for f) s' n d' j) ->
            forall j, (j < K)%nat ->
              rho d' !!! j = rho d !!! j /\ thm d' !!! j = thm d !!! j
              /\ pm d' !!! j = pm d !!! j).
  { intros K HK Hset' j. induction j as [|j IH]; intros Hj; [exact Hlow|].
    destruct (IH ltac:(lia)) as (Hr & _ & Hp).
    destruct (Hset' (S j) ltac:(lia)) as [Hc' Ht'].
    destruct (Hset (S j) ltac:(lia)) as [[Hc Ht] _].
    assert (Hcc : cell d' (S j) = cell d (S j)).
    { rewrite Hc, Hc'. apply passes_truncate; [lia| |];
        replace (S j - 1)%nat with j by lia; assumption. }
    unfold cell in Hcc. injection Hcc as Hpm Hrho.
    split; [exact Hrho|]. split; [|exact Hpm].
    rewrite Ht, Ht'. unfold s'. now rewrite !lev_truncate by lia. }
  destruct (snd (integrate_as f s' Niter)) as [|e|]; [| |destruct Ho].
  - split; [reflexivity|]. destruct Ho as (Hset' & _).
    apply (Hup m); [lia|]. intros j Hj. now apply Hset'.
  - exfalso.
    destruct Ho as (_ & k & i & Hk & Hi & Hset' & Hstop & _).
    destruct Hstop as (_ & Hpm & Hbad & _).
    assert (Hbelow := Hup k ltac:(lia)
                        (fun j Hj => proj1 (Hset' j Hj)) (k - 1)%nat ltac:(lia)).
    destruct Hbelow as (Hr & _ & Hp).
    unfold s' in Hpm.
    rewrite (passes_truncate f m s k d d' (S i) ltac:(lia) Hp Hr) in Hpm.
    destruct (Hset k ltac:(lia)) as [_ Hall].
    specialize (Hall (S i) ltac:(lia)). rewrite <- Hpm in Hall. congruence.
Qed.

(** X5.  Levels do not depend on the levels above them.  When a call
    returns, the call on the table cut to its lowest [m] levels returns
    too, and leaves in [rho], [thm] and [pm] what the whole call left at
    those levels.  (The dry pressure [p] is integrated down from the top
    and does change.) *)
Theorem lower_levels_independent f (s : InputSounding F) Niter m :
  (1 <= m <= length (levels s))%nat ->
  snd (integrate_as f s Niter) = Returned ->
  let d := profile_of (integrate_as f s Niter) in
  let r' := integrate_as f (truncate m s) Niter in
  snd r' = Returned
  /\ forall j, (j < m)%nat ->
       rho (profile_of r') !!! j = rho d !!! j
       /\ thm (profile_of r') !!! j = thm d !!! j
       /\ pm (profile_of r') !!! j = pm d !!! j.
Proof.
  intros Hm Hret d r'. subst d r'.
  destruct (passed_surface f s Niter (or_introl Hret)) as (Hne & rho_surf & Hs).
  destruct (run_spec f s Niter rho_surf Hne Hs) as (_ & _ & Hlow & Ho).
  rewrite Hret in Ho. destruct Ho as (Hset & _).
  apply (truncate_agrees f s Niter m rho_surf); [exact Hm | exact Hs | exact Hlow |].
  intros j Hj. apply Hset. lia.
Qed.

(** X6.  A failed call has stopped at the first level it cannot reach.
    When the assertion fails, there is a level [k >= 1] whose [pm[k]]
    fails [pm[k] > 0] such that the call on the table cut below [k]
    returns, leaving in [rho], [thm] and [pm] what the failed call left
    below [k]. *)
Theorem first_unreachable_level f (s : InputSounding F) Niter msg :
  snd (integrate_as f s Niter) = Raised (AssertionError msg) ->
  let d := profile_of (integrate_as f s Niter) in
  exists k, (1 <= k < length (levels s))%nat
    /\ gt (pm d !!! k) zero = false
    /\ snd (integrate_as f (truncate k s) Niter) = Returned
    /\ forall j, (j < k)%nat ->
         rho (profile_of (integrate_as f (truncate k s) Niter)) !!! j = rho d !!! j
         /\ thm (profile_of (integrate_as f (truncate k s) Niter)) !!! j = thm d !!! j
         /\ pm (profile_of (integrate_as f (truncate k s) Niter)) !!! j = pm d !!! j.
Proof.
  intros Hr d. subst d.
  destruct (passed_surface f s Niter (or_intror (ex_intro _ msg Hr)))
    as (Hne & rho_surf & Hs).
  destruct (run_spec f s Niter rho_surf Hne Hs) as (_ & _ & Hlow & Ho).
  rewrite Hr in Ho.
  destruct Ho as (_ & k & i & Hk & Hi & Hset & Hstop & _).
  exists k. split; [exact Hk|]. split; [apply Hstop|].
  apply (truncate_agrees f s Niter k rho_surf);
    [lia | exact Hs | exact Hlow | exact Hset].
Qed.

End Calls.

(** *** Runs in binary64 *)

(** The end-to-end scenario with no repetition. *)
Lemma no_repetitions_scenario :
  let r := B64.run VIRTUAL_POTENTIAL_TEMPERATURE B64.scenario 0 in
  let d := profile_of r in
  snd r = Returned
  /\ forall k, (k < 3)%nat ->
       pm d !!! k = zero
       /\ rho d !!! k = B64.density VIRTUAL_POTENTIAL_TEMPERATURE B64.scenario
       /\ thm d !!! k
          = mul (th (lev B64.scenario k))
              (qvf_for B64.rvovrd VIRTUAL_POTENTIAL_TEMPERATURE
                 (qv (lev B64.scenario k))).
Proof.
  cbv zeta.
  apply (no_repetitions B64.R_d B64.c_p B64.g B64.p0 B64.rvovrd B64.cvpm
           VIRTUAL_POTENTIAL_TEMPERATURE B64.scenario 0
           (B64.density VIRTUAL_POTENTIAL_TEMPERATURE B64.scenario)).
  - lia.
  - discriminate.
  - vm_compute. reflexivity.
Defined.

(** The profile of the end-to-end scenario. *)
Lemma returned_profile_scenario :
  let r := B64.run VIRTUAL_POTENTIAL_TEMPERATURE B64.scenario 10 in
  let d := profile_of r in
  snd r = Returned
  /\ forall k, (k < 3)%nat ->
       rho d !!! k
       = eos B64.R_d B64.p0 B64.cvpm (th (lev B64.scenario k))
           (qvf_for B64.rvovrd VIRTUAL_POTENTIAL_TEMPERATURE
              (qv (lev B64.scenario k)))
           (pm d !!! k)
       /\ thm d !!! k
          = mul (th (lev B64.scenario k))
              (qvf_for B64.rvovrd VIRTUAL_POTENTIAL_TEMPERATURE
                 (qv (lev B64.scenario k)))
       /\ ((1 <= k)%nat -> gt (pm d !!! k) zero = true).
Proof.
  cbv zeta. split; [vm_compute; reflexivity|].
  apply (returned_profile B64.R_d B64.c_p B64.g B64.p0 B64.rvovrd B64.cvpm
           VIRTUAL_POTENTIAL_TEMPERATURE B64.scenario 10).
  - lia.
  - vm_compute. reflexivity.
Defined.

(** [integrate_column] after [integrate_column_wrf] on the end-to-end
    scenario, as the script at the end of the module calls them. *)
Lemma second_call_overwrites_scenario :
  let s1 := fst (B64.run LEGACY B64.scenario 10) in
  let r := B64.run VIRTUAL_POTENTIAL_TEMPERATURE B64.scenario 10 in
  let r2 := B64.run VIRTUAL_POTENTIAL_TEMPERATURE s1 10 in
  snd r = Returned
  /\ snd r2 = snd r
  /\ match snd r with
     | Returned | Raised (AssertionError _) =>
         derived (fst r2) = derived (fst r)
     | Raised IndexError => False
     | Raised (ArithmeticError _) => fst r2 = s1
     | WentComplex => True
     end.
Proof.
  cbv zeta. split; [vm_compute; reflexivity|].
  apply (second_call_overwrites B64.R_d B64.c_p B64.g B64.p0 B64.rvovrd B64.cvpm
           LEGACY VIRTUAL_POTENTIAL_TEMPERATURE B64.scenario 10 10).
  discriminate.
Defined.

(** The end-to-end scenario without its top level. *)
Lemma lower_levels_independent_scenario :
  let d := profile_of (B64.run VIRTUAL_POTENTIAL_TEMPERATURE B64.scenario 10) in
  let r' := B64.run VIRTUAL_POTENTIAL_TEMPERATURE (truncate 2 B64.scenario) 10 in
  snd r' = Returned
  /\ forall j, (j < 2)%nat ->
       rho (profile_of r') !!! j = rho d !!! j
       /\ thm (profile_of r') !!! j = thm d !!! j
       /\ pm (profile_of r') !!! j = pm d !!! j.
Proof.
  cbv zeta.
  apply (lower_levels_independent B64.R_d B64.c_p B64.g B64.p0 B64.rvovrd B64.cvpm
           VIRTUAL_POTENTIAL_TEMPERATURE B64.scenario 10 2).
  - simpl. lia.
  - vm_compute. reflexivity.
Defined.

(** The scenario with its top level out of reach. *)
Lemma first_unreachable_level_cold_top :
  let run := B64.run VIRTUAL_POTENTIAL_TEMPERATURE in
  let d := profile_of (run B64.cold_top 10%Z) in
  exists k, (1 <= k < 3)%nat
    /\ gt (pm d !!! k) zero = false
    /\ snd (run (truncate k B64.cold_top) 10%Z) = Returned
    /\ forall j, (j < k)%nat ->
         rho (profile_of (run (truncate k B64.cold_top) 10%Z)) !!! j = rho d !!! j
         /\ thm (profile_of (run (truncate k B64.cold_top) 10%Z)) !!! j = thm d !!! j
         /\ pm (profile_of (run (truncate k B64.cold_top) 10%Z)) !!! j = pm d !!! j.
Proof.
  cbv zeta.
  apply (first_unreachable_level B64.R_d B64.c_p B64.g B64.p0 B64.rvovrd B64.cvpm
           VIRTUAL_POTENTIAL_TEMPERATURE B64.cold_top 10 too_cold).
  vm_compute. reflexivity.
Defined.

(** ** A lowest level at the surface *)

Section AtTheSurface.
Context {F : Type} `{Number F}.
Variables R_d g p0 cvpm : F.

Local Open Scope num_scope.

(** When the hydrostatic term of stage 1 vanishes against [p_surf], for
    the density the loop starts from and for the one it then settles on,
    one repetition reaches [pm[0] = p_surf] and the density of the
    equation of state there, and further repetitions stay. *)
Lemma stage1_at_surface qvf_of rho_surf (s : InputSounding F) n N :
  (1 <= N)%nat -> (1 <= n)%nat ->
  let e := eos R_d p0 cvpm (th (lev s 0)) (qvf_of (qv (lev s 0))) (p_surf s) in
  let term x := half * z (lev s 0) * (rho_surf + x) * g * (one + qv (lev s 0)) in
  p_surf s - term rho_surf = p_surf s ->
  p_surf s - term e = p_surf s ->
  stage1 R_d g p0 cvpm qvf_of rho_surf s n
    (mkProfile (zeros N) (zeros N) (zeros N) (zeros N))
  = mkProfile (<[0%nat:=e]> (zeros N))
      (<[0%nat:=th (lev s 0) * qvf_of (qv (lev s 0))]> (zeros N))
      (<[0%nat:=p_surf s]> (zeros N)) (zeros N).
Proof.
  intros HN Hn e term H1 H2. unfold stage1.
  assert (Hlen : (0 < length (zeros (F:=F) N))%nat)
    by (rewrite zeros_length; lia).
  assert (Hit : Nat.iter n
            (relax0 R_d g p0 cvpm s rho_surf (z (lev s 0))
               (qvf_of (qv (lev s 0))) (one + qv (lev s 0)))
            (set_rho 0 rho_surf (mkProfile (zeros N) (zeros N) (zeros N) (zeros N)))
          = mkProfile (<[0%nat:=e]> (zeros N)) (zeros N)
              (<[0%nat:=p_surf s]> (zeros N)) (zeros N)).
  { destruct n as [|m]; [lia|]. clear Hn.
    unfold term in H1, H2.
    induction m as [|m IH].
    - cbn [Nat.iter nat_rect]. unfold relax0, set_rho, set_pm. cbn [rho pm thm p].
      rewrite !insert_eq by exact Hlen. rewrite H1. fold e.
      now rewrite list_insert_insert_eq.
    - rewrite Nat.iter_succ, IH. unfold relax0, set_rho, set_pm. cbn [rho pm thm p].
      rewrite !insert_eq by (rewrite ?length_insert; exact Hlen).
      rewrite H2. fold e.
      now rewrite !list_insert_insert_eq. }
  cbv zeta. rewrite Hit. reflexivity.
Qed.

Lemma passes0_at_surface qvf_of rho_surf (s : InputSounding F) n :
  (1 <= n)%nat ->
  let e := eos R_d p0 cvpm (th (lev s 0)) (qvf_of (qv (lev s 0))) (p_surf s) in
  let term x := half * z (lev s 0) * (rho_surf + x) * g * (one + qv (lev s 0)) in
  p_surf s - term rho_surf = p_surf s ->
  p_surf s - term e = p_surf s ->
  Nat.iter n (pass0 R_d g p0 cvpm qvf_of rho_surf s) (zero, rho_surf)
  = (p_surf s, e).
Proof.
  intros Hn e term H1 H2. unfold term in H1, H2.
  destruct n as [|m]; [lia|]. clear Hn.
  induction m as [|m IH].
  - cbn [Nat.iter nat_rect]. unfold pass0. cbn [snd]. now rewrite H1.
  - rewrite Nat.iter_succ, IH. unfold pass0. cbn [snd]. now rewrite H2.
Qed.

End AtTheSurface.

Section SurfaceBinary64.
Variable power : float -> float -> float.
Variables R_d c_p g p0 rvovrd cvpm : float.

Local Abbreviation num := (B64.number power).
Local Abbreviation python := (B64.python power).
Local Abbreviation integrate_as :=
  (@integrate_as float num python R_d c_p g p0 rvovrd cvpm).
Local Abbreviation integrate := (@integrate float num R_d g p0 cvpm).
Local Abbreviation surface_for :=
  (@surface_for float num python R_d c_p p0 rvovrd cvpm).
Local Abbreviation qvf_for := (@qvf_for float num rvovrd).
Local Abbreviation eos := (@eos float num R_d p0 cvpm).

Lemma float_mul_zero (a x : float) :
  (exists b, Prim2SF a = S754_zero b) -> float_finite x = true ->
  exists b, Prim2SF (a * x)%float = S754_zero b.
Proof.
  intros [b Ha] Hx. unfold float_finite in Hx.
  rewrite mul_spec, Ha. unfold SF64mul.
  destruct (Prim2SF x); simpl; try discriminate; eexists; reflexivity.
Qed.

Lemma float_sub_zero (x y : float) :
  float_nonzero_finite x = true -> (exists b, Prim2SF y = S754_zero b) ->
  (x - y)%float = x.
Proof.
  intros Hx [b Hy]. unfold float_nonzero_finite in Hx.
  apply Prim2SF_inj. rewrite sub_spec, Hy. unfold SF64sub.
  destruct (Prim2SF x); simpl; try discriminate; reflexivity.
Qed.

(** The hydrostatic term of stage 1 vanishes against [p_surf] when the
    lowest level is at the surface and the numbers are finite. *)
Lemma float_term_vanishes (ps qv0 x : float) :
  float_nonzero_finite ps = true -> float_finite g = true ->
  float_finite (1 + qv0)%float = true -> float_finite x = true ->
  (ps - 0.5 * 0 * x * g * (1 + qv0))%float = ps.
Proof.
  intros Hps Hg Hq Hx. apply float_sub_zero; [exact Hps|].
  apply float_mul_zero; [|exact Hq].
  apply float_mul_zero; [|exact Hg].
  apply float_mul_zero; [|exact Hx].
  exists false. vm_compute. reflexivity.
Qed.

(** X8.  In binary64, when the lowest level is at the surface ([z[0] = 0])
    only the pressure of the surface record counts.  For two objects with
    the same [p_surf] and table but other [th_surf] and [qv_surf], on
    both of which lines 45-47 or 108-110 give a surface density: with at
    least one repetition and finite numbers ([p_surf] finite and not
    zero, [g] and [1 + qv[0]] finite, the sums of densities of stage 1
    finite), stage 1 leaves [pm[0] = p_surf], and the two calls end the
    same way with the same arrays, under either routine and any power
    function. *)
Theorem surface_level_needs_only_pressure f (s s' : InputSounding float)
    Niter rs rs' :
  p_surf s' = p_surf s -> levels s' = levels s -> levels s <> [] ->
  (1 <= Niter)%Z -> z (lev s 0) = 0%float ->
  surface_for f s = PyFloat rs -> surface_for f s' = PyFloat rs' ->
  float_nonzero_finite (p_surf s) = true -> float_finite g = true ->
  float_finite (1 + qv (lev s 0))%float = true ->
  surface_settles power R_d p0 rvovrd cvpm f s rs = true ->
  surface_settles power R_d p0 rvovrd cvpm f s' rs' = true ->
  snd (integrate_as f s' Niter) = snd (integrate_as f s Niter)
  /\ derived (fst (integrate_as f s' Niter))
     = derived (fst (integrate_as f s Niter))
  /\ pm (profile_of (integrate_as f s Niter)) !!! 0%nat = p_surf s.
Proof.
  intros Hp Hl Hne HN Hz Hrs Hrs' Hps Hg Hq Hs Hs'.
  assert (Hne' : levels s' <> []) by (rewrite Hl; exact Hne).
  assert (Hn : (1 <= Z.to_nat Niter)%nat) by lia.
  assert (Hl0 : lev s' 0 = lev s 0) by (unfold lev; now rewrite Hl).
  unfold surface_settles in Hs, Hs'. cbv zeta in Hs, Hs'.
  apply andb_prop in Hs, Hs'. destruct Hs as [Hs1 Hs2], Hs' as [Hs1' Hs2'].
  fold (lev s 0) in Hs1, Hs2. fold (lev s' 0) in Hs1', Hs2'.
  rewrite Hl0, Hp in Hs2'.
  set (e := eos (th (lev s 0)) (qvf_for f (qv (lev s 0))) (p_surf s)) in *.
  assert (Hterm : forall r x, float_finite (r + x)%float = true ->
            @sub float num (p_surf s)
              (@mul float num
                 (@mul float num
                    (@mul float num
                       (@mul float num (@half float num) (z (lev s 0)))
                       (@add float num r x)) g)
                 (@add float num (@one float num) (qv (lev s 0))))
            = p_surf s).
  { intros r x Hx. rewrite Hz. now apply float_term_vanishes. }
  rewrite (@integrate_as_shared float num python R_d c_p g p0 rvovrd cvpm
             f s' Niter rs' Hne' Hrs').
  rewrite (@integrate_as_shared float num python R_d c_p g p0 rvovrd cvpm
             f s Niter rs Hne Hrs).
  destruct (@integrate_reads float num R_d g p0 cvpm (qvf_for f) rs' s s'
              (Z.to_nat Niter) Hp Hl) as [Hsnd Hder].
  rewrite Hsnd, Hder.
  assert (Hsame : integrate (qvf_for f) rs' s (Z.to_nat Niter)
                  = integrate (qvf_for f) rs s (Z.to_nat Niter)).
  { unfold integrate.
    assert (HNl : (1 <= length (levels s))%nat)
      by (destruct (levels s); [congruence | simpl; lia]).
    rewrite (@stage1_at_surface float num R_d g p0 cvpm (qvf_for f) rs' s
               (Z.to_nat Niter) (length (levels s)) HNl Hn
               (Hterm _ _ Hs1') (Hterm _ _ Hs2')).
    rewrite (@stage1_at_surface float num R_d g p0 cvpm (qvf_for f) rs s
               (Z.to_nat Niter) (length (levels s)) HNl Hn
               (Hterm _ _ Hs1) (Hterm _ _ Hs2)).
    reflexivity. }
  rewrite Hsame. split; [reflexivity|]. split; [reflexivity|].
  destruct (@integrate_spec float num R_d g p0 cvpm (qvf_for f) rs s
              (Z.to_nat Niter) Hne) as (d & Hfst & _ & [Hc _] & _).
  unfold profile_of. rewrite Hfst. simpl.
  rewrite (@passes0_at_surface float num R_d g p0 cvpm (qvf_for f) rs s
             (Z.to_nat Niter) Hn (Hterm _ _ Hs1) (Hterm _ _ Hs2)) in Hc.
  unfold cell in Hc. injection Hc as Hpm _. exact Hpm.
Qed.

End SurfaceBinary64.

(** The scenario, whose lowest level is at the surface, under 250 K and
    dry air at the surface instead of 300 K and 0.01. *)
Lemma surface_level_scenario :
  snd (B64.run VIRTUAL_POTENTIAL_TEMPERATURE scenario_other_surface 10)
  = snd (B64.run VIRTUAL_POTENTIAL_TEMPERATURE B64.scenario 10)
  /\ derived (fst (B64.run VIRTUAL_POTENTIAL_TEMPERATURE scenario_other_surface 10))
     = derived (fst (B64.run VIRTUAL_POTENTIAL_TEMPERATURE B64.scenario 10))
  /\ pm (profile_of (B64.run VIRTUAL_POTENTIAL_TEMPERATURE B64.scenario 10))
       !!! 0%nat = p_surf B64.scenario.
Proof.
  apply (surface_level_needs_only_pressure B64.pow_ref B64.R_d B64.c_p B64.g
           B64.p0 B64.rvovrd B64.cvpm VIRTUAL_POTENTIAL_TEMPERATURE
           B64.scenario scenario_other_surface 10
           (B64.density VIRTUAL_POTENTIAL_TEMPERATURE B64.scenario)
           (B64.density VIRTUAL_POTENTIAL_TEMPERATURE scenario_other_surface)).
  - reflexivity.
  - reflexivity.
  - discriminate.
  - lia.
  - reflexivity.
  - vm_compute. reflexivity.
  - vm_compute. reflexivity.
  - vm_compute. reflexivity.
  - vm_compute. reflexivity.
  - vm_compute. reflexivity.
  - vm_compute. reflexivity.
  - vm_compute. reflexivity.
Defined.

(** ** The input file as a mapping *)

Section InputFile.
Import ErfInput.

Local Abbreviation keys := (map (@fst string value)).
Local Abbreviation other_than k :=
  (fun kv : string * value => negb (String.eqb (fst kv) k)).

(** *** The dictionary *)

Lemma dict_get_none k d : dict_get k d = None <-> ~ In k (keys d).
Proof.
  induction d as [|[k' v] d IH]; simpl; [tauto|].
  destruct (String.eqb_spec k k') as [->|Hne].
  - split; [discriminate | intros Hn; exfalso; apply Hn; now left].
  - rewrite IH. split; [intros Hn [E|I]; [congruence | tauto] | tauto].
Qed.

Lemma dict_has_in k d : dict_has k d = true <-> In k (keys d).
Proof.
  unfold dict_has. destruct (dict_get k d) eqn:E.
  - split; [intros _|reflexivity].
    destruct (in_dec string_dec k (keys d)) as [I|I]; [exact I|].
    apply dict_get_none in I. congruence.
  - split; [discriminate|]. intros I. apply dict_get_none in E. tauto.
Qed.

Lemma dict_get_in k v d : dict_get k d = Some v -> In (k, v) d.
Proof.
  induction d as [|[k' v'] d IH]; simpl; [discriminate|].
  destruct (String.eqb_spec k k') as [->|Hne].
  - intros [= ->]. now left.
  - intros E. right. now apply IH.
Qed.

Lemma in_dict_get k v d : List.NoDup (keys d) -> In (k, v) d -> dict_get k d = Some v.
Proof.
  induction d as [|[k' v'] d IH]; simpl; [tauto|].
  intros Hnd [E|I].
  - injection E as -> ->. now rewrite String.eqb_refl.
  - inversion Hnd as [|? ? Hk Hd]; subst.
    destruct (String.eqb_spec k k') as [->|Hne]; [|now apply IH].
    exfalso. apply Hk. change k' with (fst (k', v)). now apply in_map.
Qed.

Lemma dict_get_set_eq k v d : dict_get k (dict_set k v d) = Some v.
Proof.
  induction d as [|[k' v'] d IH]; simpl.
  - now rewrite String.eqb_refl.
  - destruct (String.eqb_spec k k') as [->|Hne]; simpl.
    + now rewrite String.eqb_refl.
    + destruct (String.eqb_spec k k'); [congruence | exact IH].
Qed.

Lemma dict_get_set_ne k k' v d :
  k' <> k -> dict_get k' (dict_set k v d) = dict_get k' d.
Proof.
  intros Hne. induction d as [|[k0 v0] d IH]; simpl.
  - destruct (String.eqb_spec k' k); [congruence | reflexivity].
  - destruct (String.eqb_spec k k0) as [->|Hk]; simpl.
    + destruct (String.eqb_spec k' k0); [congruence | reflexivity].
    + destruct (String.eqb_spec k' k0); [reflexivity | exact IH].
Qed.

Lemma dict_has_set_ne k k' v d :
  k' <> k -> dict_has k' (dict_set k v d) = dict_has k' d.
Proof. intros Hne. unfold dict_has. now rewrite dict_get_set_ne. Qed.

Lemma keys_set_present k v d : In k (keys d) -> keys (dict_set k v d) = keys d.
Proof.
  induction d as [|[k' v'] d IH]; simpl; [tauto|].
  intros Hin. destruct (String.eqb_spec k k') as [->|Hne]; simpl; [reflexivity|].
  f_equal. apply IH. destruct Hin; [congruence | assumption].
Qed.

Lemma dict_set_new k v d : ~ In k (keys d) -> dict_set k v d = d ++ [(k, v)].
Proof.
  induction d as [|[k' v'] d IH]; simpl; [reflexivity|].
  intros Hn. destruct (String.eqb_spec k k') as [->|Hne]; [tauto|].
  f_equal. apply IH. tauto.
Qed.

Lemma keys_set_distinct k v d : List.NoDup (keys d) -> List.NoDup (keys (dict_set k v d)).
Proof.
  intros Hnd. destruct (in_dec string_dec k (keys d)) as [I|I].
  - now rewrite keys_set_present.
  - rewrite dict_set_new, map_app by exact I. simpl.
    apply List.NoDup_app; [exact Hnd | repeat constructor; simpl; tauto |].
    intros x Hx [<-|[]]. tauto.
Qed.

Lemma dict_del_none k d : dict_del k d = None <-> ~ In k (keys d).
Proof.
  induction d as [|[k' v] d IH]; simpl; [tauto|].
  destruct (String.eqb_spec k k') as [->|Hne].
  - split; [discriminate | intros Hn; exfalso; apply Hn; now left].
  - destruct (dict_del k d).
    + split; [discriminate|]. intros Hn. exfalso.
      assert (Hd : ~ In k (keys d)) by tauto. apply IH in Hd. discriminate.
    + split; [intros _ [E|I]; [congruence | now apply IH in I] | reflexivity].
Qed.

Lemma filter_absent k d : ~ In k (keys d) -> List.filter (other_than k) d = d.
Proof.
  induction d as [|[k' v] d IH]; simpl; [reflexivity|].
  intros Hn. destruct (String.eqb_spec k' k) as [->|Hne]; simpl; [tauto|].
  f_equal. apply IH. tauto.
Qed.

Lemma dict_del_filter k d d' :
  List.NoDup (keys d) -> dict_del k d = Some d' -> d' = List.filter (other_than k) d.
Proof.
  revert d'. induction d as [|[k' v] d IH]; simpl; intros d' Hnd; [discriminate|].
  inversion Hnd as [|? ? Hk Hd]; subst.
  destruct (String.eqb_spec k k') as [->|Hne].
  - intros [= <-]. rewrite String.eqb_refl. simpl. symmetry. now apply filter_absent.
  - destruct (dict_del k d) as [d''|] eqn:E; [|discriminate].
    intros [= <-]. destruct (String.eqb_spec k' k); [congruence|]. simpl.
    f_equal. now apply IH.
Qed.

Lemma keys_filter_distinct (q : string * value -> bool) d :
  List.NoDup (keys d) -> List.NoDup (keys (List.filter q d)).
Proof.
  induction d as [|kv d IH]; simpl; intros Hnd; [constructor|].
  inversion Hnd as [|? ? Hk Hd]; subst.
  destruct (q kv); simpl; [|now apply IH].
  constructor; [|now apply IH].
  intros Hin. apply Hk. apply in_map_iff in Hin as (x & Hx & Hf).
  apply List.filter_In in Hf as [Hf _]. apply in_map_iff. now exists x.
Qed.

Lemma dict_get_filter_ne k k' d :
  k' <> k -> dict_get k' (List.filter (other_than k) d) = dict_get k' d.
Proof.
  intros Hne. induction d as [|[k0 v0] d IH]; simpl; [reflexivity|].
  destruct (String.eqb_spec k0 k) as [->|Hk]; simpl.
  - destruct (String.eqb_spec k' k); [congruence | exact IH].
  - destruct (String.eqb_spec k' k0); [reflexivity | exact IH].
Qed.

Lemma keys_filter k d :
  keys (List.filter (other_than k) d)
  = List.filter (fun k' => negb (String.eqb k' k)) (keys d).
Proof.
  induction d as [|[k0 v0] d IH]; simpl; [reflexivity|].
  destruct (String.eqb k0 k); simpl; now rewrite IH.
Qed.

(** *** [update] on a dictionary *)

Lemma dict_update_cons d k v items :
  dict_update d ((k, v) :: items) = dict_update (dict_set k v d) items.
Proof. reflexivity. Qed.

Lemma dict_get_update_other k items : forall d,
  ~ In k (keys items) -> dict_get k (dict_update d items) = dict_get k d.
Proof.
  induction items as [|[k0 v0] items IH]; intros d Hn; [reflexivity|].
  rewrite dict_update_cons, IH by (simpl in Hn; tauto).
  apply dict_get_set_ne. simpl in Hn. intros ->. tauto.
Qed.

Lemma dict_get_update k v items : forall d,
  List.NoDup (keys items) -> In (k, v) items ->
  dict_get k (dict_update d items) = Some v.
Proof.
  induction items as [|[k0 v0] items IH]; intros d Hnd Hin; [destruct Hin|].
  inversion Hnd as [|? ? Hk Hd]; subst. rewrite dict_update_cons.
  destruct Hin as [E|I].
  - injection E as -> ->. rewrite dict_get_update_other by exact Hk.
    apply dict_get_set_eq.
  - now apply IH.
Qed.

Lemma keys_update_distinct items : forall d,
  List.NoDup (keys d) -> List.NoDup (keys (dict_update d items)).
Proof.
  induction items as [|[k0 v0] items IH]; intros d Hnd; [exact Hnd|].
  rewrite dict_update_cons. apply IH. now apply keys_set_distinct.
Qed.

Lemma keys_update items : forall d,
  List.NoDup (keys items) ->
  keys (dict_update d items)
  = keys d ++ List.filter (fun k => negb (dict_has k d)) (keys items).
Proof.
  induction items as [|[k0 v0] items IH]; intros d Hnd.
  - simpl. now rewrite app_nil_r.
  - inversion Hnd as [|? ? Hk Hd]; subst.
    rewrite dict_update_cons, IH by exact Hd. simpl.
    assert (Hext : List.filter (fun k => negb (dict_has k (dict_set k0 v0 d)))
                     (keys items)
                   = List.filter (fun k => negb (dict_has k d)) (keys items)).
    { apply List.filter_ext_in. intros k Hin.
      rewrite dict_has_set_ne; [reflexivity|]. intros ->. tauto. }
    rewrite Hext. destruct (dict_has k0 d) eqn:Hh; simpl.
    + apply dict_has_in in Hh. now rewrite keys_set_present.
    + assert (Hn : ~ In k0 (keys d)).
      { intros I. apply dict_has_in in I. congruence. }
      rewrite dict_set_new, map_app by exact Hn. simpl.
      now rewrite <- app_assoc.
Qed.

Lemma dict_update_fresh items : forall d,
  List.NoDup (keys (d ++ items)) -> dict_update d items = d ++ items.
Proof.
  induction items as [|[k0 v0] items IH]; intros d Hnd.
  - simpl. now rewrite app_nil_r.
  - rewrite dict_update_cons.
    assert (Hn : ~ In k0 (keys d)).
    { rewrite map_app in Hnd. simpl in Hnd.
      apply List.NoDup_remove_2 in Hnd. intros I. apply Hnd.
      apply in_or_app. now left. }
    rewrite dict_set_new by exact Hn.
    rewrite IH; rewrite <- app_assoc; [reflexivity | exact Hnd].
Qed.

Lemma dict_of_dict d : List.NoDup (keys d) -> dict_of d = d.
Proof. intros Hnd. unfold dict_of. now rewrite dict_update_fresh. Qed.

Lemma dict_pop_spec k default d :
  List.NoDup (keys d) ->
  dict_pop k default d
  = (match dict_get k d with Some v => v | None => default end,
     List.filter (other_than k) d).
Proof.
  intros Hnd. unfold dict_pop.
  destruct (dict_get k d) as [v|] eqn:Eg.
  - destruct (dict_del k d) as [d'|] eqn:Ed.
    + now rewrite (dict_del_filter k d d' Hnd Ed).
    + apply dict_del_none in Ed. apply dict_get_none in Ed. congruence.
  - apply dict_get_none in Eg. now rewrite filter_absent.
Qed.

(** *** [update] on the file *)

Lemma update_spec other : forall f log0,
  List.NoDup (keys other) ->
  fold_left
    (fun acc kv =>
       let r := __setitem__ (fst acc) (fst kv) (snd kv) in
       (fst r, snd acc ++ snd r))
    other (f, log0)
  = (mkFile (verbose f) (dict_update (store f) other),
     log0 ++ (if truthy (verbose f)
              then map (fun kv => Overriding (fst kv) (snd kv))
                     (List.filter (fun kv => dict_has (fst kv) (store f)) other)
              else [])).
Proof.
  induction other as [|[k v] other IH]; intros f log0 Hnd.
  - simpl. destruct f. simpl. destruct (truthy _); now rewrite app_nil_r.
  - inversion Hnd as [|? ? Hk Hd]; subst.
    cbn [fold_left]. cbv zeta. cbn [fst snd].
    rewrite IH by exact Hd. unfold __setitem__. cbv zeta.
    cbn [fst snd verbose store]. unfold _keytransform.
    rewrite dict_update_cons. f_equal.
    assert (Hext : List.filter (fun kv => dict_has (fst kv) (dict_set k v (store f)))
                     other
                   = List.filter (fun kv => dict_has (fst kv) (store f)) other).
    { apply List.filter_ext_in. intros [k' v'] Hin. simpl.
      apply dict_has_set_ne. intros ->. apply Hk.
      change k with (fst (k, v')). now apply in_map. }
    rewrite Hext. cbn [List.filter fst snd].
    unfold __getitem__, _keytransform, dict_has.
    destruct (dict_get k (store f)); destruct (truthy (verbose f));
      cbn [map]; rewrite <- ?app_assoc, ?app_nil_r; reflexivity.
Qed.

Lemma update_store other : forall f log0,
  fst (fold_left
         (fun acc kv =>
            let r := __setitem__ (fst acc) (fst kv) (snd kv) in
            (fst r, snd acc ++ snd r))
         other (f, log0))
  = mkFile (verbose f) (dict_update (store f) other).
Proof.
  induction other as [|[k v] other IH]; intros f log0.
  - destruct f. reflexivity.
  - cbn [fold_left]. cbv zeta. cbn [fst snd]. rewrite IH. reflexivity.
Qed.

Lemma dict_del_length k d d' : dict_del k d = Some d' -> length d = S (length d').
Proof.
  revert d'. induction d as [|[k' v] d IH]; simpl; intros d'; [discriminate|].
  destruct (String.eqb k k'); [now intros [= <-]|].
  destruct (dict_del k d) as [d''|]; [|discriminate].
  intros [= <-]. simpl. f_equal. now apply IH.
Qed.

Lemma dict_del_last k v d : ~ In k (keys d) -> dict_del k (d ++ [(k, v)]) = Some d.
Proof.
  induction d as [|[k' v'] d IH]; simpl; intros Hn.
  - now rewrite String.eqb_refl.
  - destruct (String.eqb_spec k k') as [->|Hne]; [tauto|].
    rewrite IH by tauto. reflexivity.
Qed.

(** *** The keys stay distinct *)

Lemma defaults_distinct : List.NoDup (keys defaults).
Proof.
  unfold defaults. simpl.
  repeat (constructor; [simpl; intuition discriminate|]). constructor.
Qed.

Lemma constructed_distinct args kwargs f log :
  __init__ args kwargs = Ok (f, log) -> List.NoDup (__iter__ f).
Proof.
  unfold __init__, update. destruct (dict_pop _ _ _) as [vb kw].
  destruct args as [|a [|b args]]; [| |discriminate];
    intros [= Hf]; apply (f_equal fst) in Hf; cbn [fst] in Hf;
    rewrite update_store in Hf; subst f; unfold __iter__; cbn [store];
    apply keys_update_distinct, defaults_distinct.
Qed.

Lemma setitem_distinct f key v :
  List.NoDup (__iter__ f) -> List.NoDup (__iter__ (fst (__setitem__ f key v))).
Proof. apply keys_set_distinct. Qed.

Lemma delitem_distinct f key f' :
  List.NoDup (__iter__ f) -> __delitem__ f key = Ok f' -> List.NoDup (__iter__ f').
Proof.
  unfold __delitem__, __iter__, _keytransform. intros Hnd.
  destruct (dict_del key (store f)) as [d|] eqn:E; [|discriminate].
  intros [= <-]. cbn [store]. rewrite (dict_del_filter _ _ _ Hnd E).
  now apply keys_filter_distinct.
Qed.

(** *** Item assignment *)

(** X9.  After [f[key] = v] the file answers [v] at [key] and what it
    answered before at every other key, a [KeyError] included; the
    [verbose] flag is as it was.  A key that was there keeps its place in
    the order of iteration and the length stays; a new key goes last and
    the length grows by one.  The [finally] stores in either case. *)
Theorem setitem_then_getitem f key v :
  let f' := fst (__setitem__ f key v) in
  __getitem__ f' key = Ok v
  /\ (forall k, k <> key -> __getitem__ f' k = __getitem__ f k)
  /\ verbose f' = verbose f
  /\ match __getitem__ f key with
     | Ok _ => __iter__ f' = __iter__ f /\ __len__ f' = __len__ f
     | Raise _ => __iter__ f' = __iter__ f ++ [key]
                  /\ __len__ f' = S (__len__ f)
     end.
Proof.
  intros f'. subst f'.
  unfold __setitem__, __getitem__, __iter__, __len__, _keytransform.
  cbv zeta. cbn [fst verbose store].
  split; [now rewrite dict_get_set_eq|].
  split; [intros k Hk; now rewrite dict_get_set_ne|].
  split; [reflexivity|].
  destruct (dict_get key (store f)) as [old|] eqn:E.
  - assert (Hin : In key (keys (store f))).
    { apply dict_has_in. unfold dict_has. now rewrite E. }
    pose proof (keys_set_present key v (store f) Hin) as Hkeys.
    split; [exact Hkeys|].
    rewrite <- (length_map fst (dict_set key v (store f))), Hkeys.
    apply length_map.
  - apply dict_get_none in E. rewrite dict_set_new by exact E.
    rewrite map_app, length_app. simpl. split; [reflexivity | lia].
Qed.

(** *** Construction *)

(** X10.  The constructor called with keywords only returns.  The
    keyword [verbose] sets the flag ([True] when it is not given) and is
    never stored as a key.  Every other keyword is stored with its value,
    and a key that was not given keeps the default, or is missing.  The
    six default keys come first in the order of iteration, in the order of
    the source, followed by the new keys in the order of the call.  When
    the flag is true the call prints one line for each keyword that names
    a default key, in the order of the call, and nothing else; when it is
    false, nothing. *)
Theorem keyword_construction kwargs :
  List.NoDup (keys kwargs) ->
  let given := List.filter (other_than "verbose"%string) kwargs in
  exists f log,
    __init__ [] kwargs = Ok (f, log)
    /\ verbose f = match dict_get "verbose" kwargs with
                   | Some v => v
                   | None => VBool true
                   end
    /\ __getitem__ f "verbose" = Raise (KeyError "verbose")
    /\ (forall k v, In (k, v) given -> __getitem__ f k = Ok v)
    /\ (forall k, ~ In k (keys given) ->
          __getitem__ f k = __getitem__ (mkFile (verbose f) defaults) k)
    /\ __iter__ f
       = keys defaults
         ++ List.filter (fun k => negb (dict_has k defaults)) (keys given)
    /\ log = if truthy (verbose f)
             then map (fun kv => Overriding (fst kv) (snd kv))
                    (List.filter (fun kv => dict_has (fst kv) defaults) given)
             else [].
Proof.
  intros Hnd given.
  assert (Hg : List.NoDup (keys given)) by now apply keys_filter_distinct.
  assert (Hv : ~ In "verbose"%string (keys given)).
  { unfold given. rewrite keys_filter. intros Hin.
    apply List.filter_In in Hin as [_ Hin]. discriminate. }
  unfold __init__.
  rewrite (dict_of_dict kwargs Hnd), (dict_pop_spec _ _ kwargs Hnd).
  fold given. change (dict_update [] given) with (dict_of given).
  rewrite (dict_of_dict given Hg). unfold update.
  rewrite (update_spec given _ [] Hg). cbn [verbose store app].
  eexists _, _. split; [reflexivity|]. cbn [verbose store].
  split; [reflexivity|]. unfold __getitem__, __iter__, _keytransform.
  cbn [store].
  split; [now rewrite dict_get_update_other by exact Hv|].
  split; [intros k v Hin; now rewrite (dict_get_update k v given _ Hg Hin)|].
  split; [intros k Hk; now rewrite dict_get_update_other by exact Hk|].
  split; [now apply keys_update | reflexivity].
Qed.

(** X11.  The constructor called with a mapping [a] and keywords
    returns.  Only the keyword [verbose] sets the flag.  Every keyword
    other than [verbose] is stored with its value, also over an item of
    [a] with the same key.  An item of [a] whose key is not a keyword is
    stored with its value; so is an item of [a] with the key [verbose],
    which the file then holds as a key without any effect on the flag. *)
Theorem positional_mapping a kwargs :
  List.NoDup (keys a) -> List.NoDup (keys kwargs) ->
  exists f log,
    __init__ [a] kwargs = Ok (f, log)
    /\ verbose f = match dict_get "verbose" kwargs with
                   | Some v => v
                   | None => VBool true
                   end
    /\ (forall k v, In (k, v) kwargs -> k <> "verbose"%string ->
          __getitem__ f k = Ok v)
    /\ (forall k v, In (k, v) a ->
          k = "verbose"%string \/ ~ In k (keys kwargs) ->
          __getitem__ f k = Ok v).
Proof.
  intros Ha Hnd.
  set (given := List.filter (other_than "verbose"%string) kwargs).
  assert (Hg : List.NoDup (keys given)) by now apply keys_filter_distinct.
  unfold __init__.
  rewrite (dict_of_dict kwargs Hnd), (dict_pop_spec _ _ kwargs Hnd).
  fold given. rewrite (dict_of_dict a Ha).
  set (other := dict_update a given).
  assert (Ho : List.NoDup (keys other)) by now apply keys_update_distinct.
  unfold update. rewrite (update_spec other _ [] Ho). cbn [verbose store app].
  eexists _, _. split; [reflexivity|]. cbn [verbose store].
  split; [reflexivity|]. unfold __getitem__, _keytransform. cbn [store].
  assert (Hstored : forall k v, dict_get k other = Some v ->
            dict_get k (dict_update defaults other) = Some v).
  { intros k v Hk. apply dict_get_update; [exact Ho|]. now apply dict_get_in. }
  split.
  - intros k v Hin Hk. rewrite (Hstored k v); [reflexivity|].
    apply dict_get_update; [exact Hg|]. apply List.filter_In. split; [exact Hin|].
    simpl. destruct (String.eqb_spec k "verbose"); [congruence | reflexivity].
  - intros k v Hin Hk. rewrite (Hstored k v); [reflexivity|].
    unfold other. rewrite dict_get_update_other; [now apply in_dict_get|].
    unfold given. rewrite keys_filter. intros Hf.
    apply List.filter_In in Hf as [Hf1 Hf2]. destruct Hk as [->|Hk].
    + discriminate.
    + tauto.
Qed.

(** *** Deletion *)

(** X12.  [del f[key]] on a key that is there removes that key and
    nothing else: the file then raises [KeyError] at [key], answers as
    before at every other key, iterates over the other keys in their old
    order, and is shorter by one.  On a key that is not there it raises
    [KeyError] with that key. *)
Theorem delitem_removes f key :
  List.NoDup (__iter__ f) ->
  match __delitem__ f key with
  | Ok f' =>
      In key (__iter__ f)
      /\ __getitem__ f' key = Raise (KeyError key)
      /\ (forall k, k <> key -> __getitem__ f' k = __getitem__ f k)
      /\ __iter__ f' = List.filter (fun k => negb (String.eqb k key)) (__iter__ f)
      /\ S (__len__ f') = __len__ f
      /\ verbose f' = verbose f
  | Raise e => e = KeyError key /\ ~ In key (__iter__ f)
  end.
Proof.
  unfold __delitem__, __getitem__, __iter__, __len__, _keytransform.
  intros Hnd. destruct (dict_del key (store f)) as [d|] eqn:E.
  - cbn [store verbose].
    pose proof (dict_del_filter _ _ _ Hnd E) as Hd.
    assert (Hin : In key (keys (store f))).
    { destruct (in_dec string_dec key (keys (store f))) as [I|I]; [exact I|].
      apply dict_del_none in I. congruence. }
    split; [exact Hin|]. split.
    + assert (Hn : dict_get key d = None); [|now rewrite Hn].
      apply dict_get_none. rewrite Hd, keys_filter. intros Hf.
      apply List.filter_In in Hf as [_ Hf]. now rewrite String.eqb_refl in Hf.
    + split; [intros k Hk; now rewrite Hd, dict_get_filter_ne|].
      split; [rewrite Hd; apply keys_filter|].
      split; [symmetry; now apply (dict_del_length key) | reflexivity].
  - split; [reflexivity|]. now apply dict_del_none.
Qed.

(** X13.  Assigning a key that is not there and deleting it again gives
    the file back as it was, store, order and flag, and prints nothing. *)
Theorem set_new_then_delete f key v :
  ~ In key (__iter__ f) ->
  snd (__setitem__ f key v) = []
  /\ __delitem__ (fst (__setitem__ f key v)) key = Ok f.
Proof.
  unfold __setitem__, __delitem__, __getitem__, __iter__, _keytransform.
  intros Hn. cbv zeta. cbn [fst snd store verbose].
  pose proof Hn as Hg. apply dict_get_none in Hg. rewrite Hg.
  split; [reflexivity|].
  rewrite dict_set_new, dict_del_last by exact Hn. now destruct f.
Qed.

(** *** Files of the kind the converter builds *)

(** A latitude and a stop time given by keyword: one default is
    overridden, one key is new. *)
Lemma keyword_construction_latitude :
  let kwargs := [("erf.latitude"%string, VFloat 45);
                 ("stop_time"%string, VFloat 3600)] in
  let given := List.filter (other_than "verbose"%string) kwargs in
  exists f log,
    __init__ [] kwargs = Ok (f, log)
    /\ verbose f = match dict_get "verbose" kwargs with
                   | Some v => v
                   | None => VBool true
                   end
    /\ __getitem__ f "verbose" = Raise (KeyError "verbose")
    /\ (forall k v, In (k, v) given -> __getitem__ f k = Ok v)
    /\ (forall k, ~ In k (keys given) ->
          __getitem__ f k = __getitem__ (mkFile (verbose f) defaults) k)
    /\ __iter__ f
       = keys defaults
         ++ List.filter (fun k => negb (dict_has k defaults)) (keys given)
    /\ log = if truthy (verbose f)
             then map (fun kv => Overriding (fst kv) (snd kv))
                    (List.filter (fun kv => dict_has (fst kv) defaults) given)
             else [].
Proof.
  intros kwargs. apply (keyword_construction kwargs).
  repeat (constructor; [simpl; intuition discriminate|]). constructor.
Defined.

(** A mapping that holds the key [verbose], and a keyword. *)
Lemma positional_mapping_verbose :
  let a := [("verbose"%string, VBool false);
            ("amr.n_cell"%string, VList [VInt 8; VInt 8; VInt 8])] in
  let kwargs := [("stop_time"%string, VFloat 3600)] in
  exists f log,
    __init__ [a] kwargs = Ok (f, log)
    /\ verbose f = match dict_get "verbose" kwargs with
                   | Some v => v
                   | None => VBool true
                   end
    /\ (forall k v, In (k, v) kwargs -> k <> "verbose"%string ->
          __getitem__ f k = Ok v)
    /\ (forall k v, In (k, v) a ->
          k = "verbose"%string \/ ~ In k (keys kwargs) ->
          __getitem__ f k = Ok v).
Proof.
  intros a kwargs. apply (positional_mapping a kwargs).
  - repeat (constructor; [simpl; intuition discriminate|]). constructor.
  - repeat (constructor; [simpl; intuition discriminate|]). constructor.
Defined.

(** The levels deleted from the file of the defaults. *)
Lemma delitem_removes_z_levels :
  let f := mkFile (VBool true) defaults in
  let key := "erf.z_levels"%string in
  match __delitem__ f key with
  | Ok f' =>
      In key (__iter__ f)
      /\ __getitem__ f' key = Raise (KeyError key)
      /\ (forall k, k <> key -> __getitem__ f' k = __getitem__ f k)
      /\ __iter__ f' = List.filter (fun k => negb (String.eqb k key)) (__iter__ f)
      /\ S (__len__ f') = __len__ f
      /\ verbose f' = verbose f
  | Raise e => e = KeyError key /\ ~ In key (__iter__ f)
  end.
Proof.
  intros f key. apply (delitem_removes f key).
  apply defaults_distinct.
Defined.

(** A stop time assigned to the file of the defaults and deleted again. *)
Lemma set_new_then_delete_stop_time :
  let f := mkFile (VBool true) defaults in
  snd (__setitem__ f "stop_time" (VFloat 3600)) = []
  /\ __delitem__ (fst (__setitem__ f "stop_time" (VFloat 3600))) "stop_time"
     = Ok f.
Proof.
  intros f. apply (set_new_then_delete f "stop_time" (VFloat 3600)).
  simpl. intuition discriminate.
Defined.

End InputFile.
